(** * Thor: manager orchestration core

    A shallow embedding of the orchestration core of the Thor conversation
    engine (Go): the bounded TTL cache ([cache/types.go]), the shared state
    and the prompt builder ([state/state.go], [state/prompt.go]) and the
    engine's registration and two-phase pipeline ([engine/options.go],
    [engine/engine.go]).

    Conventions.
    - Go [int], [int64] and [time.Duration] values are [Z]; the atomic
      [int64] counters wrap around, which is written out in [AddInt64].
    - A [time.Time] is the number of nanoseconds elapsed since Go's zero
      time (January 1, year 1, 00:00:00 UTC), so [IsZero] tests for [0].
      Every call of [time.Now()] is an explicit argument [now].
    - Go maps are [gmap]s.  A [for ... range] over a map visits the entries
      in an unspecified order: the order is an explicit [RangeOrder].
    - Methods with a pointer receiver are state-passing functions on the
      receiver; package-level variables are a record passed alongside.
    - A Go [error] is its message together with the error it wraps. *)

From stdpp Require Import gmap strings list fin_maps sorting.

#[local] Open Scope Z_scope.

(* ===================================================================== *)
(** * Errors: [fmt.Errorf]                                                *)
(* ===================================================================== *)

Module errors.

(** An [error] value: [Errorf msg] is [fmt.Errorf(msg)] with no [%w]
    verb; [Wrapf msg err] carries the text [msg] and wraps [err]. *)
Inductive error : Type :=
  | Errorf (msg : string)
  | Wrapf (msg : string) (err : error).

Definition Error (e : error) : string :=
  match e with Errorf msg | Wrapf msg _ => msg end.

Definition Unwrap (e : error) : option error :=
  match e with Errorf _ => None | Wrapf _ err => Some err end.

(** [fmt.Errorf(prefix + "%w", err)]: the text of [err] is appended to
    the prefix and [err] is kept as the wrapped error. *)
Definition Errorf_w (prefix : string) (err : error) : error :=
  Wrapf (prefix +:+ Error err) err.

#[global] Instance error_inhabited : Inhabited error :=
  populate (Errorf "").

End errors.

Export errors.

(* ===================================================================== *)
(** * Package [cache]: definitions                                        *)
(* ===================================================================== *)

Module cache.

(** [cache/types.go] declares the package twice over; the later
    declarations, with the statistics and the methods, are the ones
    embedded here. *)

(** [type CacheKey string] *)
Abbreviation CacheKey := string (only parsing).

(** [time.Time], in nanoseconds since the zero time. *)
Definition Time := Z.
(** [time.Duration], nanoseconds as an [int64]. *)
Definition Duration := Z.

Definition zeroTime : Time := 0.
Definition IsZero (t : Time) : bool := bool_decide (t = 0).
Definition Before (t u : Time) : bool := bool_decide (t < u).
Definition After (t u : Time) : bool := bool_decide (u < t).
Definition Add (t : Time) (d : Duration) : Time := t + d.

(** The Unix epoch, in nanoseconds since the zero time; the system clock
    read by [time.Now()] does not run before it. *)
Definition unix_epoch : Time := 62135596800 * 1000000000.
Definition clock_ok (now : Time) : Prop := unix_epoch ≤ now.

(** The range of [int64], and of a [time.Duration]. *)
Definition int64_range (z : Z) : Prop := - 2 ^ 63 ≤ z < 2 ^ 63.

(** [atomic.AddInt64]: two's complement addition on 64 bits. *)
Definition wrap64 (z : Z) : Z := (z + 2 ^ 63) `mod` 2 ^ 64 - 2 ^ 63.
Definition AddInt64 (addr delta : Z) : Z := wrap64 (addr + delta).

(** The package-level variables [hits], [misses] and [evicted]. *)
Record Globals : Type := mkGlobals {
  hits : Z;
  misses : Z;
  evicted : Z
}.

Definition add_hits (g : Globals) : Globals :=
  {| hits := AddInt64 (hits g) 1; misses := misses g; evicted := evicted g |}.
Definition add_misses (g : Globals) : Globals :=
  {| hits := hits g; misses := AddInt64 (misses g) 1; evicted := evicted g |}.
Definition add_evicted (g : Globals) : Globals :=
  {| hits := hits g; misses := misses g; evicted := AddInt64 (evicted g) 1 |}.

Record Config : Type := mkConfig {
  MaxSize : Z;
  TTL : Duration;
  CleanupPeriod : Duration
}.

Record CacheStats : Type := mkCacheStats {
  Size : Z;
  Hits : Z;
  Misses : Z;
  Evicted : Z
}.

Section cache.
Context {V : Type}.

Record CacheEntry : Type := mkCacheEntry {
  Value : V;
  Expiration : Time
}.

(** The [Cache] struct.  The mutex is not represented: every method
    body runs under it, so method calls are atomic steps.  The
    context and its cancel function are the flag [cancelled]. *)
Record Cache : Type := mkCache {
  items : gmap string CacheEntry;
  maxSize : Z;
  ttl : Duration;
  cancelled : bool
}.

Definition with_items (c : Cache) (m : gmap string CacheEntry) : Cache :=
  {| items := m; maxSize := maxSize c; ttl := ttl c;
     cancelled := cancelled c |}.

(** [len(c.items)] *)
Definition len (m : gmap string CacheEntry) : Z := Z.of_nat (size m).

(** The order in which a [range] loop visits the entries of a map:
    some enumeration of the entries, each exactly once. *)
Record RangeOrder : Type := mkRangeOrder {
  range_of :> gmap string CacheEntry → list (string * CacheEntry);
  range_of_perm : ∀ m, range_of m ≡ₚ map_to_list m
}.

Definition default_order : RangeOrder :=
  {| range_of := map_to_list; range_of_perm := λ m, reflexivity _ |}.

(** One iteration of the loop of [evictOldest], on the pair
    [(oldestKey, oldestTime)]. *)
Definition oldest_step (acc : string * Time) (kv : string * CacheEntry)
    : string * Time :=
  if IsZero acc.2 || Before (Expiration kv.2) acc.2
  then (kv.1, Expiration kv.2)
  else acc.

(** The loop of [evictOldest], from the zero values of both variables. *)
Definition oldest_scan (l : list (string * CacheEntry)) : string * Time :=
  foldl oldest_step (""%string, zeroTime) l.

Definition evictOldest (R : RangeOrder) (c : Cache) (g : Globals)
    : Cache * Globals :=
  let '(oldestKey, oldestTime) := oldest_scan (R (items c)) in
  if negb (IsZero oldestTime)
  then (with_items c (delete oldestKey (items c)), add_evicted g)
  else (c, g).

Definition Set_ (R : RangeOrder) (key : CacheKey) (value : V) (now : Time)
    (c : Cache) (g : Globals) : Cache * Globals :=
  let '(c1, g1) :=
    if bool_decide (maxSize c ≤ len (items c))
    then evictOldest R c g
    else (c, g) in
  (with_items c1
     (<[key := {| Value := value; Expiration := Add now (ttl c1) |}]>
        (items c1)),
   g1).

(** [Get] holds the read lock only: the receiver is left as it is.  The
    two results [(value, found)] are an [option]: [None] is [(nil, false)]. *)
Definition Get (key : CacheKey) (now : Time) (c : Cache) (g : Globals)
    : option V * Globals :=
  match items c !! key with
  | Some entry =>
      if After now (Expiration entry)
      then (None, add_misses g)
      else (Some (Value entry), add_hits g)
  | None => (None, add_misses g)
  end.

Definition Delete (key : CacheKey) (c : Cache) : Cache :=
  with_items c (delete key (items c)).

Definition Clear (c : Cache) : Cache := with_items c ∅.

Definition GetStats (c : Cache) (g : Globals) : CacheStats :=
  {| Size := len (items c); Hits := hits g; Misses := misses g;
     Evicted := evicted g |}.

(** One iteration of the sweep loop in [cleanup]. *)
Definition sweep_step (now : Time)
    (acc : gmap string CacheEntry * Globals) (kv : string * CacheEntry)
    : gmap string CacheEntry * Globals :=
  if After now (Expiration kv.2)
  then (delete kv.1 acc.1, add_evicted acc.2)
  else acc.

(** The [ticker.C] case of [cleanup]: one sweep, at clock reading [now]. *)
Definition cleanup_tick (R : RangeOrder) (now : Time) (c : Cache)
    (g : Globals) : Cache * Globals :=
  let '(m, g1) := foldl (sweep_step now) (items c, g) (R (items c)) in
  (with_items c m, g1).

Definition Close (c : Cache) : Cache :=
  {| items := items c; maxSize := maxSize c; ttl := ttl c;
     cancelled := true |}.

(** ** The heap of cache instances

    [*Cache] values are addresses into [heap]; the package-level
    counters live next to it. *)
Record World : Type := mkWorld {
  globals : Globals;
  heap : gmap nat Cache
}.

Definition init_world : World :=
  {| globals := {| hits := 0; misses := 0; evicted := 0 |}; heap := ∅ |}.

(** [New]: allocates an instance and starts its [cleanup] goroutine.
    [time.NewTicker] panics on a period that is not positive, which
    ends the program: [None]. *)
Definition New (config : Config) (w : World) : option (nat * World) :=
  if bool_decide (0 < CleanupPeriod config)
  then
    let p := fresh (dom (heap w)) in
    Some (p, {| globals := globals w;
                heap := <[p := {| items := ∅; maxSize := MaxSize config;
                                  ttl := TTL config;
                                  cancelled := false |}]> (heap w) |})
  else None.

(** Method calls through a pointer [p].  [OpSweep] is one tick of the
    [cleanup] goroutine of [p]; a tick may come at any point of a run,
    also after [Close], when the goroutine makes no more of them. *)
Inductive Op : Type :=
  | OpSet (p : nat) (key : CacheKey) (value : V) (now : Time)
  | OpGet (p : nat) (key : CacheKey) (now : Time)
  | OpDelete (p : nat) (key : CacheKey)
  | OpClear (p : nat)
  | OpSweep (p : nat) (now : Time)
  | OpClose (p : nat).

Definition receiver (o : Op) : nat :=
  match o with
  | OpSet p _ _ _ | OpGet p _ _ | OpDelete p _ | OpClear p
  | OpSweep p _ | OpClose p => p
  end.

(** Writing back the receiver [p] and the package variables. *)
Definition store (p : nat) (cg : Cache * Globals) (w : World) : World :=
  {| globals := cg.2; heap := <[p := cg.1]> (heap w) |}.

(** The effect of a call on its receiver and on the package variables. *)
Definition method (R : RangeOrder) (o : Op) (c : Cache) (g : Globals)
    : Cache * Globals :=
  match o with
  | OpSet _ key value now => Set_ R key value now c g
  | OpGet _ key now => (c, (Get key now c g).2)
  | OpDelete _ key => (Delete key c, g)
  | OpClear _ => (Clear c, g)
  | OpSweep _ now => cleanup_tick R now c g
  | OpClose _ => (Close c, g)
  end.

(** Executing a call: [None] when the pointer is not an allocated
    instance (a nil dereference in Go). *)
Definition exec (R : RangeOrder) (o : Op) (w : World) : option World :=
  c ← heap w !! receiver o;
  Some (store (receiver o) (method R o c (globals w)) w).

Fixpoint run (R : RangeOrder) (ops : list Op) (w : World) : option World :=
  match ops with
  | [] => Some w
  | o :: ops' => w1 ← exec R o w; run R ops' w1
  end.

(** [p.GetStats()] *)
Definition stats (p : nat) (w : World) : option CacheStats :=
  c ← heap w !! p; Some (GetStats c (globals w)).

(** The clock readings an operation makes. *)
Definition op_clock_ok (o : Op) : Prop :=
  match o with
  | OpSet _ _ _ now | OpGet _ _ now | OpSweep _ now => clock_ok now
  | _ => True
  end.

(** ** Vocabulary of the statements on the cache *)

(** No stored expiration is the zero time. *)
Definition stamped (m : gmap string CacheEntry) : Prop :=
  ∀ k e, m !! k = Some e → Expiration e ≠ 0.

(** What the loop of [evictOldest] holds after visiting a list [l] that
    is not empty: a key of [l] and its expiration, the least one. *)
Definition oldest_of (l : list (string * CacheEntry)) (acc : string * Time)
    : Prop :=
  acc.2 ≠ 0
  ∧ (∃ e, (acc.1, e) ∈ l ∧ Expiration e = acc.2)
  ∧ ∀ kv, kv ∈ l → acc.2 ≤ Expiration kv.2.

(** The entry count is within the capacity. *)
Definition bounded (c : Cache) : Prop := len (items c) ≤ maxSize c.

(** A cache the invariant is stated for: a capacity of one entry at
    least, a TTL that is a [time.Duration], and entries stamped by [Set]. *)
Definition sound (c : Cache) : Prop :=
  1 ≤ maxSize c ∧ int64_range (ttl c) ∧ bounded c ∧ stamped (items c).

(** The instance at [p] is sound and has capacity [n]. *)
Definition sound_at (p : nat) (n : Z) (w : World) : Prop :=
  ∃ c, heap w !! p = Some c ∧ maxSize c = n ∧ sound c.

(** A [Set] to make: key, value, and the clock reading it is made at. *)
Definition key_of (s : string * V * Time) : string := s.1.1.
Definition time_of (s : string * V * Time) : Time := s.2.

(** The entry such a [Set] stores, under the TTL [d]. *)
Definition entry_of (d : Duration) (s : string * V * Time)
    : string * CacheEntry :=
  (key_of s, {| Value := s.1.2; Expiration := Add (time_of s) d |}).

(** The entries the calls [kvs] store, under the TTL [d]. *)
Definition stored (d : Duration) (kvs : list (string * V * Time))
    : gmap string CacheEntry :=
  list_to_map (entry_of d <$> kvs).

(** The calls [p.Set(k, v)] of [kvs], in order. *)
Definition sets_on (p : nat) (kvs : list (string * V * Time)) : list Op :=
  (λ s, OpSet p (key_of s) s.1.2 (time_of s)) <$> kvs.

(** The same calls, on the receiver and the package variables. *)
Definition set_all (R : RangeOrder) (kvs : list (string * V * Time))
    (cg : Cache * Globals) : Cache * Globals :=
  foldl (λ cg s, Set_ R (key_of s) s.1.2 (time_of s) cg.1 cg.2) cg kvs.

End cache.

Arguments CacheEntry : clear implicits.
Arguments Cache : clear implicits.
Arguments World : clear implicits.
Arguments Op : clear implicits.
Arguments RangeOrder : clear implicits.

End cache.

(* ===================================================================== *)
(** * Package [db]: the persisted entities                                *)
(* ===================================================================== *)

(** [type ID string] of package [id]. *)
Module id.
Abbreviation ID := string (only parsing).
End id.

Module db.

Module Actor.
Record t : Type := mk {
  ID : id.ID;
  Name : string;
  Assistant : bool;
  CreatedAt : Z;
  UpdatedAt : Z;
  DeletedAt : option Z
}.
End Actor.

Module Session.
Record t : Type := mk {
  ID : id.ID;
  CreatedAt : Z;
  UpdatedAt : Z;
  DeletedAt : option Z
}.
End Session.

Module Fragment.
Section fragment.
(** [V]: the values held by an [interface{}]; [Vec]: [pgvector.Vector]. *)
Context {V Vec : Type}.

Record t : Type := mk {
  ID : id.ID;
  ActorID : id.ID;
  SessionID : id.ID;
  Content : string;
  Metadata : option (gmap string V);
  Embedding : Vec;
  Actor : option Actor.t;
  Session : option Session.t;
  CreatedAt : Z;
  UpdatedAt : Z;
  DeletedAt : option Z
}.
End fragment.
Arguments t : clear implicits.
End Fragment.

End db.

(* ===================================================================== *)
(** * Package [llm]: messages                                             *)
(* ===================================================================== *)

Module llm.

(** [type Role string] and its constants. *)
Definition RoleSystem : string := "system".
Definition RoleUser : string := "user".
Definition RoleAssistant : string := "assistant".
Definition RoleTool : string := "tool".

(** [type ToolCall struct], named after its use in [Message]. *)
Record ToolCallT : Type := mkToolCall {
  tc_Name : string;
  tc_Arguments : string
}.

Record Message : Type := mkMessage {
  Role : string;
  Content : string;
  Name : string;
  ToolCall : option ToolCallT
}.

End llm.

(* ===================================================================== *)
(** * Package [state]: the shared state and the prompt builder            *)
(* ===================================================================== *)

Module state.

Section state.
(** [V]: the values held by an [interface{}]; [Vec]: [pgvector.Vector];
    [Tool]: [toolkit.Tool]. *)
Context {V Vec Tool : Type}.

(** A [StateData] pair; its key is a [StateDataKey], a string. *)
Record StateData : Type := mkStateData {
  Key : string;
  sd_Value : V
}.

(** The [State] struct.  Pointers are [option]s and so are the two maps,
    a Go map being [nil] until it is made. *)
Record State : Type := mkState {
  Input : option (db.Fragment.t V Vec);
  Output : option (db.Fragment.t V Vec);
  Actor : option db.Actor.t;
  RecentInteractions : list (db.Fragment.t V Vec);
  RelevantInteractions : list (db.Fragment.t V Vec);
  Tools : list Tool;
  managerData : option (gmap string V);
  customData : option (gmap string V)
}.

Definition NewState : State :=
  {| Input := None; Output := None; Actor := None;
     RecentInteractions := []; RelevantInteractions := []; Tools := [];
     managerData := Some ∅; customData := Some ∅ |}.

Definition set_managerData (s : State) (m : option (gmap string V)) : State :=
  {| Input := Input s; Output := Output s; Actor := Actor s;
     RecentInteractions := RecentInteractions s;
     RelevantInteractions := RelevantInteractions s; Tools := Tools s;
     managerData := m; customData := customData s |}.

Definition set_customData (s : State) (m : option (gmap string V)) : State :=
  {| Input := Input s; Output := Output s; Actor := Actor s;
     RecentInteractions := RecentInteractions s;
     RelevantInteractions := RelevantInteractions s; Tools := Tools s;
     managerData := managerData s; customData := m |}.

Definition set_Tools (s : State) (ts : list Tool) : State :=
  {| Input := Input s; Output := Output s; Actor := Actor s;
     RecentInteractions := RecentInteractions s;
     RelevantInteractions := RelevantInteractions s; Tools := ts;
     managerData := managerData s; customData := customData s |}.

Definition set_Input (s : State) (f : option (db.Fragment.t V Vec)) : State :=
  {| Input := f; Output := Output s; Actor := Actor s;
     RecentInteractions := RecentInteractions s;
     RelevantInteractions := RelevantInteractions s; Tools := Tools s;
     managerData := managerData s; customData := customData s |}.

Definition set_Output (s : State) (f : option (db.Fragment.t V Vec)) : State :=
  {| Input := Input s; Output := f; Actor := Actor s;
     RecentInteractions := RecentInteractions s;
     RelevantInteractions := RelevantInteractions s; Tools := Tools s;
     managerData := managerData s; customData := customData s |}.

(** A map read [m[key]] with the comma-ok form; a [nil] map reads as an
    empty one. *)
Definition index (m : option (gmap string V)) (key : string) : option V :=
  match m with
  | Some m => m !! key
  | None => None
  end.

(** [if m == nil { m = make(...) }] *)
Definition made (m : option (gmap string V)) : gmap string V :=
  default ∅ m.

Definition AddManagerData (data : list StateData) (s : State) : State :=
  set_managerData s
    (Some (foldl (λ m d, <[Key d := sd_Value d]> m) (made (managerData s)) data)).

Definition GetManagerData (key : string) (s : State) : option V :=
  index (managerData s) key.

Definition AddCustomData (key : string) (value : V) (s : State) : State :=
  set_customData s (Some (<[key := value]> (made (customData s)))).

Definition GetCustomData (key : string) (s : State) : option V :=
  match customData s with
  | None => None
  | Some m => m !! key
  end.

Definition Reset (s : State) : State :=
  set_customData (set_managerData s (Some ∅)) (Some ∅).

(** ** The prompt builder *)

Record PromptSection : Type := mkPromptSection {
  Role : string;
  Template : string;
  Name : string
}.

(** The [PromptBuilder] struct.  Its field [state] is a pointer to the
    [State] of the caller: the methods below take that [State] as an
    argument next to the builder, and return it when they write to it. *)
Record PromptBuilder : Type := mkPromptBuilder {
  sections : list PromptSection;
  stateData : gmap string V;
  helpers : gmap string V;
  err : option error
}.

Definition NewPromptBuilder : PromptBuilder :=
  {| sections := []; stateData := ∅; helpers := ∅; err := None |}.

Definition WithHelper (name : string) (fn : V) (tb : PromptBuilder)
    : PromptBuilder :=
  match err tb with
  | Some _ => tb
  | None =>
      {| sections := sections tb; stateData := stateData tb;
         helpers := <[name := fn]> (helpers tb); err := err tb |}
  end.

Definition AddSectionWithName (role templateText name : string)
    (tb : PromptBuilder) : PromptBuilder :=
  match err tb with
  | Some _ => tb
  | None =>
      {| sections := sections tb ++
           [{| Role := role; Template := templateText; Name := name |}];
         stateData := stateData tb; helpers := helpers tb; err := err tb |}
  end.

Definition AddSection (role templateText : string) (tb : PromptBuilder)
    : PromptBuilder :=
  AddSectionWithName role templateText "" tb.

Definition AddSystemSection (templateText : string) (tb : PromptBuilder)
    : PromptBuilder :=
  AddSection llm.RoleSystem templateText tb.

Definition AddUserSection (templateText name : string) (tb : PromptBuilder)
    : PromptBuilder :=
  AddSectionWithName llm.RoleUser templateText name tb.

Definition AddAssistantSection (templateText : string) (tb : PromptBuilder)
    : PromptBuilder :=
  AddSection llm.RoleAssistant templateText tb.

Definition WithManagerData (key : string) (tb : PromptBuilder) (s : State)
    : PromptBuilder :=
  match err tb with
  | Some _ => tb
  | None =>
      match GetManagerData key s with
      | None =>
          {| sections := sections tb; stateData := stateData tb;
             helpers := helpers tb;
             err := Some (Errorf
                            ("manager data for key " +:+ key +:+ " not found")) |}
      | Some value =>
          {| sections := sections tb;
             stateData := <[key := value]> (stateData tb);
             helpers := helpers tb; err := err tb |}
      end
  end.

Fixpoint WithManagerDataBatch (keys : list string) (tb : PromptBuilder)
    (s : State) : PromptBuilder :=
  match keys with
  | [] => tb
  | key :: keys' =>
      let tb' := WithManagerData key tb s in
      match err tb' with
      | Some _ => tb'
      | None => WithManagerDataBatch keys' tb' s
      end
  end.

(** [WithTools] and [WithToolkit] (with the tools [toolkit.GetTools()]
    returns) append to the [Tools] of the [State]. *)
Definition WithTools (tools : list Tool) (tb : PromptBuilder) (s : State)
    : PromptBuilder * State :=
  (tb, set_Tools s (Tools s ++ tools)).

Definition WithToolkit (toolkit_tools : list Tool) (tb : PromptBuilder)
    (s : State) : PromptBuilder * State :=
  (tb, set_Tools s (Tools s ++ toolkit_tools)).

Definition GetTools (tb : PromptBuilder) (s : State) : list Tool :=
  Tools s.

(** The values of the template data map: the exported fields of the
    [State], each with its own type, and the [interface{}] values of the
    two data maps. *)
Inductive DataValue : Type :=
  | FragmentValue (f : option (db.Fragment.t V Vec))
  | ActorValue (a : option db.Actor.t)
  | FragmentsValue (fs : list (db.Fragment.t V Vec))
  | ToolsValue (ts : list Tool)
  | AnyValue (v : V).

(** The library [html/template], of which [Compose] uses [Parse] (after
    [New] and [Funcs]) and [Execute] into a buffer. *)
Record TemplateLib : Type := mkTemplateLib {
  Tmpl : Type;
  Parse : gmap string V → string → Tmpl + error;
  Execute : Tmpl → gmap string DataValue → string + error
}.

(** The reflection loop over the fields of the [State]: the exported
    ones, by name. *)
Definition state_fields (s : State) : gmap string DataValue :=
  <["Tools" := ToolsValue (Tools s)]>
  (<["RelevantInteractions" := FragmentsValue (RelevantInteractions s)]>
  (<["RecentInteractions" := FragmentsValue (RecentInteractions s)]>
  (<["Actor" := ActorValue (Actor s)]>
  (<["Output" := FragmentValue (Output s)]>
  (<["Input" := FragmentValue (Input s)]> ∅))))).

(** [for k, v := range m { data[k] = v }] *)
Definition assign_all (m : gmap string V) (data : gmap string DataValue)
    : gmap string DataValue :=
  map_fold (λ k v d, <[k := AnyValue v]> d) data m.

Definition section_data (tb : PromptBuilder) (s : State)
    : gmap string DataValue :=
  assign_all (made (customData s))
    (assign_all (stateData tb) (state_fields s)).

(** The loop of [Compose] over the sections, [messages] being the
    messages appended so far. *)
Fixpoint compose_loop (L : TemplateLib) (tb : PromptBuilder) (s : State)
    (secs : list PromptSection) (messages : list llm.Message)
    : list llm.Message * option error :=
  match secs with
  | [] => (messages, None)
  | section :: secs' =>
      match Parse L (helpers tb) (Template section) with
      | inr e => ([], Some (Errorf_w "failed to parse template section: " e))
      | inl tmpl =>
          match Execute L tmpl (section_data tb s) with
          | inr e =>
              ([], Some (Errorf_w
                           ("failed to execute template section (role="
                              +:+ Role section +:+ "): ") e))
          | inl buf =>
              compose_loop L tb s secs'
                (messages ++
                   [{| llm.Role := Role section; llm.Content := buf;
                       llm.Name := Name section; llm.ToolCall := None |}])
          end
      end
  end.

(** [Compose] returns [(messages, err)]; a [nil] slice is [[]]. *)
Definition Compose (L : TemplateLib) (tb : PromptBuilder) (s : State)
    : list llm.Message * option error :=
  match err tb with
  | Some e => ([], Some e)
  | None => compose_loop L tb s (sections tb) []
  end.

(** The calls of the builder's chaining interface. *)
Inductive Call : Type :=
  | CallWithHelper (name : string) (fn : V)
  | CallAddSection (role templateText : string)
  | CallAddSectionWithName (role templateText name : string)
  | CallAddSystemSection (templateText : string)
  | CallAddUserSection (templateText name : string)
  | CallAddAssistantSection (templateText : string)
  | CallWithManagerData (key : string)
  | CallWithManagerDataBatch (keys : list string)
  | CallWithTools (tools : list Tool)
  | CallWithToolkit (toolkit_tools : list Tool).

Definition call (c : Call) (tb : PromptBuilder) (s : State)
    : PromptBuilder * State :=
  match c with
  | CallWithHelper name fn => (WithHelper name fn tb, s)
  | CallAddSection role text => (AddSection role text tb, s)
  | CallAddSectionWithName role text name =>
      (AddSectionWithName role text name tb, s)
  | CallAddSystemSection text => (AddSystemSection text tb, s)
  | CallAddUserSection text name => (AddUserSection text name tb, s)
  | CallAddAssistantSection text => (AddAssistantSection text tb, s)
  | CallWithManagerData key => (WithManagerData key tb s, s)
  | CallWithManagerDataBatch keys => (WithManagerDataBatch keys tb s, s)
  | CallWithTools tools => WithTools tools tb s
  | CallWithToolkit tools => WithToolkit tools tb s
  end.

(** The calls that test the builder's error before doing anything. *)
Definition checks_err (c : Call) : bool :=
  match c with
  | CallWithTools _ | CallWithToolkit _ => false
  | _ => true
  end.

(** A chain of calls, left to right. *)
Definition call_all (cs : list Call) (ts : PromptBuilder * State)
    : PromptBuilder * State :=
  foldl (λ ts c, call c ts.1 ts.2) ts cs.

(** ** Vocabulary of the statements on the builder *)

(** A section [sec] renders to the message [msg]. *)
Definition rendered (L : TemplateLib) (tb : PromptBuilder) (s : State)
    (sec : PromptSection) (msg : llm.Message) : Prop :=
  ∃ tmpl buf,
    Parse L (helpers tb) (Template sec) = inl tmpl
    ∧ Execute L tmpl (section_data tb s) = inl buf
    ∧ msg = {| llm.Role := Role sec; llm.Content := buf;
               llm.Name := Name sec; llm.ToolCall := None |}.

End state.

Arguments StateData : clear implicits.
Arguments State : clear implicits.
Arguments PromptBuilder : clear implicits.
Arguments DataValue : clear implicits.
Arguments TemplateLib : clear implicits.
Arguments Call : clear implicits.

End state.

(* ===================================================================== *)
(** * Packages [stores] and [manager]: the collaborators of the engine    *)
(* ===================================================================== *)

Module stores.

Section stores.
(** [W]: the world outside the program (database, network), which the
    stores and the managers read and write. *)
Context {V Vec W : Type}.

(** Modelled from the spec: package [stores] is not among the sources.
    A store offers [GetByID(id) -> (entity|nil, error)] and
    [Upsert(entity) -> error]; the engine's pipeline reads actors and
    sessions and upserts fragments. *)
Record ActorStore : Type := mkActorStore {
  actor_GetByID : id.ID → W → option db.Actor.t * option error
}.

(** Modelled from the spec: the session store, see [ActorStore]. *)
Record SessionStore : Type := mkSessionStore {
  session_GetByID : id.ID → W → option db.Session.t * option error
}.

(** Modelled from the spec: the fragment store, see [ActorStore]. *)
Record FragmentStore : Type := mkFragmentStore {
  Upsert : db.Fragment.t V Vec → W → W * option error
}.

End stores.

Arguments ActorStore : clear implicits.
Arguments SessionStore : clear implicits.
Arguments FragmentStore : clear implicits.

End stores.

Module manager.

Section manager.
Context {V Vec Tool W : Type}.

(** Modelled from the spec: the interface [Manager] is declared in a file
    of package [manager] that is not among the sources (the README lists
    its methods).  Of its capabilities the pipeline uses the identifier,
    the dependencies and the two callbacks, which receive the pointer to
    the shared [State] and return an [error] ([None] is [nil]); they may
    write to the [State] and to the world. *)
Record Manager : Type := mkManager {
  GetID : string;
  GetDependencies : list string;
  Process : state.State V Vec Tool → W
            → state.State V Vec Tool * W * option error;
  PostProcess : state.State V Vec Tool → W
                → state.State V Vec Tool * W * option error
}.

End manager.

Arguments Manager : clear implicits.

End manager.

(* ===================================================================== *)
(** * Package [engine]: registration and the two-phase pipeline           *)
(* ===================================================================== *)

Module engine.

Section engine.
Context {V Vec Tool W : Type}.

#[local] Abbreviation State := (state.State V Vec Tool).
#[local] Abbreviation Fragment := (db.Fragment.t V Vec).
#[local] Abbreviation Manager := (manager.Manager V Vec Tool W).

(** Modelled from the spec: the struct [Engine] is declared in a file of
    package [engine] that is not among the sources; these are the fields
    the methods below read and write (the context, the database handle,
    the logger and the LLM client play no part in them). *)
Record Engine : Type := mkEngine {
  ID : id.ID;
  Name : string;
  actorStore : stores.ActorStore W;
  sessionStore : stores.SessionStore W;
  interactionFragmentStore : stores.FragmentStore V Vec W;
  managers : list Manager;
  managerOrder : list string
}.

Definition set_managers (e : Engine) (ms : list Manager) : Engine :=
  {| ID := ID e; Name := Name e; actorStore := actorStore e;
     sessionStore := sessionStore e;
     interactionFragmentStore := interactionFragmentStore e;
     managers := ms; managerOrder := managerOrder e |}.

Definition set_managerOrder (e : Engine) (order : list string) : Engine :=
  {| ID := ID e; Name := Name e; actorStore := actorStore e;
     sessionStore := sessionStore e;
     interactionFragmentStore := interactionFragmentStore e;
     managers := managers e; managerOrder := order |}.

(** ** Registration ([options.go], [AddManager]) *)

(** The first loop of [WithManagers]: fills [available], stopping at an
    identifier that is already there. *)
Fixpoint collect (ms : list Manager) (available : gmap string Manager)
    : gmap string Manager + error :=
  match ms with
  | [] => inl available
  | m :: ms' =>
      let id := manager.GetID m in
      match available !! id with
      | Some _ => inr (Errorf ("duplicate manager with ID " +:+ id))
      | None => collect ms' (<[id := m]> available)
      end
  end.

(** The inner loop over the dependencies of the manager [mid]: the first
    one that [provided] does not hold is reported. *)
Fixpoint missing_dep (provided : string → bool) (mid : string)
    (deps : list string) : option error :=
  match deps with
  | [] => None
  | dep :: deps' =>
      if provided dep then missing_dep provided mid deps'
      else Some (Errorf ("manager " +:+ mid +:+ " requires manager "
                           +:+ dep +:+ " which was not provided"))
  end.

(** The second loop of [WithManagers]. *)
Fixpoint check_deps (ms : list Manager) (available : gmap string Manager)
    : option error :=
  match ms with
  | [] => None
  | m :: ms' =>
      match missing_dep (λ dep, bool_decide (is_Some (available !! dep)))
              (manager.GetID m) (manager.GetDependencies m) with
      | Some err => Some err
      | None => check_deps ms' available
      end
  end.

(** An [options.Option[Engine]] is a function on the engine that returns
    an error; the engine it is applied to is returned next to the error. *)
Definition WithManagers (_managers : list Manager) (e : Engine)
    : Engine * option error :=
  match collect _managers ∅ with
  | inr err => (e, Some err)
  | inl available =>
      match check_deps _managers available with
      | Some err => (e, Some err)
      | None => (set_managers e _managers, None)
      end
  end.

(** [managerMap[m.GetID()] = true] for every registered manager; a key
    that is absent reads as [false]. *)
Definition registered (ms : list Manager) : gmap string bool :=
  foldl (λ mm m, <[manager.GetID m := true]> mm) ∅ ms.

Definition holds (mm : gmap string bool) (id : string) : bool :=
  default false (mm !! id).

Fixpoint check_order (mm : gmap string bool) (order : list string)
    : option error :=
  match order with
  | [] => None
  | id :: order' =>
      if holds mm id then check_order mm order'
      else Some (Errorf ("manager " +:+ id
                           +:+ " specified in order but not provided"))
  end.

Definition WithManagerOrder (order : list string) (e : Engine)
    : Engine * option error :=
  match check_order (registered (managers e)) order with
  | Some err => (e, Some err)
  | None => (set_managerOrder e order, None)
  end.

(** The first loop of [AddManager]. *)
Fixpoint find_duplicate (ms : list Manager) (newID : string) : option error :=
  match ms with
  | [] => None
  | m :: ms' =>
      if bool_decide (manager.GetID m = newID)
      then Some (Errorf ("duplicate manager with ID " +:+ newID))
      else find_duplicate ms' newID
  end.

Definition AddManager (newManager : Manager) (e : Engine)
    : Engine * option error :=
  match find_duplicate (managers e) (manager.GetID newManager) with
  | Some err => (e, Some err)
  | None =>
      let available := registered (managers e) in
      match missing_dep (holds available) (manager.GetID newManager)
              (manager.GetDependencies newManager) with
      | Some err => (e, Some err)
      | None => (set_managers e (managers e ++ [newManager]), None)
      end
  end.

(** ** The pipeline *)

(** What the pipeline did, in order: the calls of the managers' callbacks
    and of the fragment store, each with what it returned.  The trace is
    an observer's record; no function reads it. *)
Inductive Event : Type :=
  | ProcessCall (id : string) (result : option error)
  | PostProcessCall (id : string) (result : option error)
  | UpsertCall (f : Fragment) (result : option error).

(** The state a request runs in: the [State] behind [currentState], the
    world, and the trace so far. *)
Record Sys : Type := mkSys {
  cur : State;
  world : W;
  trace : list Event
}.

Definition createFragmentCopy (fragment : Fragment)
    (actor : option db.Actor.t) (session : option db.Session.t) : Fragment :=
  {| db.Fragment.ID := db.Fragment.ID fragment;
     db.Fragment.ActorID := db.Fragment.ActorID fragment;
     db.Fragment.SessionID := db.Fragment.SessionID fragment;
     db.Fragment.Content := db.Fragment.Content fragment;
     db.Fragment.Metadata := db.Fragment.Metadata fragment;
     db.Fragment.Embedding := db.Fragment.Embedding fragment;
     db.Fragment.Actor := actor;
     db.Fragment.Session := session;
     db.Fragment.CreatedAt := db.Fragment.CreatedAt fragment;
     db.Fragment.UpdatedAt := db.Fragment.UpdatedAt fragment;
     db.Fragment.DeletedAt := db.Fragment.DeletedAt fragment |}.

(** [m.Process(currentState)] *)
Definition call_Process (m : Manager) (y : Sys) : Sys * option error :=
  let '(s, w, r) := manager.Process m (cur y) (world y) in
  ({| cur := s; world := w;
      trace := trace y ++ [ProcessCall (manager.GetID m) r] |}, r).

(** [m.PostProcess(currentState)] *)
Definition call_PostProcess (m : Manager) (y : Sys) : Sys * option error :=
  let '(s, w, r) := manager.PostProcess m (cur y) (world y) in
  ({| cur := s; world := w;
      trace := trace y ++ [PostProcessCall (manager.GetID m) r] |}, r).

(** [e.interactionFragmentStore.Upsert(f)] *)
Definition call_Upsert (e : Engine) (f : Fragment) (y : Sys)
    : Sys * option error :=
  let '(w, r) := stores.Upsert (interactionFragmentStore e) f (world y) in
  ({| cur := cur y; world := w; trace := trace y ++ [UpsertCall f r] |}, r).

(** The [errgroup.Group] of [Process]: one goroutine per manager, none
    cancelled, and [Wait] returns the first error that was returned.  The
    callbacks are taken as atomic steps; [sched] lists the managers in the
    order in which their calls take place, and [first] is the error the
    group holds so far. *)
Fixpoint errgroup_Wait (sched : list Manager) (y : Sys) (first : option error)
    : Sys * option error :=
  match sched with
  | [] => (y, first)
  | m :: sched' =>
      let '(y1, r) := call_Process m y in
      errgroup_Wait sched' y1
        (match first with Some err => Some err | None => r end)
  end.

(** [Engine.Process].  [None]: [currentState.Input] is [nil] and its
    dereference panics.  The log line is left out.  The copy of the input
    is upserted as it was made: managers do not write through
    [currentState.Input]. *)
Definition Process (e : Engine) (sched : list Manager) (y : Sys)
    : option (Sys * option error) :=
  input ← state.Input (cur y);
  Some
    match stores.actor_GetByID (actorStore e)
            (db.Fragment.ActorID input) (world y) with
    | (_, Some err) => (y, Some (Errorf_w "failed to get actor: " err))
    | (actor, None) =>
        match stores.session_GetByID (sessionStore e)
                (db.Fragment.SessionID input) (world y) with
        | (_, Some err) => (y, Some (Errorf_w "failed to get session: " err))
        | (session, None) =>
            let inputCopy := createFragmentCopy input actor session in
            let y1 := {| cur := state.set_Input (cur y) (Some inputCopy);
                         world := world y; trace := trace y |} in
            match errgroup_Wait sched y1 None with
            | (y2, Some err) =>
                (y2, Some (Errorf_w
                             "failed to execute manager analysis: " err))
            | (y2, None) =>
                match call_Upsert e inputCopy y2 with
                | (y3, Some err) =>
                    (y3, Some (Errorf_w "failed to store input: " err))
                | (y3, None) => (y3, None)
                end
            end
        end
    end.

(** [managerMap[m.GetID()] = m] for every registered manager. *)
Definition managerMap (ms : list Manager) : gmap string Manager :=
  foldl (λ mm m, <[manager.GetID m := m]> mm) ∅ ms.

(** [executionOrder]: the configured order, or the identifiers in
    registration order when its length is zero. *)
Definition executionOrder (e : Engine) : list string :=
  if bool_decide (length (managerOrder e) = 0%nat)
  then manager.GetID <$> managers e
  else managerOrder e.

(** The last loop of [executeManagersInOrder]. *)
Fixpoint execute_loop (mm : gmap string Manager)
    (executeFn : Manager → Sys → Sys * option error)
    (order : list string) (y : Sys) : Sys * option error :=
  match order with
  | [] => (y, None)
  | managerID :: order' =>
      match mm !! managerID with
      | Some m =>
          match executeFn m y with
          | (y1, Some err) =>
              (y1, Some (Errorf_w ("manager " +:+ managerID +:+ " failed: ")
                           err))
          | (y1, None) => execute_loop mm executeFn order' y1
          end
      | None => execute_loop mm executeFn order' y
      end
  end.

Definition executeManagersInOrder (e : Engine)
    (executeFn : Manager → Sys → Sys * option error) (y : Sys)
    : Sys * option error :=
  execute_loop (managerMap (managers e)) executeFn (executionOrder e) y.

(** [Engine.PostProcess], on a [response] that is not [nil]. *)
Definition PostProcess (e : Engine) (response : Fragment) (y : Sys)
    : Sys * option error :=
  match stores.actor_GetByID (actorStore e)
          (db.Fragment.ActorID response) (world y) with
  | (_, Some err) => (y, Some (Errorf_w "failed to get actor: " err))
  | (actor, None) =>
      match stores.session_GetByID (sessionStore e)
              (db.Fragment.SessionID response) (world y) with
      | (_, Some err) => (y, Some (Errorf_w "failed to get session: " err))
      | (session, None) =>
          let responseCopy := createFragmentCopy response actor session in
          let y1 := {| cur := state.set_Output (cur y) (Some responseCopy);
                       world := world y; trace := trace y |} in
          match executeManagersInOrder e call_PostProcess y1 with
          | (y2, Some err) =>
              (y2, Some (Errorf_w
                           "failed to execute manager actions: " err))
          | (y2, None) =>
              match call_Upsert e response y2 with
              | (y3, Some err) =>
                  (y3, Some (Errorf_w "failed to store response: " err))
              | (y3, None) => (y3, None)
              end
          end
      end
  end.

(** ** Reading a trace *)

Definition process_calls (tr : list Event) : list (string * option error) :=
  omap (λ ev, match ev with ProcessCall id r => Some (id, r) | _ => None end) tr.

Definition postprocess_calls (tr : list Event)
    : list (string * option error) :=
  omap (λ ev, match ev with PostProcessCall id r => Some (id, r) | _ => None end)
    tr.

Definition upsert_calls (tr : list Event)
    : list (Fragment * option error) :=
  omap (λ ev, match ev with UpsertCall f r => Some (f, r) | _ => None end) tr.

(** The fragments the store accepted. *)
Definition persisted (tr : list Event) : list Fragment :=
  omap (λ ev, match ev with UpsertCall f None => Some f | _ => None end) tr.

(** ** Vocabulary of the statements on the engine *)

(** The identifiers of a sequence of managers, in order. *)
Definition ids (ms : list Manager) : list string := manager.GetID <$> ms.

(** The two errors of registration. *)
Definition duplicate_error (id : string) : error :=
  Errorf ("duplicate manager with ID " +:+ id).

Definition unsatisfied_error (id dep : string) : error :=
  Errorf ("manager " +:+ id +:+ " requires manager " +:+ dep
            +:+ " which was not provided").

(** The managers [executeManagersInOrder] calls when none fails: those
    the map holds for the identifiers of the execution order. *)
Definition callable (e : Engine) : list Manager :=
  omap (λ id, managerMap (managers e) !! id) (executionOrder e).

(** The events of [PostProcess] calls that returned no error. *)
Definition oks (ms : list Manager) : list Event :=
  (λ m, PostProcessCall (manager.GetID m) None) <$> ms.

(** The registered managers but those of identifier [id]. *)
Definition without (id : string) (ms : list Manager) : list Manager :=
  filter (λ m, manager.GetID m ≠ id) ms.

(** The error [Wait] returns: the first one among the results of the
    calls, in the order in which they returned. *)
Fixpoint first_error (results : list (option error)) : option error :=
  match results with
  | [] => None
  | Some err :: _ => Some err
  | None :: results' => first_error results'
  end.

(** The events of the [Process] calls of [ms] with their results. *)
Definition process_events (ms : list Manager) (results : list (option error))
    : list Event :=
  zip_with ProcessCall (ids ms) results.

End engine.

Arguments Engine : clear implicits.
Arguments Event : clear implicits.
Arguments Sys : clear implicits.

End engine.

(* ===================================================================== *)
(** * Further vocabulary: the cache                                       *)
(* ===================================================================== *)

Module cache_terms.
Import cache.

Section cache_terms.
Context {V : Type}.

(** The entries a sweep at [now] keeps: those whose expiration [now] is
    not after. *)
Definition live (now : Time) (m : gmap string (CacheEntry V))
    : gmap string (CacheEntry V) :=
  filter (λ kv, ¬ Expiration kv.2 < now) m.

(** The number of [Get] calls of a run. *)
Definition is_get (o : Op V) : bool :=
  match o with OpGet _ _ _ => true | _ => false end.

Definition gets (ops : list (Op V)) : Z :=
  Z.of_nat (length (filter (λ o, is_get o = true) ops)).

(** [n] atomic increments of a counter. *)
Definition bumped (x : Z) (n : Z) : Z := wrap64 (x + n).

End cache_terms.
End cache_terms.

(* ===================================================================== *)
(** * Further vocabulary: the state and the prompt builder                *)
(* ===================================================================== *)

Module state_terms.
Import state.

Section state_terms.
Context {V Vec Tool : Type}.

(** The value of the last pair of [data] with the key [key]. *)
Definition latest (key : string) (data : list (StateData V))
    : option V :=
  sd_Value <$> last (filter (λ d, Key d = key) data).

(** The first key of [keys] that the manager data of [s] does not hold. *)
Definition first_missing (keys : list string) (s : State V Vec Tool)
    : option string :=
  head (filter (λ key, GetManagerData key s = None) keys).

(** The keys of [keys] before the first one that is missing. *)
Fixpoint found_prefix (keys : list string) (s : State V Vec Tool)
    : list string :=
  match keys with
  | [] => []
  | key :: keys' =>
      match GetManagerData key s with
      | Some _ => key :: found_prefix keys' s
      | None => []
      end
  end.

(** The section a call of the chaining interface asks for. *)
Definition section_of (c : Call V Tool) : option PromptSection :=
  match c with
  | CallAddSection role text =>
      Some {| Role := role; Template := text; Name := "" |}
  | CallAddSectionWithName role text name =>
      Some {| Role := role; Template := text; Name := name |}
  | CallAddSystemSection text =>
      Some {| Role := llm.RoleSystem; Template := text; Name := "" |}
  | CallAddUserSection text name =>
      Some {| Role := llm.RoleUser; Template := text; Name := name |}
  | CallAddAssistantSection text =>
      Some {| Role := llm.RoleAssistant; Template := text; Name := "" |}
  | _ => None
  end.

(** The tools a call of the chaining interface hands over. *)
Definition tools_of (c : Call V Tool) : list Tool :=
  match c with
  | CallWithTools tools | CallWithToolkit tools => tools
  | _ => []
  end.

End state_terms.
End state_terms.

(* ===================================================================== *)
(** * Further vocabulary: the engine                                      *)
(* ===================================================================== *)

Module engine_terms.
Import engine.

Section engine_terms.
Context {V Vec Tool W : Type}.

#[local] Abbreviation Manager := (manager.Manager V Vec Tool W).
#[local] Abbreviation Engine := (engine.Engine V Vec Tool W).

(** The registered managers have pairwise distinct identifiers and each
    dependency of each of them is registered. *)
Definition well_formed (e : Engine) : Prop :=
  NoDup (ids (managers e))
  ∧ ∀ m dep, m ∈ managers e → dep ∈ manager.GetDependencies m →
             dep ∈ ids (managers e).

(** Every identifier of the configured order is registered. *)
Definition order_registered (e : Engine) : Prop :=
  ∀ id, id ∈ managerOrder e → id ∈ ids (managers e).

(** The first identifier of [order] that is not registered. *)
Definition first_unregistered (order : list string) (e : Engine)
    : option string :=
  head (filter (λ id, id ∉ ids (managers e)) order).

(** The managers [ms] can be registered one after the other on top of
    the identifiers [base]: each one is new and finds its dependencies
    among those before it. *)
Fixpoint buildable (base : list string) (ms : list Manager) : Prop :=
  match ms with
  | [] => True
  | m :: ms' =>
      (manager.GetID m ∉ base)
      ∧ (∀ dep, dep ∈ manager.GetDependencies m → dep ∈ base)
      ∧ buildable (base ++ [manager.GetID m]) ms'
  end.

(** A caller that adds the managers one at a time and gives up at the
    first error. *)
Fixpoint add_each (ms : list Manager) (e : Engine) : Engine * option error :=
  match ms with
  | [] => (e, None)
  | m :: ms' =>
      match AddManager m e with
      | (e1, None) => add_each ms' e1
      | (e1, Some err) => (e1, Some err)
      end
  end.

End engine_terms.
End engine_terms.

(* ===================================================================== *)
(** * Package [options]: functional options                               *)
(* ===================================================================== *)

Module options.

Section options.
Context {T : Type}.

(** [type Option[T any]]: a function that takes a pointer to a [T], may
    write to the value behind it and returns an error; the value it
    leaves behind is returned next to the error. *)
Definition Option : Type := T → T * option error.

(** The loop of [ApplyOptions]. *)
Fixpoint apply_each (opts : list Option) (value : T) : T * option error :=
  match opts with
  | [] => (value, None)
  | opt :: opts' =>
      match opt value with
      | (v1, Some err) => (v1, Some (Errorf_w "failed to apply option: " err))
      | (v1, None) => apply_each opts' v1
      end
  end.

(** [ApplyOptions].  [validate] is the method [ValidateRequiredFields] of
    [T], or [None] when [T] does not implement [RequiredFields]. *)
Definition ApplyOptions (validate : option (T → option error))
    (opts : list Option) (value : T) : T * option error :=
  match apply_each opts value with
  | (v1, Some err) => (v1, Some err)
  | (v1, None) =>
      match validate with
      | Some ValidateRequiredFields =>
          match ValidateRequiredFields v1 with
          | Some err => (v1, Some (Errorf_w "missing required fields: " err))
          | None => (v1, None)
          end
      | None => (v1, None)
      end
  end.

(** [validationFn] has the type of an option. *)
Definition WithValidation (opt : Option) (validationFn : Option) : Option :=
  λ value,
    match opt value with
    | (v1, Some err) => (v1, Some err)
    | (v1, None) => validationFn v1
    end.

(** [WithDefault]: [assign] is the assignment [*field = defaultValue],
    [field] pointing into the value. *)
Definition WithDefault (opt : Option) (assign : T → T) : Option :=
  λ value,
    match opt value with
    | (v1, Some _) => (assign v1, None)
    | (v1, None) => (v1, None)
    end.

(** ** Vocabulary *)

(** The value after the options [opts] when each of them succeeds. *)
Definition all_applied (opts : list Option) (value v1 : T) : Prop :=
  apply_each opts value = (v1, None).

(** The error of the validation step on the value [v1]. *)
Definition validation_error (validate : option (T → option error)) (v1 : T)
    : option error :=
  match validate with
  | Some ValidateRequiredFields =>
      Errorf_w "missing required fields: " <$> ValidateRequiredFields v1
  | None => None
  end.

End options.

Arguments Option : clear implicits.

End options.

(* ===================================================================== *)
(** * Package [manager]: the base manager                                 *)
(* ===================================================================== *)

Module base_manager.
Import cache.

Section base_manager.
(** [V]: the values a cache holds; [Handler]: [EventCallbackFunc];
    [EventData]: the argument of a handler. *)
Context {V Handler EventData : Type}.

(** Modelled from its uses: the struct [BaseManager] is declared in a
    file of package [manager] that is not among the sources; these are
    the fields [options.go] and [manager.go] read and write.  The
    pointer-valued fields are addresses, [None] being [nil]. *)
Record BaseManager : Type := mkBaseManager {
  Ctx : option nat;
  FragmentStore : option nat;
  ActorStore : option nat;
  SessionStore : option nat;
  LLM : option nat;
  Logger : option nat;
  InteractionFragmentStore : option nat;
  AssistantName : string;
  AssistantID : id.ID;
  Cache : option nat;
  eventHandler : option Handler
}.

Definition ValidateRequiredFields (m : BaseManager) : option error :=
  if Ctx m is None then Some (Errorf "context is required")
  else if FragmentStore m is None then Some (Errorf "fragment store is required")
  else if ActorStore m is None then Some (Errorf "actor store is required")
  else if SessionStore m is None then Some (Errorf "session store is required")
  else if LLM m is None then Some (Errorf "LLM is required")
  else if Logger m is None then Some (Errorf "logger is required")
  else if InteractionFragmentStore m is None
  then Some (Errorf "interaction fragment store is required")
  else if decide (AssistantName m = ""%string)
  then Some (Errorf "assistant name is required")
  else if decide (AssistantID m = ""%string)
  then Some (Errorf "assistant ID is required")
  else None.

Definition WithContext (ctx : option nat) : options.Option BaseManager :=
  λ m, ({| Ctx := ctx; FragmentStore := FragmentStore m;
           ActorStore := ActorStore m; SessionStore := SessionStore m;
           LLM := LLM m; Logger := Logger m;
           InteractionFragmentStore := InteractionFragmentStore m;
           AssistantName := AssistantName m; AssistantID := AssistantID m;
           Cache := Cache m; eventHandler := eventHandler m |}, None).

Definition WithAssistantDetails (assistantName : string) (assistantID : id.ID)
    : options.Option BaseManager :=
  λ m, ({| Ctx := Ctx m; FragmentStore := FragmentStore m;
           ActorStore := ActorStore m; SessionStore := SessionStore m;
           LLM := LLM m; Logger := Logger m;
           InteractionFragmentStore := InteractionFragmentStore m;
           AssistantName := assistantName; AssistantID := assistantID;
           Cache := Cache m; eventHandler := eventHandler m |}, None).

Definition WithFragmentStore (store : option nat)
    : options.Option BaseManager :=
  λ m, ({| Ctx := Ctx m; FragmentStore := store;
           ActorStore := ActorStore m; SessionStore := SessionStore m;
           LLM := LLM m; Logger := Logger m;
           InteractionFragmentStore := InteractionFragmentStore m;
           AssistantName := AssistantName m; AssistantID := AssistantID m;
           Cache := Cache m; eventHandler := eventHandler m |}, None).

Definition WithSessionStore (store : option nat)
    : options.Option BaseManager :=
  λ m, ({| Ctx := Ctx m; FragmentStore := FragmentStore m;
           ActorStore := ActorStore m; SessionStore := store;
           LLM := LLM m; Logger := Logger m;
           InteractionFragmentStore := InteractionFragmentStore m;
           AssistantName := AssistantName m; AssistantID := AssistantID m;
           Cache := Cache m; eventHandler := eventHandler m |}, None).

Definition WithActorStore (store : option nat)
    : options.Option BaseManager :=
  λ m, ({| Ctx := Ctx m; FragmentStore := FragmentStore m;
           ActorStore := store; SessionStore := SessionStore m;
           LLM := LLM m; Logger := Logger m;
           InteractionFragmentStore := InteractionFragmentStore m;
           AssistantName := AssistantName m; AssistantID := AssistantID m;
           Cache := Cache m; eventHandler := eventHandler m |}, None).

Definition WithLogger (logger : option nat) : options.Option BaseManager :=
  λ m, ({| Ctx := Ctx m; FragmentStore := FragmentStore m;
           ActorStore := ActorStore m; SessionStore := SessionStore m;
           LLM := LLM m; Logger := logger;
           InteractionFragmentStore := InteractionFragmentStore m;
           AssistantName := AssistantName m; AssistantID := AssistantID m;
           Cache := Cache m; eventHandler := eventHandler m |}, None).

Definition WithLLM (llm : option nat) : options.Option BaseManager :=
  λ m, ({| Ctx := Ctx m; FragmentStore := FragmentStore m;
           ActorStore := ActorStore m; SessionStore := SessionStore m;
           LLM := llm; Logger := Logger m;
           InteractionFragmentStore := InteractionFragmentStore m;
           AssistantName := AssistantName m; AssistantID := AssistantID m;
           Cache := Cache m; eventHandler := eventHandler m |}, None).

Definition WithInteractionFragmentStore (store : option nat)
    : options.Option BaseManager :=
  λ m, ({| Ctx := Ctx m; FragmentStore := FragmentStore m;
           ActorStore := ActorStore m; SessionStore := SessionStore m;
           LLM := LLM m; Logger := Logger m;
           InteractionFragmentStore := store;
           AssistantName := AssistantName m; AssistantID := AssistantID m;
           Cache := Cache m; eventHandler := eventHandler m |}, None).

(** [time.Minute], in nanoseconds. *)
Definition Minute : Duration := 60 * 1000000000.

(** The configuration of the cache of a base manager. *)
Definition cache_config : Config :=
  {| MaxSize := 1000; TTL := 15 * Minute; CleanupPeriod := 30 * Minute |}.

(** The composite literal of [NewBaseManager]: every field but [Cache]
    has its zero value. *)
Definition blank (p : nat) : BaseManager :=
  {| Ctx := None; FragmentStore := None; ActorStore := None;
     SessionStore := None; LLM := None; Logger := None;
     InteractionFragmentStore := None; AssistantName := "";
     AssistantID := ""; Cache := Some p; eventHandler := None |}.

(** [NewBaseManager], on the world of the cache instances.  The outer
    [None] is the panic of [cache.New]; the manager returned is [None]
    ([nil]) with an error. *)
Definition NewBaseManager (opts : list (options.Option BaseManager))
    (w : World V) : option (option BaseManager * option error * World V) :=
  '(p, w1) ← New cache_config w;
  Some
    match options.ApplyOptions (Some ValidateRequiredFields) opts (blank p) with
    | (_, Some err) =>
        (None, Some (Errorf_w "failed to create base manager: " err), w1)
    | (bm, None) => (Some bm, None, w1)
    end.

Definition RegisterEventHandler (callback : Handler) (bm : BaseManager)
    : BaseManager :=
  {| Ctx := Ctx bm; FragmentStore := FragmentStore bm;
     ActorStore := ActorStore bm; SessionStore := SessionStore bm;
     LLM := LLM bm; Logger := Logger bm;
     InteractionFragmentStore := InteractionFragmentStore bm;
     AssistantName := AssistantName bm; AssistantID := AssistantID bm;
     Cache := Cache bm; eventHandler := Some callback |}.

(** [triggerEvent]: the handler that is called with [eventData], or
    [None] for the panic without handler. *)
Definition triggerEvent (eventData : EventData) (bm : BaseManager)
    : option (Handler * EventData) :=
  match eventHandler bm with
  | Some handler => Some (handler, eventData)
  | None => None
  end.

(** ** Vocabulary *)

(** The options of [options.go], by name. *)
Inductive Setter : Type :=
  | SetContext (ctx : option nat)
  | SetAssistantDetails (assistantName : string) (assistantID : id.ID)
  | SetFragmentStore (store : option nat)
  | SetSessionStore (store : option nat)
  | SetActorStore (store : option nat)
  | SetLogger (logger : option nat)
  | SetLLM (llm : option nat)
  | SetInteractionFragmentStore (store : option nat).

Definition option_of (s : Setter) : options.Option BaseManager :=
  match s with
  | SetContext ctx => WithContext ctx
  | SetAssistantDetails assistantName assistantID =>
      WithAssistantDetails assistantName assistantID
  | SetFragmentStore store => WithFragmentStore store
  | SetSessionStore store => WithSessionStore store
  | SetActorStore store => WithActorStore store
  | SetLogger logger => WithLogger logger
  | SetLLM llm => WithLLM llm
  | SetInteractionFragmentStore store => WithInteractionFragmentStore store
  end.

(** All the fields [ValidateRequiredFields] asks for are set. *)
Definition complete (m : BaseManager) : Prop :=
  is_Some (Ctx m) ∧ is_Some (FragmentStore m) ∧ is_Some (ActorStore m)
  ∧ is_Some (SessionStore m) ∧ is_Some (LLM m) ∧ is_Some (Logger m)
  ∧ is_Some (InteractionFragmentStore m)
  ∧ AssistantName m ≠ ""%string ∧ AssistantID m ≠ ""%string.

End base_manager.

Arguments BaseManager : clear implicits.
Arguments Setter : clear implicits.

End base_manager.

(* ===================================================================== *)
(** * Package [engine]: generating a response                             *)
(* ===================================================================== *)

Module generation.
Import engine.

Section generation.
(** [Emb]: the embedding [EmbedText] returns, a slice of [float32]. *)
Context {V Vec Tool W Emb : Type}.

#[local] Abbreviation Fragment := (db.Fragment.t V Vec).
#[local] Abbreviation Engine := (engine.Engine V Vec Tool W).

(** [type ModelType string] and the constant [GenerateResponse] uses. *)
Definition ModelTypeDefault : string := "default".

(** [Temperature] holds the decimal literal of the source as a
    fraction. *)
Record CompletionRequest : Type := mkCompletionRequest {
  Messages : list llm.Message;
  Tools : list Tool;
  ModelType : string;
  Temperature : QArith_base.Q
}.

(** The client behind [e.llmClient], of which [GenerateResponse] calls
    two methods; each returns its result or an error and may change the
    world. *)
Record LLMClient : Type := mkLLMClient {
  GenerateCompletion : CompletionRequest → W → W * (llm.Message + error);
  EmbedText : string → W → W * (Emb + error)
}.

(** [fmt.Errorf(prefix + "%v", err)]: the text of [err] is appended to
    the prefix and [err] itself is dropped. *)
Definition Errorf_v (prefix : string) (err : error) : error :=
  Errorf (prefix +:+ Error err).

(** [Engine.GenerateResponse].  The engine of the claims leaves out the
    field [llmClient]: the client is an argument here, as are the
    conversion [pgvector.NewVector], the identifier [id.New()] returns
    and the two readings of [time.Now()]. *)
Definition GenerateResponse (client : LLMClient) (NewVector : Emb → Vec)
    (e : Engine) (messages : list llm.Message) (sessionID : id.ID)
    (tools : list Tool) (newID : id.ID) (now1 now2 : Z) (w : W)
    : W * (Fragment + error) :=
  match GenerateCompletion client
          {| Messages := messages; ModelType := ModelTypeDefault;
             Temperature := QArith_base.Qmake 7 10; Tools := tools |} w with
  | (w1, inr err) => (w1, inr (Errorf_v "failed to generate completion: " err))
  | (w1, inl response) =>
      match EmbedText client (llm.Content response) w1 with
      | (w2, inr err) =>
          (w2, inr (Errorf_v "failed to create embedding for response: " err))
      | (w2, inl embedding) =>
          (w2, inl {| db.Fragment.ID := newID;
                      db.Fragment.ActorID := ID e;
                      db.Fragment.SessionID := sessionID;
                      db.Fragment.Content := llm.Content response;
                      db.Fragment.Metadata := None;
                      db.Fragment.Embedding := NewVector embedding;
                      db.Fragment.Actor := None;
                      db.Fragment.Session := None;
                      db.Fragment.CreatedAt := now1;
                      db.Fragment.UpdatedAt := now2;
                      db.Fragment.DeletedAt := None |})
      end
  end.

End generation.

Arguments CompletionRequest : clear implicits.
Arguments LLMClient : clear implicits.

End generation.

(* ===================================================================== *)
(** * Package [llm]: the OpenAI provider                                  *)
(* ===================================================================== *)

(** The parts of the library [go-openai] that the provider uses. *)
Module openai.

Section openai.
(** [P]: the parameters of a function schema; [W]: the world the API
    lives in; [Emb]: an embedding, a slice of [float32]. *)
Context {P W Emb : Type}.

Record FunctionDefinition : Type := mkFunctionDefinition {
  fd_Name : string;
  fd_Description : string;
  fd_Parameters : P
}.

Record FunctionCall : Type := mkFunctionCall {
  fc_Name : string;
  fc_Arguments : string
}.

Record ChatCompletionMessage : Type := mkChatCompletionMessage {
  cm_Role : string;
  cm_Content : string;
  cm_Name : string;
  cm_FunctionCall : option FunctionCall
}.

Record ChatCompletionRequest : Type := mkChatCompletionRequest {
  Model : string;
  Messages : list ChatCompletionMessage;
  Temperature : QArith_base.Q;
  Functions : list FunctionDefinition
}.

Record EmbeddingRequest : Type := mkEmbeddingRequest {
  Input : list string;
  emb_Model : string
}.

(** The client.  A chat completion answers with its choices, given here
    by their messages; an embedding request answers with its data, given
    here by the embeddings. *)
Record Client : Type := mkClient {
  CreateChatCompletion :
    ChatCompletionRequest → W → W * (list ChatCompletionMessage + error);
  CreateEmbeddings : EmbeddingRequest → W → W * (list Emb + error)
}.

(** The string constants of the library that the provider names. *)
Record Constants : Type := mkConstants {
  GPT4oMini : string;
  GPT4o : string;
  ChatMessageRoleSystem : string;
  ChatMessageRoleUser : string;
  ChatMessageRoleAssistant : string;
  ChatMessageRoleTool : string;
  AdaEmbeddingV2 : string
}.

End openai.

Arguments FunctionDefinition : clear implicits.
Arguments ChatCompletionRequest : clear implicits.
Arguments Client : clear implicits.

End openai.

Module provider.
Import generation.

Section provider.
Context {Tool P W Emb : Type}.

(** The methods of the interface [toolkit.Tool] that the provider calls;
    [GetParameters] is the field [Parameters] of [GetSchema()]. *)
Record ToolOps : Type := mkToolOps {
  GetName : Tool → string;
  GetDescription : Tool → string;
  GetParameters : Tool → P;
  Execute : Tool → string → W → W * (string + error)
}.

Definition ModelTypeFast : string := "fast".
Definition ModelTypeAdvanced : string := "advanced".

(** The fields of [Config] that [NewOpenAIProvider] reads, but the
    logger. *)
Record Config : Type := mkConfig {
  APIKey : string;
  ModelConfig : option (gmap string string)
}.

Record OpenAIProvider : Type := mkOpenAIProvider {
  client : openai.Client P W Emb;
  models : gmap string string;
  roles : gmap string string
}.

Definition NewOpenAIProvider (K : openai.Constants)
    (NewClient : string → openai.Client P W Emb) (config : Config)
    : OpenAIProvider :=
  let models :=
    match ModelConfig config with
    | Some models => models
    | None =>
        <[ModelTypeAdvanced := openai.GPT4o K]>
        (<[ModelTypeDefault := openai.GPT4oMini K]>
        (<[ModelTypeFast := openai.GPT4oMini K]> ∅))
    end in
  {| client := NewClient (APIKey config);
     models := models;
     roles :=
       <[llm.RoleTool := openai.ChatMessageRoleTool K]>
       (<[llm.RoleAssistant := openai.ChatMessageRoleAssistant K]>
       (<[llm.RoleUser := openai.ChatMessageRoleUser K]>
       (<[llm.RoleSystem := openai.ChatMessageRoleSystem K]> ∅))) |}.

(** A map read without the comma-ok form gives the zero value, the empty
    string, for a key that is absent. *)
Definition getModel (p : OpenAIProvider) (modelType : string) : string :=
  match models p !! modelType with
  | Some model => model
  | None => default ""%string (models p !! ModelTypeDefault)
  end.

Definition mapRole (p : OpenAIProvider) (role : string) : string :=
  match roles p !! role with
  | Some mappedRole => mappedRole
  | None => role
  end.

Definition convertMessages (p : OpenAIProvider) (messages : list llm.Message)
    : list openai.ChatCompletionMessage :=
  (λ msg,
     {| openai.cm_Role := mapRole p (llm.Role msg);
        openai.cm_Content := llm.Content msg;
        openai.cm_Name := llm.Name msg;
        openai.cm_FunctionCall :=
          match llm.ToolCall msg with
          | Some tc =>
              Some {| openai.fc_Name := llm.tc_Name tc;
                      openai.fc_Arguments := llm.tc_Arguments tc |}
          | None => None
          end |}) <$> messages.

(** The loop over [req.Tools] that looks for the tool of a function
    call: the first tool of that name. *)
Fixpoint find_tool (T : ToolOps) (name : string) (tools : list Tool)
    : option Tool :=
  match tools with
  | [] => None
  | tool :: tools' =>
      if decide (GetName T tool = name) then Some tool
      else find_tool T name tools'
  end.

(** The request of the follow-up completion after a tool call. *)
Definition followUpReq (T : ToolOps) (req : CompletionRequest Tool)
    (call : openai.FunctionCall) (tool : Tool) (result : string)
    : CompletionRequest Tool :=
  {| Messages :=
       Messages req ++
       [{| llm.Role := llm.RoleAssistant; llm.Content := "";
           llm.Name := "";
           llm.ToolCall :=
             Some {| llm.tc_Name := openai.fc_Name call;
                     llm.tc_Arguments := openai.fc_Arguments call |} |};
        {| llm.Role := llm.RoleTool; llm.Content := result;
           llm.Name := GetName T tool; llm.ToolCall := None |}];
     ModelType := ModelType req;
     Temperature := Temperature req;
     Tools := Tools req |}.

(** The request [GenerateCompletion] sends for [req]. *)
Definition chat_request (T : ToolOps) (p : OpenAIProvider)
    (req : CompletionRequest Tool)
    : openai.ChatCompletionRequest P :=
  {| openai.Model := getModel p (ModelType req);
     openai.Messages := convertMessages p (Messages req);
     openai.Temperature := Temperature req;
     openai.Functions :=
       (λ tool, {| openai.fd_Name := GetName T tool;
                   openai.fd_Description := GetDescription T tool;
                   openai.fd_Parameters := GetParameters T tool |})
         <$> Tools req |}.

(** [GenerateCompletion] calls itself after each tool call, without a
    bound; [fuel] bounds the depth of these calls, and [None] is a run
    that needs more. *)
Fixpoint GenerateCompletion (fuel : nat) (T : ToolOps) (p : OpenAIProvider)
    (req : CompletionRequest Tool) (w : W)
    : option (W * (llm.Message + error)) :=
  match fuel with
  | O => None
  | S fuel' =>
      match openai.CreateChatCompletion (client p) (chat_request T p req) w with
      | (w1, inr err) => Some (w1, inr (Errorf_w "OpenAI API error: " err))
      | (w1, inl []) => Some (w1, inr (Errorf "no completion returned"))
      | (w1, inl (choice :: _)) =>
          match openai.cm_FunctionCall choice with
          | Some call =>
              match find_tool T (openai.fc_Name call) (Tools req) with
              | Some tool =>
                  match Execute T tool (openai.fc_Arguments call) w1 with
                  | (w2, inr err) =>
                      Some (w2, inr (Errorf_w "tool execution error: " err))
                  | (w2, inl result) =>
                      GenerateCompletion fuel' T p
                        (followUpReq T req call tool result) w2
                  end
              | None =>
                  Some (w1, inr (Errorf ("function " +:+ openai.fc_Name call
                                           +:+ " not found")))
              end
          | None =>
              Some (w1, inl {| llm.Role := llm.RoleAssistant;
                               llm.Content := openai.cm_Content choice;
                               llm.Name := ""; llm.ToolCall := None |})
          end
      end
  end.

Definition EmbedText (K : openai.Constants) (p : OpenAIProvider)
    (text : string) (w : W) : W * (Emb + error) :=
  match openai.CreateEmbeddings (client p)
          {| openai.Input := [text];
             openai.emb_Model := openai.AdaEmbeddingV2 K |} w with
  | (w1, inr err) => (w1, inr (Errorf_w "OpenAI API error: " err))
  | (w1, inl []) => (w1, inr (Errorf "no embedding returned"))
  | (w1, inl (embedding :: _)) => (w1, inl embedding)
  end.

(** ** Vocabulary *)

(** One round of the tool loop: the API answers with a function call,
    the tool of that name is found and runs without error.  The result
    is the follow-up request and the world it is sent in. *)
Definition tool_round (T : ToolOps) (p : OpenAIProvider)
    (req : CompletionRequest Tool) (w : W)
    : option (CompletionRequest Tool * W) :=
  match openai.CreateChatCompletion (client p) (chat_request T p req) w with
  | (w1, inl (choice :: _)) =>
      match openai.cm_FunctionCall choice with
      | Some call =>
          match find_tool T (openai.fc_Name call) (Tools req) with
          | Some tool =>
              match Execute T tool (openai.fc_Arguments call) w1 with
              | (w2, inl result) =>
                  Some (followUpReq T req call tool result, w2)
              | _ => None
              end
          | None => None
          end
      | None => None
      end
  | _ => None
  end.

Fixpoint tool_rounds (n : nat) (T : ToolOps) (p : OpenAIProvider)
    (req : CompletionRequest Tool) (w : W)
    : option (CompletionRequest Tool * W) :=
  match n with
  | O => Some (req, w)
  | S n' =>
      match tool_round T p req w with
      | Some (req1, w1) => tool_rounds n' T p req1 w1
      | None => None
      end
  end.

(** The role the API is given for a role of a message. *)
Definition role_name (K : openai.Constants) (role : string) : string :=
  if decide (role = llm.RoleSystem) then openai.ChatMessageRoleSystem K
  else if decide (role = llm.RoleUser) then openai.ChatMessageRoleUser K
  else if decide (role = llm.RoleAssistant)
  then openai.ChatMessageRoleAssistant K
  else if decide (role = llm.RoleTool) then openai.ChatMessageRoleTool K
  else role.

(** The model the API is asked for. *)
Definition model_name (K : openai.Constants) (config : Config)
    (modelType : string) : string :=
  match ModelConfig config with
  | None =>
      if decide (modelType = ModelTypeAdvanced) then openai.GPT4o K
      else openai.GPT4oMini K
  | Some m => default (default ""%string (m !! ModelTypeDefault)) (m !! modelType)
  end.


End provider.

Arguments ToolOps : clear implicits.
Arguments OpenAIProvider : clear implicits.

End provider.

(* ===================================================================== *)
(** * Sample data for the provider                                        *)
(* ===================================================================== *)

Module provider_samples.
Import generation provider.

(** Tools are given by their names; the world counts the calls of the
    API and of the tools. *)
Definition sample_tools : ToolOps string unit nat :=
  {| GetName := λ tool, tool;
     GetDescription := λ _, ""%string;
     GetParameters := λ _, tt;
     Execute := λ tool _ w, (S w, inl ("result of " +:+ tool)%string) |}.

Definition asks_for (name : string) : openai.ChatCompletionMessage :=
  {| openai.cm_Role := "assistant"; openai.cm_Content := "";
     openai.cm_Name := "";
     openai.cm_FunctionCall :=
       Some {| openai.fc_Name := name; openai.fc_Arguments := "{}" |} |}.

Definition answers (text : string) : openai.ChatCompletionMessage :=
  {| openai.cm_Role := "assistant"; openai.cm_Content := text;
     openai.cm_Name := ""; openai.cm_FunctionCall := None |}.

(** An API that asks for the tool [search] on every call. *)
Definition looping_client : openai.Client unit nat unit :=
  {| openai.CreateChatCompletion := λ _ w, (S w, inl [asks_for "search"]);
     openai.CreateEmbeddings := λ _ w, (S w, inl [tt]) |}.

(** An API that asks for the tool [search] on its first two calls and
    answers on the third. *)
Definition scripted_client : openai.Client unit nat unit :=
  {| openai.CreateChatCompletion := λ _ w,
       if decide (w < 4)%nat then (S w, inl [asks_for "search"])
       else (S w, inl [answers "done"]);
     openai.CreateEmbeddings := λ _ w, (S w, inl [tt]) |}.

Definition sample_constants : openai.Constants :=
  {| openai.GPT4oMini := "gpt-4o-mini"; openai.GPT4o := "gpt-4o";
     openai.ChatMessageRoleSystem := "system";
     openai.ChatMessageRoleUser := "user";
     openai.ChatMessageRoleAssistant := "assistant";
     openai.ChatMessageRoleTool := "tool";
     openai.AdaEmbeddingV2 := "text-embedding-ada-002" |}.

Definition sample_provider (c : openai.Client unit nat unit)
    : OpenAIProvider unit nat unit :=
  NewOpenAIProvider sample_constants (λ _, c)
    {| APIKey := "key"; ModelConfig := None |}.

(** A request of one user message with the tools [lookup] and
    [search]. *)
Definition sample_completion_request : CompletionRequest string :=
  {| Messages := [{| llm.Role := llm.RoleUser; llm.Content := "Hello";
                     llm.Name := "ann"; llm.ToolCall := None |}];
     Tools := ["lookup"; "search"]%string;
     ModelType := ModelTypeDefault;
     Temperature := QArith_base.Qmake 7 10 |}.

End provider_samples.

(* ===================================================================== *)
(** * Sample data for the concrete runs                                   *)
(* ===================================================================== *)

Module samples.
Import state engine.

(** A stand-in for [html/template] on the template texts of the runs:
    the text [{{] does not parse (an action is left open), the action
    [{{.Input.ID}}] parses and fails to execute on a [nil] input, and any
    other text, taken to hold no action, renders as itself.  The error
    texts are shortened. *)
Definition sample_lib : TemplateLib Z unit string :=
  {| Tmpl := string;
     Parse := λ _ text,
       if decide (text = "{{"%string)
       then inr (Errorf "template: section:1: unclosed action")
       else inl text;
     Execute := λ tmpl data,
       if decide (tmpl = "{{.Input.ID}}"%string)
       then match data !! "Input"%string with
            | Some (FragmentValue (Some f)) => inl (db.Fragment.ID f)
            | _ => inr (Errorf "template: section:1:8: nil pointer evaluating *db.Fragment.ID")
            end
       else inl tmpl |}.

(** Managers: the world is a counter of the callbacks run so far, a
    manager of [steady] succeeds in both phases and one of [broken] fails
    in both with the given message. *)
Definition steady (id : string) (deps : list string)
    : manager.Manager Z unit string nat :=
  {| manager.GetID := id; manager.GetDependencies := deps;
     manager.Process := λ s w, (s, S w, None);
     manager.PostProcess := λ s w, (s, S w, None) |}.

Definition broken (id : string) (deps : list string) (msg : string)
    : manager.Manager Z unit string nat :=
  {| manager.GetID := id; manager.GetDependencies := deps;
     manager.Process := λ s w, (s, S w, Some (Errorf msg));
     manager.PostProcess := λ s w, (s, S w, Some (Errorf msg)) |}.

(** An engine over stores that find nothing and fail with [upsert_result]
    (or accept, on [None]) when a fragment is upserted. *)
Definition sample_engine (upsert_result : option error)
    (ms : list (manager.Manager Z unit string nat)) (order : list string)
    : engine.Engine Z unit string nat :=
  {| ID := "thor"; Name := "Thor";
     actorStore := {| stores.actor_GetByID := λ _ _, (None, None) |};
     sessionStore := {| stores.session_GetByID := λ _ _, (None, None) |};
     interactionFragmentStore :=
       {| stores.Upsert := λ _ w, (w, upsert_result) |};
     managers := ms; managerOrder := order |}.

(** A fragment of the actor [u1] in the session [s1]. *)
Definition sample_fragment (content : string) : db.Fragment.t Z unit :=
  {| db.Fragment.ID := "f1"; db.Fragment.ActorID := "u1";
     db.Fragment.SessionID := "s1"; db.Fragment.Content := content;
     db.Fragment.Metadata := None; db.Fragment.Embedding := tt;
     db.Fragment.Actor := None; db.Fragment.Session := None;
     db.Fragment.CreatedAt := 0; db.Fragment.UpdatedAt := 0;
     db.Fragment.DeletedAt := None |}.

(** A request that starts from the input [f]. *)
Definition sample_request (f : option (db.Fragment.t Z unit))
    : engine.Sys Z unit string nat :=
  {| cur := state.set_Input state.NewState f; world := 0%nat; trace := [] |}.

End samples.

(* ===================================================================== *)
(** * The cache: eviction, capacity and statistics                        *)
(* ===================================================================== *)

Module cache_facts.
Import cache.

Section cache_facts.
Context {V : Type}.
Implicit Types (c : Cache V) (g : Globals) (R : RangeOrder V).
Implicit Types (m : gmap string (CacheEntry V)).
Implicit Types (l : list (string * CacheEntry V)).
Implicit Types (kvs rest mid : list (string * V * Time)) (w : World V).
Implicit Types (s first last : string * V * Time).

Lemma clock_expiration_nonzero now d :
  clock_ok now → int64_range d → Add now d ≠ 0.
Proof. unfold clock_ok, int64_range, Add, unix_epoch. lia. Qed.

Lemma IsZero_true t : IsZero t = true ↔ t = 0.
Proof. unfold IsZero. apply bool_decide_eq_true. Qed.

Lemma IsZero_false t : IsZero t = false ↔ t ≠ 0.
Proof. unfold IsZero. apply bool_decide_eq_false. Qed.

Lemma oldest_scan_snoc l kv :
  oldest_scan (l ++ [kv]) = oldest_step (oldest_scan l) kv.
Proof. unfold oldest_scan. by rewrite foldl_app. Qed.

Lemma oldest_scan_spec l :
  l ≠ [] → Forall (λ kv, Expiration kv.2 ≠ 0) l →
  oldest_of l (oldest_scan l).
Proof.
  induction l as [|[k e] l IH] using rev_ind; intros Hne Hnz; [done|].
  apply Forall_app in Hnz as [Hl Hkv]. rewrite Forall_singleton in Hkv.
  rewrite oldest_scan_snoc. unfold oldest_of, oldest_step.
  destruct (decide (l = [])) as [->|Hl'].
  - simpl. split_and!; [done|..].
    + exists e. split; [by apply list_elem_of_singleton|done].
    + intros kv' ->%list_elem_of_singleton. done.
  - destruct (IH Hl' Hl) as (Hz & (e0 & Hin & He0) & Hmin).
    destruct (oldest_scan l) as [k0 t0]. cbn [fst snd] in *.
    apply IsZero_false in Hz as Hz'. rewrite Hz'. simpl.
    unfold Before. case_bool_decide as Hlt; simpl.
    + split_and!; [done|..].
      * exists e. split; [|done].
        apply elem_of_app; right. by apply list_elem_of_singleton.
      * intros kv' [Hin'| ->%list_elem_of_singleton]%elem_of_app; [|done].
        specialize (Hmin _ Hin'). simpl. lia.
    + split_and!; [done|..].
      * exists e0. split; [by apply elem_of_app; left|done].
      * intros kv' [Hin'| ->%list_elem_of_singleton]%elem_of_app;
          [by apply Hmin|simpl; lia].
Qed.

Lemma range_elem R m k e : (k, e) ∈ R m ↔ m !! k = Some e.
Proof. rewrite (range_of_perm R m). apply elem_of_map_to_list. Qed.

Lemma range_empty R m : R m = [] ↔ m = ∅.
Proof.
  rewrite <-map_to_list_empty_iff. split; intros H.
  - apply Permutation_nil_r. by rewrite <-(range_of_perm R m), H.
  - apply Permutation_nil_r. by rewrite (range_of_perm R m), H.
Qed.

Lemma range_stamped R m :
  stamped m → Forall (λ kv, Expiration kv.2 ≠ 0) (R m).
Proof.
  intros Hm. apply Forall_forall. intros [k e] Hin%range_elem.
  by eapply Hm.
Qed.

Lemma evictOldest_empty R c g : items c = ∅ → evictOldest R c g = (c, g).
Proof.
  intros Hc. unfold evictOldest.
  by replace (R (items c)) with (@nil (string * CacheEntry V))
    by (symmetry; by apply range_empty).
Qed.

(** On a cache that holds entries, [evictOldest] removes one of them, of
    least expiration, and counts it. *)
Lemma evictOldest_nonempty R c g :
  items c ≠ ∅ → stamped (items c) →
  ∃ k e, items c !! k = Some e
         ∧ (∀ k' e', items c !! k' = Some e' → Expiration e ≤ Expiration e')
         ∧ evictOldest R c g
           = (with_items c (delete k (items c)), add_evicted g).
Proof.
  intros Hne Hst. unfold evictOldest.
  assert (R (items c) ≠ []) as HR by (by rewrite range_empty).
  destruct (oldest_scan_spec _ HR (range_stamped R _ Hst))
    as (Hz & (e & Hin & He) & Hmin).
  destruct (oldest_scan (R (items c))) as [k t]. cbn [fst snd] in *.
  apply IsZero_false in Hz as ->. simpl.
  exists k, e. split_and!; [by apply range_elem in Hin| |done].
  intros k' e' Hk'. rewrite He.
  apply (Hmin (k', e')). by apply range_elem.
Qed.

Lemma Set_below R key value now c g :
  len (items c) < maxSize c →
  Set_ R key value now c g
  = (with_items c
       (<[key := {| Value := value; Expiration := Add now (ttl c) |}]>
          (items c)), g).
Proof.
  intros Hlt. unfold Set_. by rewrite bool_decide_eq_false_2 by lia.
Qed.

(** [Set] on a cache that is at capacity and holds entries. *)
Lemma Set_at_capacity R key value now c g :
  maxSize c ≤ len (items c) → items c ≠ ∅ → stamped (items c) →
  ∃ k e, items c !! k = Some e
         ∧ (∀ k' e', items c !! k' = Some e' → Expiration e ≤ Expiration e')
         ∧ Set_ R key value now c g
           = (with_items c
                (<[key := {| Value := value; Expiration := Add now (ttl c) |}]>
                   (delete k (items c))),
              add_evicted g).
Proof.
  intros Hcap Hne Hst. unfold Set_. rewrite bool_decide_eq_true_2 by done.
  destruct (evictOldest_nonempty R c g Hne Hst) as (k & e & Hk & Hmin & ->).
  by exists k, e.
Qed.

Lemma len_nonneg m : 0 ≤ len m.
Proof. unfold len. lia. Qed.

Lemma len_empty_iff m : len m = 0 ↔ m = ∅.
Proof. unfold len. rewrite <-map_size_empty_iff. lia. Qed.

Lemma len_insert_le k e m : len (<[k := e]> m) ≤ len m + 1.
Proof. unfold len. rewrite map_size_insert. destruct (m !! k); simpl; lia. Qed.

Lemma len_delete_Some k e m : m !! k = Some e → len (delete k m) = len m - 1.
Proof.
  intros Hk. unfold len. rewrite map_size_delete, Hk.
  assert (size m ≠ 0%nat); [|lia].
  apply map_size_non_empty_iff. intros ->. by rewrite lookup_empty in Hk.
Qed.

Lemma len_delete_le k m : len (delete k m) ≤ len m.
Proof. unfold len. rewrite map_size_delete. destruct (m !! k); simpl; lia. Qed.

Lemma stamped_insert k e m :
  Expiration e ≠ 0 → stamped m → stamped (<[k := e]> m).
Proof.
  intros He Hm k' e'. rewrite lookup_insert. case_decide.
  - by intros [= <-].
  - apply Hm.
Qed.

Lemma stamped_delete k m : stamped m → stamped (delete k m).
Proof.
  intros Hm k' e' Hk'. apply lookup_delete_Some in Hk' as [_ Hk'].
  by eapply Hm.
Qed.

Lemma stamped_empty : stamped (∅ : gmap string (CacheEntry V)).
Proof. intros k e. by rewrite lookup_empty. Qed.

(** ** The capacity invariant *)

Lemma sweep_subseteq now l m g :
  (foldl (sweep_step now) (m, g) l).1 ⊆ m.
Proof.
  revert m g. induction l as [|kv l IH]; intros m g; [done|].
  simpl. unfold sweep_step at 2. simpl. case_match.
  - etrans; [apply IH|]. apply delete_subseteq.
  - apply IH.
Qed.

Lemma len_subseteq m1 m2 : m1 ⊆ m2 → len m1 ≤ len m2.
Proof. intros H%map_subseteq_size. unfold len. lia. Qed.

Lemma stamped_subseteq m1 m2 : m1 ⊆ m2 → stamped m2 → stamped m1.
Proof. intros Hsub Hm k e Hk. eapply Hm, lookup_weaken; done. Qed.

Lemma Set_sound R key value now c g :
  clock_ok now → sound c → sound (Set_ R key value now c g).1.
Proof.
  intros Hnow (Hmax & Httl & Hb & Hst). unfold sound, bounded in *.
  pose proof (clock_expiration_nonzero now (ttl c) Hnow Httl) as Hnz.
  destruct (decide (maxSize c ≤ len (items c))) as [Hcap|Hlt].
  - assert (items c ≠ ∅) as Hne.
    { intros Hc%len_empty_iff. lia. }
    destruct (Set_at_capacity R key value now c g Hcap Hne Hst)
      as (k & e & Hk & _ & ->). simpl.
    split_and!; [done..| |].
    + etrans; [apply len_insert_le|].
      rewrite (len_delete_Some _ _ _ Hk). lia.
    + by apply stamped_insert, stamped_delete.
  - rewrite Set_below by lia. simpl.
    split_and!; [done..| |].
    + etrans; [apply len_insert_le|]. lia.
    + by apply stamped_insert.
Qed.

Lemma Set_maxSize R key value now c g :
  maxSize (Set_ R key value now c g).1 = maxSize c.
Proof.
  unfold Set_, evictOldest. case_bool_decide; [|done].
  destruct (oldest_scan _) as [k t]. by destruct (negb (IsZero t)).
Qed.

Lemma method_maxSize R o c g : maxSize (method R o c g).1 = maxSize c.
Proof.
  destruct o; simpl; try done.
  - apply Set_maxSize.
  - unfold cleanup_tick. by destruct (foldl _ _ _).
Qed.

(** Every method keeps a sound cache sound. *)
Lemma method_sound R o c g :
  op_clock_ok o → sound c → sound (method R o c g).1.
Proof.
  intros Hclock Hc. destruct o as [p k v now|p k now|p k|p|p now|p]; simpl.
  - by apply Set_sound.
  - done.
  - destruct Hc as (? & ? & Hb & Hst). unfold sound, bounded in *. simpl.
    split_and!; [done..| |by apply stamped_delete].
    etrans; [apply len_delete_le|done].
  - destruct Hc as (? & ? & Hb & Hst). unfold sound, bounded in *. simpl.
    split_and!; [done..| |apply stamped_empty].
    replace (len ∅) with 0; [lia|]. symmetry. by apply len_empty_iff.
  - destruct Hc as (? & ? & Hb & Hst). unfold sound, bounded, cleanup_tick in *.
    pose proof (sweep_subseteq now (R (items c)) (items c) g) as Hsub.
    destruct (foldl _ _ _) as [m g1]. simpl in *.
    split_and!; [done..| |by eapply stamped_subseteq].
    etrans; [by apply len_subseteq|done].
  - done.
Qed.

Lemma exec_Some R o w :
  is_Some (heap w !! receiver o) → is_Some (exec R o w).
Proof. intros [c Hc]. unfold exec. rewrite Hc. by eexists. Qed.

Lemma exec_allocated R o w w' q :
  exec R o w = Some w' → is_Some (heap w' !! q) ↔ is_Some (heap w !! q).
Proof.
  unfold exec. intros Hex.
  destruct (heap w !! receiver o) as [c|] eqn:Hc; [|done].
  injection Hex as <-. simpl. rewrite lookup_insert. case_decide; [|done].
  subst q. rewrite Hc. split; by eexists.
Qed.

Lemma exec_sound_at R o w w' p n :
  op_clock_ok o → exec R o w = Some w' → sound_at p n w → sound_at p n w'.
Proof.
  unfold exec. intros Hclock Hex (c & Hp & Hn & Hc).
  destruct (heap w !! receiver o) as [c'|] eqn:Hc'; [|done].
  injection Hex as <-. unfold sound_at. simpl.
  destruct (decide (receiver o = p)) as [Heq|Hne].
  - rewrite Heq in *. rewrite lookup_insert_eq. eexists. split; [done|].
    assert (c' = c) as -> by congruence.
    split; [by rewrite method_maxSize|by apply method_sound].
  - rewrite lookup_insert_ne by done. by exists c.
Qed.

Lemma run_sound_at R ops w p n :
  Forall op_clock_ok ops →
  Forall (λ o, is_Some (heap w !! receiver o)) ops →
  sound_at p n w →
  ∃ w', run R ops w = Some w' ∧ sound_at p n w'.
Proof.
  revert w. induction ops as [|o ops IH]; intros w Hclock Halloc Hw.
  { by exists w. }
  apply Forall_cons in Hclock as [Ho Hclock].
  apply Forall_cons in Halloc as [Hro Halloc].
  destruct (exec_Some R o w Hro) as [w1 Hw1]. simpl. rewrite Hw1. simpl.
  apply IH; [done| |by eapply exec_sound_at].
  eapply Forall_impl; [exact Halloc|]. intros o' Ho'. simpl in *.
  by eapply exec_allocated.
Qed.

Lemma New_sound_at config (w : World V) p w0 :
  1 ≤ MaxSize config → int64_range (TTL config) →
  New config w = Some (p, w0) → sound_at p (MaxSize config) w0.
Proof.
  intros Hmax Httl. unfold New. case_bool_decide; [|done].
  intros [= <- <-]. unfold sound_at. simpl. rewrite lookup_insert_eq.
  eexists. split; [done|]. split; [done|].
  unfold sound, bounded. simpl. split_and!; [done..| |apply stamped_empty].
  unfold len. rewrite map_size_empty. lia.
Qed.

(** ** Filling a fresh cache *)

Lemma entry_of_keys d kvs : (entry_of d <$> kvs).*1 = key_of <$> kvs.
Proof. rewrite <-list_fmap_compose. by apply list_fmap_ext. Qed.

Lemma stored_lookup_None d kvs k :
  k ∉ key_of <$> kvs → stored d kvs !! k = None.
Proof.
  intros Hk. apply not_elem_of_list_to_map_1. by rewrite entry_of_keys.
Qed.

Lemma stored_len d kvs :
  NoDup (key_of <$> kvs) → len (stored d kvs) = Z.of_nat (length kvs).
Proof.
  intros Hnd. unfold len, stored.
  rewrite map_size_list_to_map by (by rewrite entry_of_keys).
  by rewrite length_fmap.
Qed.

Lemma stored_snoc d kvs s :
  key_of s ∉ key_of <$> kvs →
  stored d (kvs ++ [s]) = <[key_of s := (entry_of d s).2]> (stored d kvs).
Proof.
  intros Hk. unfold stored. rewrite fmap_app. simpl.
  apply list_to_map_snoc. by rewrite entry_of_keys.
Qed.

Lemma stored_elem d kvs k e :
  stored d kvs !! k = Some e → ∃ s, s ∈ kvs ∧ entry_of d s = (k, e).
Proof.
  intros Hk%elem_of_list_to_map_2.
  apply list_elem_of_fmap in Hk as (s & Heq & Hs). by exists s.
Qed.

(** As long as there is room, every [Set] only adds its entry. *)
Lemma set_all_room R kvs c g :
  items c = ∅ → Z.of_nat (length kvs) ≤ maxSize c →
  NoDup (key_of <$> kvs) →
  set_all R kvs (c, g) = (with_items c (stored (ttl c) kvs), g).
Proof.
  intros Hc. induction kvs as [|s kvs IH] using rev_ind; intros Hlen Hnd.
  { simpl. destruct c; simpl in *. by subst. }
  rewrite length_app in Hlen. simpl in Hlen.
  rewrite fmap_app in Hnd. apply NoDup_app in Hnd as (Hnd & Hs & _).
  unfold set_all in *. rewrite foldl_app. simpl.
  rewrite IH by (done || lia). simpl.
  rewrite Set_below by (simpl; rewrite stored_len by done; lia).
  simpl. rewrite stored_snoc; [done|].
  intros Hin. eapply Hs; [exact Hin|]. by apply list_elem_of_singleton.
Qed.

(** One call more than the capacity: the first key goes, the others stay. *)
Lemma set_all_overflow R first rest c g :
  items c = ∅ → 1 ≤ maxSize c → int64_range (ttl c) →
  Z.of_nat (length rest) = maxSize c →
  NoDup (key_of <$> first :: rest) →
  Forall (λ s, clock_ok (time_of s)) (first :: rest) →
  Forall (λ s, time_of first < time_of s) rest →
  set_all R (first :: rest) (c, g)
  = (with_items c (stored (ttl c) rest), add_evicted g).
Proof.
  intros Hc Hmax Httl Hlen Hnd Hclock Hlater.
  destruct rest as [|last mid _] using rev_ind; [simpl in *; lia|].
  rewrite length_app in Hlen. simpl in Hlen.
  rewrite app_comm_cons in *.
  rewrite fmap_app in Hnd. apply NoDup_app in Hnd as (Hnd & Hlast & _).
  apply Forall_app in Hlater as [Hlater _].
  apply Forall_app in Hclock as [Hclock _].
  unfold set_all. rewrite foldl_app. fold (set_all R (first :: mid) (c, g)).
  rewrite set_all_room by (done || simpl; lia). simpl.
  set (c1 := with_items c (stored (ttl c) (first :: mid))).
  assert (stamped (items c1)) as Hst.
  { intros k e (s & Hs & [= <- <-])%stored_elem. simpl.
    apply clock_expiration_nonzero; [|done].
    by eapply (proj1 (Forall_forall _ _) Hclock). }
  assert (items c1 ≠ ∅) as Hne.
  { intros Hemp. assert (items c1 !! key_of first = None) as Hnone
      by (by rewrite Hemp, lookup_empty).
    simpl in Hnone. unfold stored in Hnone. simpl in Hnone.
    by rewrite lookup_insert_eq in Hnone. }
  assert (maxSize c1 ≤ len (items c1)) as Hcap.
  { simpl. rewrite stored_len by done. simpl. lia. }
  destruct (Set_at_capacity R (key_of last) last.1.2 (time_of last) c1 g
              Hcap Hne Hst) as (k & e & Hk & Hmin & ->).
  assert (k = key_of first) as ->.
  { apply stored_elem in Hk as (s & Hs & Hse).
    apply elem_of_cons in Hs as [->|Hs]; [by injection Hse|].
    exfalso.
    specialize (Hmin (key_of first) (entry_of (ttl c) first).2).
    unfold c1 in Hmin. simpl in Hmin. unfold stored in Hmin. simpl in Hmin.
    rewrite lookup_insert_eq in Hmin. specialize (Hmin eq_refl).
    injection Hse as _ <-. simpl in Hmin.
    pose proof (proj1 (Forall_forall _ _) Hlater s Hs) as Hlt.
    unfold Add in Hmin. simpl in Hlt. lia. }
  f_equal. unfold c1, with_items. simpl. f_equal.
  apply NoDup_cons in Hnd as [Hfirst Hnd]. simpl in Hnd.
  unfold stored at 1. simpl. rewrite delete_insert_eq.
  rewrite delete_id by (by apply stored_lookup_None).
  rewrite stored_snoc; [done|].
  intros Hin. eapply Hlast; [|apply list_elem_of_singleton; done].
  simpl. by apply elem_of_cons; right.
Qed.

Lemma store_store p cg1 cg2 (w : World V) :
  store p cg2 (store p cg1 w) = store p cg2 w.
Proof. unfold store. simpl. by rewrite insert_insert_eq. Qed.

Lemma store_id p c (w : World V) :
  heap w !! p = Some c → store p (c, globals w) w = w.
Proof. intros Hp. destruct w. unfold store. simpl in *. by rewrite insert_id. Qed.

(** A run of [Set]s on one instance, as the calls on the receiver. *)
Lemma run_sets_on R p kvs (w : World V) c :
  heap w !! p = Some c →
  run R (sets_on p kvs) w = Some (store p (set_all R kvs (c, globals w)) w).
Proof.
  revert w c. induction kvs as [|s kvs IH]; intros w c Hp.
  { simpl. by rewrite store_id. }
  simpl. unfold exec. simpl. rewrite Hp. simpl.
  destruct (Set_ R (key_of s) s.1.2 (time_of s) c (globals w)) as [c1 g1] eqn:HS.
  erewrite IH by (unfold store; simpl; apply lookup_insert_eq).
  by rewrite store_store.
Qed.

(** ** The statistics *)

Lemma AddInt64_neq x : AddInt64 x 1 ≠ x.
Proof.
  unfold AddInt64, wrap64. intros H.
  pose proof (Z.mod_pos_bound (x + 1 + 2 ^ 63) (2 ^ 64)) as Hb.
  pose proof (Z.div_mod (x + 1 + 2 ^ 63) (2 ^ 64)) as Hd.
  lia.
Qed.

(** The counters are the package's, not the instance's: whatever the
    world, a [Get] through one pointer changes the statistics that any
    other instance reports. *)
Lemma Get_changes_stats_of_other_instances R w a b key now w' :
  a ≠ b → is_Some (heap w !! b) →
  exec R (OpGet a key now) w = Some w' →
  stats b w' ≠ stats b w.
Proof.
  intros Hab [cb Hb]. unfold exec, stats. simpl.
  destruct (heap w !! a) as [ca|] eqn:Ha; [|done]. simpl.
  intros [= <-]. simpl. rewrite lookup_insert_ne, Hb by done. simpl.
  unfold Get, GetStats.
  destruct (items ca !! key) as [entry|]; [destruct (After _ _)|]; simpl;
    intros [= Heq]; by apply AddInt64_neq in Heq.
Qed.

(** ** The claims on the cache *)

(** C5 (amended).  When [Set] is called on a cache that holds at least one
    entry, whose entry count is at or above its capacity and whose stored
    expirations are clock stamps (none is the zero time), exactly one
    existing entry is removed and counted as evicted before the new entry
    is inserted, and that entry has the earliest expiration.  In
    particular, for a capacity [MaxSize >= 1], inserting [MaxSize + 1]
    distinct keys into a fresh cache, the first one at a clock reading
    earlier than all the others, evicts exactly the first-inserted key:
    the cache ends with the [MaxSize] later entries and the eviction
    counter has advanced by one. *)
Theorem C5_set_evicts_earliest_expiration :
  (∀ R key value now c g,
     maxSize c ≤ len (items c) → items c ≠ ∅ → stamped (items c) →
     ∃ k e, items c !! k = Some e
       ∧ (∀ k' e', items c !! k' = Some e' → Expiration e ≤ Expiration e')
       ∧ Set_ R key value now c g
         = (with_items c
              (<[key := {| Value := value; Expiration := Add now (ttl c) |}]>
                 (delete k (items c))),
            add_evicted g))
  ∧ (∀ R config (w : World V) p w0 first rest,
       New config w = Some (p, w0) →
       1 ≤ MaxSize config → int64_range (TTL config) →
       Z.of_nat (length rest) = MaxSize config →
       NoDup (key_of <$> first :: rest) →
       Forall (λ s, clock_ok (time_of s)) (first :: rest) →
       Forall (λ s, time_of first < time_of s) rest →
       ∃ w' c, run R (sets_on p (first :: rest)) w0 = Some w'
         ∧ heap w' !! p = Some c
         ∧ items c = stored (TTL config) rest
         ∧ items c !! key_of first = None
         ∧ (∀ s, s ∈ rest → is_Some (items c !! key_of s))
         ∧ evicted (globals w') = AddInt64 (evicted (globals w)) 1).
Proof.
  split; [apply Set_at_capacity|].
  intros R config w p w0 first rest HNew Hmax Httl Hlen Hnd Hclock Hlater.
  unfold New in HNew. case_bool_decide; [|done]. injection HNew as <- <-.
  set (p := fresh (dom (heap w))).
  set (c0 := {| items := ∅; maxSize := MaxSize config; ttl := TTL config;
                cancelled := false |}).
  set (w0 := {| globals := globals w; heap := <[p := c0]> (heap w) |}).
  assert (heap w0 !! p = Some c0) as Hp by apply lookup_insert_eq.
  rewrite (run_sets_on R p _ w0 c0 Hp).
  rewrite (set_all_overflow R first rest c0 (globals w0)) by done.
  eexists _, _. split; [done|]. simpl. rewrite lookup_insert_eq.
  split; [done|]. simpl. split; [done|].
  apply NoDup_cons in Hnd as [Hfirst Hnd].
  split_and!; [by apply stored_lookup_None| |done].
  intros s Hs. unfold stored.
  destruct (entry_of (TTL config) s) as [k e] eqn:He.
  replace (key_of s) with k by (by injection He).
  exists e. apply elem_of_list_to_map_1; [by rewrite entry_of_keys|].
  apply list_elem_of_fmap. by exists s.
Qed.

(** C10.  For every cache created with [MaxSize >= 1] (and a TTL that is
    a [time.Duration]), the number of stored entries stays at most
    [MaxSize] under every run of operations ([Set], [Get], [Delete],
    [Clear], sweeps and [Close], on this or on any other instance, at
    readings of a clock that does not run before the Unix epoch): [Set]
    removes one entry before inserting whenever the count is at capacity,
    and [Delete] and [Clear] only remove entries.  The bound on [MaxSize]
    is needed: with [MaxSize = 0] a single [Set] leaves one entry
    stored. *)
Theorem C10_entry_count_bounded :
  (∀ R config (w : World V) p w0 ops,
     1 ≤ MaxSize config → int64_range (TTL config) →
     New config w = Some (p, w0) →
     Forall op_clock_ok ops →
     Forall (λ o, is_Some (heap w0 !! receiver o)) ops →
     ∃ w' c, run R ops w0 = Some w' ∧ heap w' !! p = Some c
             ∧ maxSize c = MaxSize config
             ∧ len (items c) ≤ MaxSize config)
  ∧ (∀ R key value now c g,
       sound c → maxSize c ≤ len (items c) →
       ∃ k, is_Some (items c !! k)
            ∧ items (Set_ R key value now c g).1
              = <[key := {| Value := value; Expiration := Add now (ttl c) |}]>
                  (delete k (items c)))
  ∧ (∀ key c,
       items (Delete key c) ⊆ items c ∧ maxSize (Delete key c) = maxSize c
       ∧ items (Clear c) = ∅ ∧ maxSize (Clear c) = maxSize c)
  ∧ (∀ R d period (w : World V) p w0 key value now,
       New {| MaxSize := 0; TTL := d; CleanupPeriod := period |} w
       = Some (p, w0) →
       ∃ w' c, run R [OpSet p key value now] w0 = Some w'
               ∧ heap w' !! p = Some c
               ∧ maxSize c = 0 ∧ len (items c) = 1).
Proof.
  split_and!.
  - intros R config w p w0 ops Hmax Httl HNew Hclock Halloc.
    pose proof (New_sound_at _ _ _ _ Hmax Httl HNew) as Hw0.
    destruct (run_sound_at R ops w0 p _ Hclock Halloc Hw0)
      as (w' & Hrun & c & Hp & Hn & _ & _ & Hb & _).
    exists w', c. unfold bounded in Hb. split_and!; [done..|lia].
  - intros R key value now c g (Hmax & _ & _ & Hst) Hcap.
    assert (items c ≠ ∅) as Hne.
    { intros Hc%len_empty_iff. lia. }
    destruct (Set_at_capacity R key value now c g Hcap Hne Hst)
      as (k & e & Hk & _ & ->).
    exists k. split; [by exists e|done].
  - intros key c. simpl. split_and!; [apply delete_subseteq|done..].
  - intros R d period w p w0 key value now HNew.
    unfold New in HNew. case_bool_decide; [|done]. injection HNew as <- <-.
    simpl. unfold exec. simpl. rewrite lookup_insert_eq. simpl.
    eexists _, _. split; [done|]. simpl. rewrite lookup_insert_eq.
    split; [done|].
    unfold Set_. simpl. rewrite bool_decide_eq_true_2 by (unfold len; lia).
    rewrite evictOldest_empty by done. simpl. split; [done|].
    unfold len. by rewrite map_size_insert_None by apply lookup_empty.
Qed.

End cache_facts.

(** ** Concrete runs *)

(** C3: the counters are package-level variables, so they are shared.
    Two instances [a] and [b] are created; [a] sets a key, reads it (a
    hit), reads another key (a miss) and sets a second key, which evicts
    the first.  The statistics of [b], which was never used, report one
    hit, one miss and one eviction. *)
Lemma C3_statistics_shared_between_instances :
  let config := {| MaxSize := 1; TTL := 1000; CleanupPeriod := 1000 |} in
  let t := unix_epoch in
  ∃ a b (w1 w2 w3 : World Z),
    New config init_world = Some (a, w1)
    ∧ New config w1 = Some (b, w2)
    ∧ a ≠ b
    ∧ stats b w2 = Some {| Size := 0; Hits := 0; Misses := 0; Evicted := 0 |}
    ∧ run default_order
        [OpSet a "k1" 10 t; OpGet a "k1" t; OpGet a "k2" t;
         OpSet a "k2" 20 (t + 1)] w2 = Some w3
    ∧ stats b w3 = Some {| Size := 0; Hits := 1; Misses := 1; Evicted := 1 |}.
Proof.
  eexists _, _, _, _, _. split_and!.
  - vm_compute. reflexivity.
  - vm_compute. reflexivity.
  - vm_compute. discriminate.
  - vm_compute. reflexivity.
  - vm_compute. reflexivity.
  - vm_compute. reflexivity.
Qed.

(** C5, as stated, fails on a cache of capacity zero.  The fresh cache is
    at capacity (0 entries, capacity 0) and [Set] evicts nothing: no
    entry is removed, the eviction counter stays at 0, and the first (and
    only) key of the [MaxSize + 1 = 1] keys inserted is still stored. *)
Lemma C5_counterexample_capacity_zero :
  let c0 : Cache Z :=
    {| items := ∅; maxSize := 0; ttl := 1000; cancelled := false |} in
  let g0 := {| hits := 0; misses := 0; evicted := 0 |} in
  let r := Set_ default_order "a" 7 unix_epoch c0 g0 in
  maxSize c0 ≤ len (items c0)
  ∧ (¬ ∃ k, is_Some (items c0 !! k))
  ∧ evicted r.2 = evicted g0
  ∧ len (items r.1) = 1
  ∧ is_Some (items r.1 !! "a"%string).
Proof.
  split_and!.
  - vm_compute. discriminate.
  - intros [k [e Hk]]. simpl in Hk. by rewrite lookup_empty in Hk.
  - vm_compute. reflexivity.
  - vm_compute. reflexivity.
  - vm_compute. by eexists.
Qed.

(** A [Set] on a full cache of one entry, and three keys set on a fresh
    cache of capacity two. *)
Lemma C5_witness :
  let c1 : Cache Z :=
    {| items := {[ "a"%string := {| Value := 1; Expiration := 5 |} ]};
       maxSize := 1; ttl := 1000; cancelled := false |} in
  let g0 := {| hits := 0; misses := 0; evicted := 0 |} in
  let config := {| MaxSize := 2; TTL := 1000; CleanupPeriod := 1000 |} in
  let t := unix_epoch in
  (∃ k e, items c1 !! k = Some e
     ∧ (∀ k' e', items c1 !! k' = Some e' → Expiration e ≤ Expiration e')
     ∧ Set_ default_order "b" 2 t c1 g0
       = (with_items c1
            (<["b"%string := {| Value := 2; Expiration := Add t (ttl c1) |}]>
               (delete k (items c1))),
          add_evicted g0))
  ∧ (∃ w' c,
       run default_order
         (sets_on 0 [("a"%string, 1, t); ("b"%string, 2, t + 1);
                     ("c"%string, 3, t + 2)])
         {| globals := g0;
            heap := {[ 0%nat := {| items := ∅; maxSize := 2; ttl := 1000;
                                   cancelled := false |} ]} |}
       = Some w'
       ∧ heap w' !! 0%nat = Some c
       ∧ items c = stored 1000 [("b"%string, 2, t + 1); ("c"%string, 3, t + 2)]
       ∧ items c !! "a"%string = None
       ∧ (∀ s, s ∈ [("b"%string, 2, t + 1); ("c"%string, 3, t + 2)]
              → is_Some (items c !! key_of s))
       ∧ evicted (globals w') = AddInt64 0 1).
Proof.
  intros c1 g0 config t. split.
  - apply (proj1 C5_set_evicts_earliest_expiration default_order).
    + vm_compute. discriminate.
    + vm_compute. discriminate.
    + intros k e Hk. simpl in Hk.
      apply lookup_singleton_Some in Hk as [_ <-]. simpl. lia.
  - apply (proj2 C5_set_evicts_earliest_expiration default_order config
             init_world 0%nat _ ("a"%string, 1, t)
             [("b"%string, 2, t + 1); ("c"%string, 3, t + 2)]).
    + vm_compute. reflexivity.
    + simpl. lia.
    + vm_compute. split; [discriminate|reflexivity].
    + reflexivity.
    + apply (bool_decide_unpack _). vm_compute. exact I.
    + repeat constructor; unfold clock_ok, time_of, t; simpl; lia.
    + repeat constructor; unfold time_of, t; simpl; lia.
Defined.

(** A cache of capacity two that is filled, overfilled, read, swept,
    emptied and closed. *)
Lemma C10_witness :
  let config := {| MaxSize := 2; TTL := 1000; CleanupPeriod := 1000 |} in
  let t := unix_epoch in
  ∃ (w' : World Z) c,
    run default_order
      [OpSet 0 "a" 1 t; OpSet 0 "b" 2 (t + 1); OpGet 0 "a" (t + 2);
       OpSet 0 "c" 3 (t + 3); OpSweep 0 (t + 2000); OpDelete 0 "c";
       OpSet 0 "d" 4 (t + 2001); OpClear 0; OpClose 0]
      {| globals := {| hits := 0; misses := 0; evicted := 0 |};
         heap := {[ 0%nat := {| items := ∅; maxSize := 2; ttl := 1000;
                                cancelled := false |} ]} |}
    = Some w'
    ∧ heap w' !! 0%nat = Some c
    ∧ maxSize c = 2
    ∧ len (items c) ≤ 2.
Proof.
  intros config t.
  apply (proj1 C10_entry_count_bounded default_order config init_world 0%nat).
  - simpl. lia.
  - vm_compute. split; [discriminate|reflexivity].
  - vm_compute. reflexivity.
  - repeat (apply Forall_cons; split); try apply Forall_nil;
      cbn [op_clock_ok]; unfold clock_ok, t; lia.
  - repeat (apply Forall_cons; split); try apply Forall_nil;
      vm_compute; by eexists.
Defined.

End cache_facts.

(* ===================================================================== *)
(** * The shared state and the prompt builder                             *)
(* ===================================================================== *)

Module state_facts.
Import state samples.

Section state_facts.
Context {V Vec Tool : Type}.
Implicit Types (s : State V Vec Tool) (tb : PromptBuilder V).
Implicit Types (L : TemplateLib V Vec Tool) (c : Call V Tool).

(** C8.  [Reset] leaves both data maps empty, so that every lookup in
    either of them finds nothing, and leaves [Input], [Output] and [Actor]
    (and the other exported fields) of the state as they were. *)
Theorem C8_reset_empties_maps_keeps_fields s key :
  managerData (Reset s) = Some ∅
  ∧ customData (Reset s) = Some ∅
  ∧ GetManagerData key (Reset s) = None
  ∧ GetCustomData key (Reset s) = None
  ∧ Input (Reset s) = Input s
  ∧ Output (Reset s) = Output s
  ∧ Actor (Reset s) = Actor s
  ∧ RecentInteractions (Reset s) = RecentInteractions s
  ∧ RelevantInteractions (Reset s) = RelevantInteractions s
  ∧ Tools (Reset s) = Tools s.
Proof.
  unfold GetManagerData, GetCustomData, Reset. simpl.
  split_and!; try done; apply lookup_empty.
Qed.

(** ** The sticky error *)

Lemma WithManagerData_poisoned tb s key e :
  err tb = Some e → WithManagerData key tb s = tb.
Proof. intros He. unfold WithManagerData. by rewrite He. Qed.

Lemma WithManagerDataBatch_poisoned tb s keys e :
  err tb = Some e → WithManagerDataBatch keys tb s = tb.
Proof.
  intros He. destruct keys as [|key keys]; [done|]. simpl.
  rewrite (WithManagerData_poisoned _ _ _ _ He). by rewrite He.
Qed.

Lemma AddSectionWithName_poisoned tb role text name e :
  err tb = Some e → AddSectionWithName role text name tb = tb.
Proof. intros He. unfold AddSectionWithName. by rewrite He. Qed.

(** A call that tests the error leaves a builder that holds one, and the
    state, as they are. *)
Lemma call_poisoned c tb s e :
  err tb = Some e → checks_err c = true → call c tb s = (tb, s).
Proof.
  intros He Hc. destruct c; simpl in *; try done; f_equal.
  - unfold WithHelper. by rewrite He.
  - by eapply AddSectionWithName_poisoned.
  - by eapply AddSectionWithName_poisoned.
  - by eapply AddSectionWithName_poisoned.
  - by eapply AddSectionWithName_poisoned.
  - by eapply AddSectionWithName_poisoned.
  - by eapply WithManagerData_poisoned.
  - by eapply WithManagerDataBatch_poisoned.
Qed.

(** No call changes a builder that holds an error. *)
Lemma call_keeps_poisoned_builder c tb s e :
  err tb = Some e → (call c tb s).1 = tb.
Proof.
  intros He. destruct (checks_err c) eqn:Hc.
  - by rewrite (call_poisoned _ _ _ _ He Hc).
  - by destruct c.
Qed.

(** So does a chain of calls. *)
Lemma call_all_keeps_poisoned_builder cs tb s e :
  err tb = Some e → (call_all cs (tb, s)).1 = tb.
Proof.
  intros He. revert s. unfold call_all.
  induction cs as [|c cs IH]; intros s; [done|]. simpl.
  pose proof (call_keeps_poisoned_builder c tb s e He) as Hc.
  destruct (call c tb s) as [tb' s']. simpl in Hc. subst tb'. apply IH.
Qed.

Lemma call_all_poisoned cs tb s e :
  err tb = Some e → Forall (λ c, checks_err c = true) cs →
  call_all cs (tb, s) = (tb, s).
Proof.
  intros He Hcs. unfold call_all.
  induction Hcs as [|c cs Hc _ IH]; [done|]. simpl.
  by rewrite (call_poisoned c tb s e He Hc).
Qed.

Lemma compose_loop_rendered L tb s secs messages :
  Forall (λ sec, ∃ msg, rendered L tb s sec msg) secs →
  ∃ msgs, compose_loop L tb s secs messages = (messages ++ msgs, None)
          ∧ Forall2 (rendered L tb s) secs msgs.
Proof.
  revert messages.
  induction secs as [|sec secs IH]; intros messages Hall.
  { exists []. by rewrite app_nil_r. }
  apply Forall_cons in Hall as [(msg & tmpl & buf & HP & HE & ->) Hall].
  simpl. rewrite HP, HE.
  destruct (IH (messages ++
                  [{| llm.Role := Role sec; llm.Content := buf;
                      llm.Name := Name sec; llm.ToolCall := None |}]) Hall)
    as (msgs & -> & Hmsgs).
  eexists (_ :: msgs). rewrite <-app_assoc. split; [done|].
  constructor; [|done]. by exists tmpl, buf.
Qed.

(** ** Template failures *)

(** The first section that fails stops the loop with no message: a parse
    failure with an error made of the library's error alone, an execute
    failure with an error that names the role of the section. *)
Lemma compose_loop_failure L tb s pre sec post messages :
  Forall (λ sec', ∃ msg, rendered L tb s sec' msg) pre →
  (∀ e, Parse L (helpers tb) (Template sec) = inr e →
        compose_loop L tb s (pre ++ sec :: post) messages
        = ([], Some (Errorf_w "failed to parse template section: " e)))
  ∧ (∀ tmpl e,
       Parse L (helpers tb) (Template sec) = inl tmpl →
       Execute L tmpl (section_data tb s) = inr e →
       compose_loop L tb s (pre ++ sec :: post) messages
       = ([], Some (Errorf_w
                      ("failed to execute template section (role="
                         +:+ Role sec +:+ "): ") e))).
Proof.
  revert messages. induction pre as [|sec' pre IH]; intros messages Hpre.
  - simpl. split.
    + by intros e ->.
    + by intros tmpl e -> ->.
  - apply Forall_cons in Hpre as [(msg & tmpl & buf & HP & HE & _) Hpre].
    simpl. rewrite HP, HE. by apply IH.
Qed.

(** C6 (amended).  [WithManagerData] with a key that the manager data of
    the state does not hold sets the builder's error.  From then on every
    call, and every chain of calls, of [WithHelper], [AddSection] (and its
    variants) and [WithManagerData] (and its batch form) leaves builder
    and state as they are, no call at all changes the builder, so the
    same error is carried along, and [Compose] returns that error and no
    message.
    When the builder holds no error and the template of every section
    parses and executes, [Compose] returns one message per section, in
    section order, each rendered from its section. *)
Theorem C6_sticky_error_then_compose L :
  (∀ key tb s,
     err tb = None → GetManagerData key s = None →
     WithManagerData key tb s
     = {| sections := sections tb; stateData := stateData tb;
          helpers := helpers tb;
          err := Some (Errorf ("manager data for key " +:+ key
                                 +:+ " not found")) |})
  ∧ (∀ e c tb s,
       err tb = Some e →
       (checks_err c = true → call c tb s = (tb, s))
       ∧ (call c tb s).1 = tb
       ∧ err (call c tb s).1 = Some e)
  ∧ (∀ e cs tb s,
       err tb = Some e →
       (Forall (λ c, checks_err c = true) cs → call_all cs (tb, s) = (tb, s))
       ∧ (call_all cs (tb, s)).1 = tb)
  ∧ (∀ e tb s, err tb = Some e → Compose L tb s = ([], Some e))
  ∧ (∀ tb s,
       err tb = None →
       Forall (λ sec, ∃ msg, rendered L tb s sec msg) (sections tb) →
       ∃ msgs, Compose L tb s = (msgs, None)
               ∧ Forall2 (rendered L tb s) (sections tb) msgs
               ∧ length msgs = length (sections tb)
               ∧ llm.Role <$> msgs = Role <$> sections tb).
Proof.
  split_and!.
  - intros key tb s He Hk. unfold WithManagerData. by rewrite He, Hk.
  - intros e c tb s He. split_and!.
    + by apply (call_poisoned c tb s e).
    + by apply (call_keeps_poisoned_builder c tb s e).
    + by rewrite (call_keeps_poisoned_builder c tb s e).
  - intros e cs tb s He. split.
    + by apply (call_all_poisoned cs tb s e).
    + by apply (call_all_keeps_poisoned_builder cs tb s e).
  - intros e tb s He. unfold Compose. by rewrite He.
  - intros tb s He Hall. unfold Compose. rewrite He.
    destruct (compose_loop_rendered L tb s _ [] Hall) as (msgs & -> & Hmsgs).
    exists msgs. split_and!; [done|done|..].
    + symmetry. by eapply Forall2_length.
    + clear -Hmsgs. induction Hmsgs as [|sec msg secs msgs Hr _ IH]; [done|].
      simpl. f_equal; [|done]. by destruct Hr as (? & ? & _ & _ & ->).
Qed.

End state_facts.

(** ** Concrete builders *)

(** C6, as stated, fails in two places.  After [WithManagerData] has set
    the error, [WithTools] is not a no-op: it appends to the tools of the
    state.  And a builder that holds no error does not render its section
    when the template does not parse: [Compose] returns the parse error
    and no message. *)
Lemma C6_counterexample_tools_and_templates :
  let s0 : State Z unit string := NewState in
  let tb1 : PromptBuilder Z := WithManagerData "mood" NewPromptBuilder s0 in
  let tb2 : PromptBuilder Z := AddSystemSection "{{" NewPromptBuilder in
  err tb1 = Some (Errorf "manager data for key mood not found")
  ∧ call (CallWithTools ["search"%string]) tb1 s0 ≠ (tb1, s0)
  ∧ Tools (call (CallWithTools ["search"%string]) tb1 s0).2
    = ["search"%string]
  ∧ err tb2 = None
  ∧ length (sections tb2) = 1%nat
  ∧ Compose sample_lib tb2 s0
    = ([], Some (Errorf_w "failed to parse template section: "
                   (Errorf "template: section:1: unclosed action"))).
Proof.
  split_and!; try reflexivity.
  intros H. by injection H.
Qed.

(** A missing key, the calls that follow it, and a builder of two
    sections that renders. *)
Lemma C6_witness :
  let s0 : State Z unit string := NewState in
  let s1 : State Z unit string :=
    AddManagerData [{| Key := "mood"; sd_Value := 7 |}] NewState in
  let tb0 : PromptBuilder Z := AddSystemSection "Be brief." NewPromptBuilder in
  let tb1 := WithManagerData "mood" tb0 s0 in
  let tb2 :=
    AddUserSection "Hello." "ann" (WithManagerData "mood" tb0 s1) in
  tb1 = {| sections := sections tb0; stateData := stateData tb0;
           helpers := helpers tb0;
           err := Some (Errorf "manager data for key mood not found") |}
  ∧ call (CallAddUserSection "Hello." "ann") tb1 s0 = (tb1, s0)
  ∧ call_all [CallAddUserSection "Hello." "ann"; CallWithHelper "upper" 1;
              CallWithManagerDataBatch ["mood"; "topic"]%string] (tb1, s0)
    = (tb1, s0)
  ∧ (call (CallWithTools ["search"%string]) tb1 s0).1 = tb1
  ∧ Compose sample_lib tb1 s0
    = ([], Some (Errorf "manager data for key mood not found"))
  ∧ ∃ msgs, Compose sample_lib tb2 s1 = (msgs, None)
            ∧ Forall2 (rendered sample_lib tb2 s1) (sections tb2) msgs
            ∧ length msgs = 2%nat
            ∧ llm.Role <$> msgs = ["system"%string; "user"%string].
Proof.
  intros s0 s1 tb0 tb1 tb2.
  destruct (C6_sticky_error_then_compose sample_lib)
    as (H1 & H2 & H2' & H3 & H4).
  split_and!.
  - apply (H1 "mood"%string tb0 s0); reflexivity.
  - apply (H2 (Errorf "manager data for key mood not found")
             (CallAddUserSection "Hello." "ann") tb1 s0); reflexivity.
  - apply (H2' (Errorf "manager data for key mood not found") _ tb1 s0);
      [reflexivity|].
    repeat (apply Forall_cons; split); try apply Forall_nil; reflexivity.
  - apply (H2 (Errorf "manager data for key mood not found")
             (CallWithTools ["search"%string]) tb1 s0). reflexivity.
  - apply (H3 (Errorf "manager data for key mood not found") tb1 s0).
    reflexivity.
  - apply (H4 tb2 s1); [reflexivity|].
    repeat (apply Forall_cons; split); try apply Forall_nil;
      eexists; eexists _, _; split_and!; reflexivity.
Defined.

(** C7: the error of a section that does not parse carries no role.  The
    builder holds a first section that renders and a second one whose
    template does not parse: [Compose] returns no message, and the error
    it returns is the same whether the failing section has the role
    [user] or [assistant].  A section that parses and fails to execute is
    reported with its role. *)
Lemma C7_parse_error_omits_role :
  let s0 : State Z unit string := NewState in
  let tb0 : PromptBuilder Z := AddSystemSection "Be brief." NewPromptBuilder in
  Compose sample_lib (AddSection "user" "{{" tb0) s0
  = ([], Some (Wrapf
                 "failed to parse template section: template: section:1: unclosed action"
                 (Errorf "template: section:1: unclosed action")))
  ∧ Compose sample_lib (AddSection "assistant" "{{" tb0) s0
    = Compose sample_lib (AddSection "user" "{{" tb0) s0
  ∧ Compose sample_lib (AddSection "user" "{{.Input.ID}}" tb0) s0
    = ([], Some (Wrapf
                   "failed to execute template section (role=user): template: section:1:8: nil pointer evaluating *db.Fragment.ID"
                   (Errorf "template: section:1:8: nil pointer evaluating *db.Fragment.ID"))).
Proof. split_and!; reflexivity. Qed.

End state_facts.

(* ===================================================================== *)
(** * The engine: registration and the pipeline                           *)
(* ===================================================================== *)

Module engine_facts.
Import engine samples.

Section engine_facts.
Context {V Vec Tool W : Type}.

#[local] Abbreviation State := (state.State V Vec Tool).
#[local] Abbreviation Fragment := (db.Fragment.t V Vec).
#[local] Abbreviation Manager := (manager.Manager V Vec Tool W).
#[local] Abbreviation Engine := (engine.Engine V Vec Tool W).
#[local] Abbreviation Sys := (engine.Sys V Vec Tool W).

Implicit Types (e : Engine) (m : Manager) (ms : list Manager) (y : Sys).
Implicit Types (available : gmap string Manager) (id dep : string).

(** ** Registration *)

(** The first loop of [WithManagers]: it succeeds on identifiers that
    are pairwise distinct and new, and otherwise reports the first manager
    whose identifier has been seen. *)
Lemma collect_spec ms available :
  match collect ms available with
  | inl available' =>
      NoDup (ids ms)
      ∧ (∀ id, id ∈ ids ms → available !! id = None)
      ∧ ∀ id, is_Some (available' !! id)
              ↔ is_Some (available !! id) ∨ id ∈ ids ms
  | inr err =>
      ∃ pre m post,
        ms = pre ++ m :: post
        ∧ (is_Some (available !! manager.GetID m)
           ∨ manager.GetID m ∈ ids pre)
        ∧ err = duplicate_error (manager.GetID m)
  end.
Proof.
  revert available. induction ms as [|m ms IH]; intros available; simpl.
  { split_and!; [constructor|by intros id ?%elem_of_nil|].
    intros id. split; [by left|]. by intros [?|?%elem_of_nil]. }
  destruct (available !! manager.GetID m) as [m0|] eqn:Hm.
  { exists [], m, ms. split_and!; [done| |done]. left. by rewrite Hm. }
  specialize (IH (<[manager.GetID m := m]> available)).
  destruct (collect ms _) as [available'|err].
  - destruct IH as (Hnd & Hnew & Hdom). split_and!.
    + apply NoDup_cons. split; [|done]. intros Hin.
      specialize (Hnew _ Hin). by rewrite lookup_insert_eq in Hnew.
    + intros id [->|Hin]%elem_of_cons; [done|].
      specialize (Hnew _ Hin). rewrite lookup_insert in Hnew.
      by case_decide.
    + intros id. rewrite Hdom, lookup_insert. unfold ids. simpl.
      rewrite elem_of_cons. case_decide as Hid.
      * subst id. split; [intros _; right; by left|].
        intros _. left. by eexists.
      * split; [intros [?|?]; auto|].
        intros [?|[?|?]]; auto. congruence.
  - destruct IH as (pre & m' & post & -> & Hseen & ->).
    exists (m :: pre), m', post. split_and!; [done| |done].
    unfold ids. simpl. rewrite elem_of_cons.
    destruct Hseen as [Hseen|Hseen]; [|by right; right].
    rewrite lookup_insert in Hseen. case_decide as Hid.
    + right. by left.
    + by left.
Qed.

Lemma missing_dep_spec (provided : string → bool) mid deps :
  match missing_dep provided mid deps with
  | None => ∀ dep, dep ∈ deps → provided dep = true
  | Some err =>
      ∃ dep, dep ∈ deps ∧ provided dep = false
             ∧ err = unsatisfied_error mid dep
  end.
Proof.
  induction deps as [|dep deps IH]; simpl.
  { by intros dep ?%elem_of_nil. }
  destruct (provided dep) eqn:Hdep.
  - destruct (missing_dep provided mid deps) as [err|].
    + destruct IH as (dep' & Hin & Hp & ->). exists dep'.
      split_and!; [by right|done..].
    + intros dep' [->|Hin]%elem_of_cons; [done|by apply IH].
  - exists dep. split_and!; [by left|done..].
Qed.

Lemma check_deps_spec ms available :
  match check_deps ms available with
  | None =>
      ∀ m dep, m ∈ ms → dep ∈ manager.GetDependencies m →
               is_Some (available !! dep)
  | Some err =>
      ∃ m dep, m ∈ ms ∧ dep ∈ manager.GetDependencies m
               ∧ available !! dep = None
               ∧ err = unsatisfied_error (manager.GetID m) dep
  end.
Proof.
  induction ms as [|m ms IH]; simpl.
  { by intros m dep ?%elem_of_nil. }
  pose proof (missing_dep_spec
                (λ dep, bool_decide (is_Some (available !! dep)))
                (manager.GetID m) (manager.GetDependencies m)) as Hm.
  destruct (missing_dep _ _ _) as [err|].
  - destruct Hm as (dep & Hin & Hp & ->). exists m, dep.
    split_and!; [by left|done| |done].
    apply bool_decide_eq_false in Hp. by apply eq_None_not_Some.
  - destruct (check_deps ms available) as [err|].
    + destruct IH as (m' & dep & Hin & Hdep & Hp & ->). exists m', dep.
      split_and!; [by right|done..].
    + intros m' dep [->|Hin]%elem_of_cons Hdep; [|by eapply IH].
      specialize (Hm _ Hdep). by apply bool_decide_eq_true in Hm.
Qed.

Lemma registered_holds ms id :
  holds (registered ms) id = true ↔ id ∈ ids ms.
Proof.
  unfold holds, registered, ids.
  induction ms as [|m ms IH] using rev_ind; simpl.
  { rewrite lookup_empty. simpl. split; [done|by intros ?%elem_of_nil]. }
  rewrite foldl_app, fmap_app. simpl. rewrite lookup_insert, elem_of_app.
  rewrite list_elem_of_singleton. case_decide as Hid.
  - simpl. split; [by right|done].
  - rewrite IH. split; [by left|]. by intros [?|?].
Qed.

Lemma find_duplicate_spec ms newID :
  find_duplicate ms newID
  = if bool_decide (newID ∈ ids ms) then Some (duplicate_error newID)
    else None.
Proof.
  induction ms as [|m ms IH]; [done|]. simpl.
  destruct (decide (manager.GetID m = newID)) as [Hm|Hm].
  - rewrite (bool_decide_eq_true_2 _ Hm).
    by rewrite bool_decide_eq_true_2 by (rewrite <-Hm; left).
  - rewrite (bool_decide_eq_false_2 _ Hm), IH.
    destruct (decide (newID ∈ ids ms)) as [Hin|Hin].
    + rewrite (bool_decide_eq_true_2 _ Hin).
      by rewrite bool_decide_eq_true_2 by (right; done).
    + rewrite (bool_decide_eq_false_2 _ Hin).
      rewrite bool_decide_eq_false_2; [done|].
      intros [?|?]%elem_of_cons; [congruence|done].
Qed.

Lemma WithManagers_available ms :
  NoDup (ids ms) →
  ∃ available, collect ms ∅ = inl available
               ∧ ∀ id, is_Some (available !! id) ↔ id ∈ ids ms.
Proof.
  intros Hnd. pose proof (collect_spec ms ∅) as Hc.
  destruct (collect ms ∅) as [available|err].
  - destruct Hc as (_ & _ & Hdom). exists available. split; [done|].
    intros id. rewrite Hdom, lookup_empty.
    split; [|by right]. intros [[? ?]|?]; done.
  - destruct Hc as (pre & m & post & -> & Hseen & _). exfalso.
    unfold ids in Hnd. rewrite fmap_app in Hnd. simpl in Hnd.
    apply NoDup_app in Hnd as (_ & Hnd & _).
    destruct Hseen as [Hseen|Hseen].
    + rewrite lookup_empty in Hseen. by destruct Hseen.
    + apply (Hnd _ Hseen). by left.
Qed.

(** C4 (amended).  [WithManagers] fails with the duplicate-manager error
    whenever two managers of the sequence share an identifier, wherever
    they stand in it (the error names the first manager whose identifier
    was seen before).  Whenever some manager declares a dependency that
    no manager of the sequence provides it fails too, and when the
    identifiers are pairwise distinct the error is the
    unsatisfied-dependency error.  Otherwise it succeeds and stores the
    sequence.  [AddManager] validates both conditions against the
    managers registered so far, in the same order: an identifier already
    registered is a duplicate, else a dependency not registered is
    unsatisfied, and otherwise the manager is appended. *)
Theorem C4_registration_validates_managers :
  (∀ ms e,
     ¬ NoDup (ids ms) →
     ∃ pre m post,
       ms = pre ++ m :: post ∧ manager.GetID m ∈ ids pre
       ∧ WithManagers ms e
         = (e, Some (duplicate_error (manager.GetID m))))
  ∧ (∀ ms e m dep,
       m ∈ ms → dep ∈ manager.GetDependencies m → dep ∉ ids ms →
       (WithManagers ms e).1 = e
       ∧ is_Some (WithManagers ms e).2
       ∧ (NoDup (ids ms) →
          ∃ m' dep',
            m' ∈ ms ∧ dep' ∈ manager.GetDependencies m' ∧ (dep' ∉ ids ms)
            ∧ WithManagers ms e
              = (e, Some (unsatisfied_error (manager.GetID m') dep'))))
  ∧ (∀ ms e,
       NoDup (ids ms) →
       (∀ m dep, m ∈ ms → dep ∈ manager.GetDependencies m → dep ∈ ids ms) →
       WithManagers ms e = (set_managers e ms, None))
  ∧ (∀ m e,
       manager.GetID m ∈ ids (managers e) →
       AddManager m e = (e, Some (duplicate_error (manager.GetID m))))
  ∧ (∀ m e dep,
       manager.GetID m ∉ ids (managers e) →
       dep ∈ manager.GetDependencies m → dep ∉ ids (managers e) →
       ∃ dep', dep' ∈ manager.GetDependencies m ∧ (dep' ∉ ids (managers e))
               ∧ AddManager m e
                 = (e, Some (unsatisfied_error (manager.GetID m) dep')))
  ∧ (∀ m e,
       manager.GetID m ∉ ids (managers e) →
       (∀ dep, dep ∈ manager.GetDependencies m → dep ∈ ids (managers e)) →
       AddManager m e = (set_managers e (managers e ++ [m]), None)).
Proof.
  split_and!.
  - intros ms e Hdup. unfold WithManagers.
    pose proof (collect_spec ms ∅) as Hc.
    destruct (collect ms ∅) as [available|err].
    { by destruct Hc as (Hnd & _). }
    destruct Hc as (pre & m & post & -> & Hseen & ->).
    exists pre, m, post. split_and!; [done| |done].
    destruct Hseen as [Hseen|Hseen]; [|done].
    rewrite lookup_empty in Hseen. by destruct Hseen.
  - intros ms e m dep Hm Hdep Hmiss. unfold WithManagers.
    pose proof (collect_spec ms ∅) as Hc.
    destruct (collect ms ∅) as [available|err].
    + destruct Hc as (Hnd & _ & Hdom).
      pose proof (check_deps_spec ms available) as Hd.
      destruct (check_deps ms available) as [err|].
      * destruct Hd as (m' & dep' & Hm' & Hdep' & Hnone & ->).
        split_and!; [done|by eexists|]. intros _.
        exists m', dep'. split_and!; [done..| |done].
        intros Hin. assert (is_Some (available !! dep')) as [? ?].
        { apply Hdom. by right. }
        congruence.
      * exfalso. apply Hmiss.
        destruct (proj1 (Hdom dep) (Hd m dep Hm Hdep)) as [Hs|?]; [|done].
        rewrite lookup_empty in Hs. by destruct Hs.
    + destruct Hc as (pre & m' & post & -> & Hseen & ->).
      split_and!; [done|by eexists|]. intros Hnd. exfalso.
      unfold ids in Hnd. rewrite fmap_app in Hnd. simpl in Hnd.
      apply NoDup_app in Hnd as (_ & Hnd & _).
      destruct Hseen as [Hseen|Hseen].
      * rewrite lookup_empty in Hseen. by destruct Hseen.
      * apply (Hnd _ Hseen). by left.
  - intros ms e Hnd Hdeps. unfold WithManagers.
    destruct (WithManagers_available ms Hnd) as (available & -> & Hdom).
    pose proof (check_deps_spec ms available) as Hd.
    destruct (check_deps ms available) as [err|]; [|done].
    destruct Hd as (m & dep & Hm & Hdep & Hnone & _). exfalso.
    destruct (proj2 (Hdom dep) (Hdeps m dep Hm Hdep)). congruence.
  - intros m e Hin. unfold AddManager.
    by rewrite find_duplicate_spec, bool_decide_eq_true_2.
  - intros m e dep Hnew Hdep Hmiss. unfold AddManager.
    rewrite find_duplicate_spec, bool_decide_eq_false_2 by done.
    pose proof (missing_dep_spec (holds (registered (managers e)))
                  (manager.GetID m) (manager.GetDependencies m)) as Hd.
    destruct (missing_dep _ _ _) as [err|].
    + destruct Hd as (dep' & Hdep' & Hp & ->). exists dep'.
      split_and!; [done| |done].
      intros Hin%registered_holds. congruence.
    + exfalso. apply Hmiss, registered_holds. by apply Hd.
  - intros m e Hnew Hdeps. unfold AddManager.
    rewrite find_duplicate_spec, bool_decide_eq_false_2 by done.
    pose proof (missing_dep_spec (holds (registered (managers e)))
                  (manager.GetID m) (manager.GetDependencies m)) as Hd.
    destruct (missing_dep _ _ _) as [err|]; [|done].
    destruct Hd as (dep & Hdep & Hp & _). exfalso.
    apply Hdeps, registered_holds in Hdep. congruence.
Qed.

(** ** The manager map and the execution order *)

Lemma managerMap_snoc ms m :
  managerMap (ms ++ [m]) = <[manager.GetID m := m]> (managerMap ms).
Proof. unfold managerMap. by rewrite foldl_app. Qed.

(** A manager is found under its own identifier. *)
Lemma managerMap_keyed ms id m :
  managerMap ms !! id = Some m → manager.GetID m = id ∧ m ∈ ms.
Proof.
  induction ms as [|m' ms IH] using rev_ind.
  { unfold managerMap. simpl. by rewrite lookup_empty. }
  rewrite managerMap_snoc, lookup_insert. case_decide as Hid.
  - intros [= <-]. split; [done|]. apply elem_of_app. right. by left.
  - intros [? ?]%IH. split; [done|]. apply elem_of_app. by left.
Qed.

Lemma managerMap_is_Some ms id :
  is_Some (managerMap ms !! id) ↔ id ∈ ids ms.
Proof.
  unfold ids. induction ms as [|m' ms IH] using rev_ind.
  { unfold managerMap. simpl. rewrite lookup_empty.
    split; [by intros [? ?]|by intros ?%elem_of_nil]. }
  rewrite managerMap_snoc, lookup_insert, fmap_app, elem_of_app. simpl.
  rewrite list_elem_of_singleton. case_decide as Hid.
  - split; [by right|by eexists].
  - rewrite IH. split; [by left|]. by intros [?|?].
Qed.

Lemma managerMap_NoDup ms m :
  NoDup (ids ms) → m ∈ ms → managerMap ms !! manager.GetID m = Some m.
Proof.
  unfold ids. induction ms as [|m' ms IH] using rev_ind.
  { by intros _ ?%elem_of_nil. }
  rewrite fmap_app. simpl. intros (Hnd & Hlast & _)%NoDup_app.
  rewrite managerMap_snoc, lookup_insert.
  intros [Hin| ->%list_elem_of_singleton]%elem_of_app.
  - case_decide as Hid; [|by apply IH]. exfalso.
    apply (Hlast (manager.GetID m)).
    + apply list_elem_of_fmap. by exists m.
    + rewrite Hid. by left.
  - by case_decide.
Qed.

Lemma executionOrder_cases e :
  executionOrder e
  = if decide (managerOrder e = []) then ids (managers e) else managerOrder e.
Proof.
  unfold executionOrder. by destruct (managerOrder e) as [|id order].
Qed.

Lemma omap_managerMap_ids ms (order : list string) :
  ids (omap (λ id, managerMap ms !! id) order)
  = filter (λ id, id ∈ ids ms) order.
Proof.
  induction order as [|id order IH]; [done|]. csimpl.
  rewrite filter_cons. destruct (decide (id ∈ ids ms)) as [Hin|Hin].
  - destruct (proj2 (managerMap_is_Some ms id) Hin) as [m Hm].
    rewrite Hm. unfold ids in *. csimpl.
    f_equal; [by destruct (managerMap_keyed _ _ _ Hm)|done].
  - destruct (managerMap ms !! id) as [m|] eqn:Hm; [|done].
    exfalso. apply Hin, managerMap_is_Some. by eexists.
Qed.

Lemma omap_managerMap_registration ms :
  NoDup (ids ms) →
  omap (λ id, managerMap ms !! id) (ids ms) = ms.
Proof.
  intros Hnd.
  assert (∀ l, (∀ m, m ∈ l → m ∈ ms) →
               omap (λ id, managerMap ms !! id) (ids l) = l) as Hl.
  { induction l as [|m l IH]; intros Hin; [done|]. unfold ids. simpl.
    rewrite (managerMap_NoDup ms m Hnd) by (apply Hin; by left).
    f_equal. apply IH. intros ??. apply Hin. by right. }
  by apply Hl.
Qed.

(** ** The ordered phase *)

Lemma call_PostProcess_trace m y :
  trace (call_PostProcess m y).1
  = trace y ++ [PostProcessCall (manager.GetID m) (call_PostProcess m y).2].
Proof.
  unfold call_PostProcess.
  by destruct (manager.PostProcess m (cur y) (world y)) as [[s w] r].
Qed.

(** The loop of [executeManagersInOrder] calls the managers of the order
    one after the other and stops at the first that fails. *)
Lemma execute_loop_spec (mm : gmap string Manager) order y :
  (∀ id m, mm !! id = Some m → manager.GetID m = id) →
  ∃ y' r,
    execute_loop mm call_PostProcess order y = (y', r)
    ∧ ((r = None ∧ trace y' = trace y ++ oks (omap (λ id, mm !! id) order))
       ∨ (∃ pre m post cause,
            omap (λ id, mm !! id) order = pre ++ m :: post
            ∧ trace y'
              = trace y ++ oks pre
                ++ [PostProcessCall (manager.GetID m) (Some cause)]
            ∧ r = Some (Errorf_w
                          ("manager " +:+ manager.GetID m +:+ " failed: ")
                          cause))).
Proof.
  intros Hkeyed. revert y.
  induction order as [|id order IH]; intros y; csimpl.
  { exists y, None. split; [done|]. left. by rewrite app_nil_r. }
  destruct (mm !! id) as [m|] eqn:Hm; [|apply IH].
  pose proof (call_PostProcess_trace m y) as Htr.
  destruct (call_PostProcess m y) as [y1 [cause|]]; simpl in Htr.
  - eexists _, _. split; [done|]. right.
    exists [], m, (omap (λ id, mm !! id) order), cause.
    split_and!; [done|by rewrite Htr|]. by rewrite (Hkeyed _ _ Hm).
  - destruct (IH y1) as (y' & r & -> & Hcases).
    exists y', r. split; [done|].
    destruct Hcases as [[-> Hy']|(pre & m' & post & cause & -> & Hy' & ->)].
    + left. split; [done|]. rewrite Hy', Htr. by rewrite <-app_assoc.
    + right. exists (m :: pre), m', post, cause.
      split_and!; [done| |done]. rewrite Hy', Htr. by rewrite <-!app_assoc.
Qed.

Lemma upsert_calls_app (tr1 tr2 : list (Event V Vec)) :
  upsert_calls (tr1 ++ tr2) = upsert_calls tr1 ++ upsert_calls tr2.
Proof. apply omap_app. Qed.

Lemma upsert_calls_oks ms : upsert_calls (oks ms) = [].
Proof. by induction ms. Qed.

Lemma call_Upsert_trace e (f : Fragment) y :
  trace (call_Upsert e f y).1 = trace y ++ [UpsertCall f (call_Upsert e f y).2].
Proof.
  unfold call_Upsert.
  by destruct (stores.Upsert (interactionFragmentStore e) f (world y)) as [w r].
Qed.

(** C2.  [PostProcess] calls the [PostProcess] callbacks of the managers
    of the execution order one after the other: the configured order when
    one is set, else the identifiers in registration order (and then, the
    identifiers being distinct, the managers as registered); identifiers
    of the order that are not registered are passed over.  It stops at the
    first callback that returns an error: the trace ends with that call,
    no later manager is called, nothing is upserted, and the error
    returned wraps the error of the callback under the identifier of the
    failing manager.  The response is upserted, once and last, only when
    every callback has returned without error.  (When actor or session of
    the response cannot be resolved, no callback is called and nothing is
    upserted.) *)
Theorem C2_postprocess_ordered_stops_at_first_failure
    e (response : Fragment) y :
  (executionOrder e
   = if decide (managerOrder e = []) then ids (managers e) else managerOrder e)
  ∧ ids (callable e) = filter (λ id, id ∈ ids (managers e)) (executionOrder e)
  ∧ (NoDup (ids (managers e)) → managerOrder e = [] →
     callable e = managers e)
  ∧ ∃ y' r,
      PostProcess e response y = (y', r)
      ∧ ((trace y' = trace y
          ∧ ∃ cause, r = Some (Errorf_w "failed to get actor: " cause)
                     ∨ r = Some (Errorf_w "failed to get session: " cause))
         ∨ (∃ ru,
              trace y' = trace y ++ oks (callable e) ++ [UpsertCall response ru]
              ∧ r = Errorf_w "failed to store response: " <$> ru)
         ∨ (∃ pre m post cause,
              callable e = pre ++ m :: post
              ∧ trace y'
                = trace y ++ oks pre
                  ++ [PostProcessCall (manager.GetID m) (Some cause)]
              ∧ upsert_calls (trace y') = upsert_calls (trace y)
              ∧ r = Some (Errorf_w "failed to execute manager actions: "
                            (Errorf_w
                               ("manager " +:+ manager.GetID m
                                  +:+ " failed: ") cause)))).
Proof.
  split_and!.
  - apply executionOrder_cases.
  - apply omap_managerMap_ids.
  - intros Hnd Horder. unfold callable.
    rewrite executionOrder_cases, Horder. simpl.
    by apply omap_managerMap_registration.
  - unfold PostProcess.
    destruct (stores.actor_GetByID _ _ _) as [actor [err|]].
    { eexists _, _. split; [done|]. left. split; [done|]. exists err. by left. }
    destruct (stores.session_GetByID _ _ _) as [session [err|]].
    { eexists _, _. split; [done|]. left. split; [done|]. exists err. by right. }
    set (y1 := {| cur := _; world := world y; trace := trace y |}).
    unfold executeManagersInOrder.
    destruct (execute_loop_spec (managerMap (managers e)) (executionOrder e) y1)
      as (y2 & r2 & -> & Hcases).
    { intros id m Hm. by destruct (managerMap_keyed _ _ _ Hm). }
    destruct Hcases as [[-> Hy2]|(pre & m & post & cause & Hc & Hy2 & ->)].
    + pose proof (call_Upsert_trace e response y2) as Htr.
      destruct (call_Upsert e response y2) as [y3 ru]. simpl in Htr.
      exists y3, (Errorf_w "failed to store response: " <$> ru).
      split; [by destruct ru|]. right; left. exists ru. split; [|done].
      rewrite Htr, Hy2. by rewrite <-app_assoc.
    + eexists _, _. split; [done|]. right; right. exists pre, m, post, cause.
      split_and!; [done|done| |done].
      rewrite Hy2. simpl. rewrite !upsert_calls_app, upsert_calls_oks. simpl.
      by rewrite app_nil_r.
Qed.

Lemma check_order_spec (mm : gmap string bool) (order : list string) :
  match check_order mm order with
  | None => ∀ id, id ∈ order → holds mm id = true
  | Some err =>
      ∃ id, id ∈ order ∧ holds mm id = false
            ∧ err = Errorf ("manager " +:+ id
                              +:+ " specified in order but not provided")
  end.
Proof.
  induction order as [|id order IH]; simpl.
  { by intros id ?%elem_of_nil. }
  destruct (holds mm id) eqn:Hid.
  - destruct (check_order mm order) as [err|].
    + destruct IH as (id' & Hin & Hh & ->). exists id'.
      split_and!; [by right|done..].
    + intros id' [->|Hin]%elem_of_cons; [done|by apply IH].
  - exists id. split_and!; [by left|done..].
Qed.

(** Only the managers of the execution order are called. *)
Lemma PostProcess_calls_in_order e (response : Fragment) y id r :
  PostProcessCall id r ∈ trace (PostProcess e response y).1 →
  PostProcessCall id r ∈ trace y ∨ id ∈ executionOrder e.
Proof.
  unfold PostProcess.
  destruct (stores.actor_GetByID _ _ _) as [actor [err|]]; [by left|].
  destruct (stores.session_GetByID _ _ _) as [session [err|]]; [by left|].
  set (y1 := {| cur := _; world := world y; trace := trace y |}).
  unfold executeManagersInOrder.
  destruct (execute_loop_spec (managerMap (managers e)) (executionOrder e) y1)
    as (y2 & r2 & -> & Hcases).
  { intros id' m Hm. by destruct (managerMap_keyed _ _ _ Hm). }
  assert (∀ l, (∀ m, m ∈ l → m ∈ callable e) →
               PostProcessCall id r ∈ oks l → id ∈ executionOrder e) as Hoks.
  { intros l Hl (m & [= -> _] & Hm%Hl)%list_elem_of_fmap.
    apply list_elem_of_omap in Hm as (id' & Hid' & Hm).
    by destruct (managerMap_keyed _ _ _ Hm) as [-> _]. }
  destruct Hcases as [[-> Hy2]|(pre & m & post & cause & Hc & Hy2 & ->)].
  - pose proof (call_Upsert_trace e response y2) as Htr.
    destruct (call_Upsert e response y2) as [y3 ru]. simpl in Htr.
    replace (trace (match ru with
                    | Some err =>
                        (y3, Some (Errorf_w "failed to store response: " err))
                    | None => (y3, None)
                    end).1) with (trace y3) by (by destruct ru).
    rewrite Htr, Hy2. simpl.
    intros [[Hin|Hin]%elem_of_app|Hin%list_elem_of_singleton]%elem_of_app;
      [by left| |done].
    right. by eapply Hoks.
  - simpl. rewrite Hy2. simpl.
    intros [Hin|[Hin|Hin%list_elem_of_singleton]%elem_of_app]%elem_of_app;
      [by left| |].
    + right. eapply Hoks; [|done]. intros m' Hm'. unfold callable.
      rewrite Hc. apply elem_of_app. by left.
    + right. injection Hin as -> _.
      assert (m ∈ callable e) as Hm.
      { unfold callable. rewrite Hc. apply elem_of_app. right. by left. }
      apply list_elem_of_omap in Hm as (id' & Hid' & Hm).
      by destruct (managerMap_keyed _ _ _ Hm) as [-> _].
Qed.

Lemma execute_loop_all_ok (mm : gmap string Manager) order y :
  (∀ id m, id ∈ order → mm !! id = Some m →
           ∀ s w, (manager.PostProcess m s w).2 = None) →
  (execute_loop mm call_PostProcess order y).2 = None.
Proof.
  revert y. induction order as [|id order IH]; intros y Hok; [done|]. simpl.
  assert (∀ id' m, id' ∈ order → mm !! id' = Some m →
                   ∀ s w, (manager.PostProcess m s w).2 = None) as Hok'.
  { intros id' m Hin. apply Hok. by right. }
  destruct (mm !! id) as [m|] eqn:Hm; [|by apply IH].
  unfold call_PostProcess.
  specialize (Hok id m (list_elem_of_here _ _) Hm (cur y) (world y)).
  destruct (manager.PostProcess m (cur y) (world y)) as [[s w] r].
  simpl in Hok. subst r. by apply IH.
Qed.

Lemma managerMap_without ms id id' :
  id' ≠ id → managerMap (without id ms) !! id' = managerMap ms !! id'.
Proof.
  intros Hne. unfold without.
  induction ms as [|m ms IH] using rev_ind; [done|].
  rewrite filter_app, filter_cons, filter_nil, managerMap_snoc.
  rewrite (lookup_insert (managerMap ms)).
  destruct (decide (manager.GetID m ≠ id)) as [Hm|Hm].
  - rewrite managerMap_snoc, lookup_insert, IH. done.
  - rewrite app_nil_r, IH. apply dec_stable in Hm.
    case_decide; [congruence|done].
Qed.

Lemma execute_loop_ext (mm1 mm2 : gmap string Manager) fn order y :
  (∀ id, id ∈ order → mm1 !! id = mm2 !! id) →
  execute_loop mm1 fn order y = execute_loop mm2 fn order y.
Proof.
  revert y. induction order as [|id order IH]; intros y Heq; [done|]. simpl.
  rewrite (Heq id) by (by left).
  assert (∀ id', id' ∈ order → mm1 !! id' = mm2 !! id') as Heq'.
  { intros id' Hin. apply Heq. by right. }
  destruct (mm2 !! id) as [m|]; [|by apply IH].
  destruct (fn m y) as [y1 [err|]]; [done|by apply IH].
Qed.

(** C9.  [WithManagerOrder] accepts an order as soon as every identifier
    it lists is registered, whether or not it lists every registered
    manager, and rejects an order that lists an identifier that is not
    registered.  Under a configured order, [PostProcess] never calls the
    [PostProcess] callback of a manager whose identifier the order omits,
    and reports no error for it: it does what it would do were that
    manager not registered at all, and when the callbacks of the listed
    managers and the stores succeed it returns no error, whatever the
    callback of the omitted manager would have done. *)
Theorem C9_manager_omitted_from_order_is_skipped :
  (∀ order e,
     (∀ id, id ∈ order → id ∈ ids (managers e)) →
     WithManagerOrder order e = (set_managerOrder e order, None))
  ∧ (∀ order e id,
       id ∈ order → id ∉ ids (managers e) →
       ∃ id', id' ∈ order ∧ (id' ∉ ids (managers e))
              ∧ WithManagerOrder order e
                = (e, Some (Errorf ("manager " +:+ id'
                                      +:+ " specified in order but not provided"))))
  ∧ (∀ e (response : Fragment) y m r,
       managerOrder e ≠ [] → manager.GetID m ∉ managerOrder e →
       PostProcessCall (manager.GetID m) r
         ∈ trace (PostProcess e response y).1 →
       PostProcessCall (manager.GetID m) r ∈ trace y)
  ∧ (∀ e (response : Fragment) y m,
       managerOrder e ≠ [] → manager.GetID m ∉ managerOrder e →
       PostProcess e response y
       = PostProcess
           (set_managers e (without (manager.GetID m) (managers e)))
           response y)
  ∧ (∀ e (response : Fragment) y actor session,
       stores.actor_GetByID (actorStore e) (db.Fragment.ActorID response)
         (world y) = (actor, None) →
       stores.session_GetByID (sessionStore e)
         (db.Fragment.SessionID response) (world y) = (session, None) →
       managerOrder e ≠ [] →
       (∀ m, m ∈ managers e → manager.GetID m ∈ managerOrder e →
             ∀ s w, (manager.PostProcess m s w).2 = None) →
       (∀ w, (stores.Upsert (interactionFragmentStore e) response w).2 = None) →
       (PostProcess e response y).2 = None).
Proof.
  split_and!.
  - intros order e Hreg. unfold WithManagerOrder.
    pose proof (check_order_spec (registered (managers e)) order) as Hc.
    destruct (check_order _ _) as [err|]; [|done].
    destruct Hc as (id & Hin & Hh & _). exfalso.
    apply Hreg, registered_holds in Hin. congruence.
  - intros order e id Hin Hmiss. unfold WithManagerOrder.
    pose proof (check_order_spec (registered (managers e)) order) as Hc.
    destruct (check_order _ _) as [err|].
    + destruct Hc as (id' & Hin' & Hh & ->). exists id'.
      split_and!; [done| |done]. intros ?%registered_holds. congruence.
    + exfalso. by apply Hmiss, registered_holds, Hc.
  - intros e response y m r Hset Homit Hin.
    apply PostProcess_calls_in_order in Hin as [Hin|Hin]; [done|].
    rewrite executionOrder_cases in Hin. by case_decide.
  - intros e response y m Hset Homit.
    unfold PostProcess, executeManagersInOrder, call_Upsert. simpl.
    assert (executionOrder
              (set_managers e (without (manager.GetID m) (managers e)))
            = executionOrder e) as ->.
    { rewrite !executionOrder_cases. simpl. by case_decide. }
    destruct (stores.actor_GetByID _ _ _) as [actor [err|]]; [done|].
    destruct (stores.session_GetByID _ _ _) as [session [err|]]; [done|].
    rewrite (execute_loop_ext
               (managerMap (without (manager.GetID m) (managers e)))
               (managerMap (managers e))); [done|].
    intros id Hin. apply managerMap_without. intros ->.
    rewrite executionOrder_cases in Hin. by case_decide.
  - intros e response y actor session Hactor Hsession Hset Hok Hstore.
    unfold PostProcess. rewrite Hactor, Hsession.
    set (y1 := {| cur := _; world := world y; trace := trace y |}).
    unfold executeManagersInOrder.
    pose proof (execute_loop_all_ok (managerMap (managers e))
                  (executionOrder e) y1) as Hloop.
    destruct (execute_loop _ _ _ y1) as [y2 r2]. simpl in Hloop.
    rewrite Hloop.
    + unfold call_Upsert. specialize (Hstore (world y2)).
      destruct (stores.Upsert _ response (world y2)) as [w ru].
      simpl in Hstore. by subst ru.
    + intros id m Hin Hm. destruct (managerMap_keyed _ _ _ Hm) as [<- Hms].
      apply Hok; [done|]. rewrite executionOrder_cases in Hin.
      by case_decide.
Qed.

(** ** The concurrent phase *)

Lemma first_error_None results :
  first_error results = None ↔ Forall (λ r, r = None) results.
Proof.
  induction results as [|[err|] results IH]; simpl.
  - split; [by constructor|done].
  - split; [done|]. by intros [? _]%Forall_cons.
  - rewrite IH. split; [by constructor|]. by intros [_ ?]%Forall_cons.
Qed.

Lemma upsert_calls_process_events ms results :
  upsert_calls (process_events ms results) = [].
Proof.
  unfold process_events.
  revert results. induction (ids ms) as [|id l IH]; intros [|r rs]; try done.
  simpl. apply IH.
Qed.

(** The group calls every manager of the schedule, once, and holds the
    first error returned. *)
Lemma errgroup_Wait_spec sched y first :
  ∃ y' results,
    errgroup_Wait sched y first
    = (y', match first with Some err => Some err | None => first_error results end)
    ∧ length results = length sched
    ∧ trace y' = trace y ++ process_events sched results.
Proof.
  revert y first. induction sched as [|m sched IH]; intros y first; simpl.
  { exists y, []. split_and!; [by destruct first|done|by rewrite app_nil_r]. }
  unfold call_Process.
  destruct (manager.Process m (cur y) (world y)) as [[s w] r].
  edestruct IH as (y' & results & -> & Hlen & Htr).
  exists y', (r :: results). split_and!.
  - destruct first; [done|]. by destruct r.
  - simpl. by rewrite Hlen.
  - rewrite Htr. simpl. by rewrite <-app_assoc.
Qed.

(** C1 (amended).  On a state whose input is set and whose actor and
    session are resolved, under any schedule of the registered managers,
    [Process] calls the [Process] callback of every manager once.  If at
    least one of these calls returns an error, [Process] returns an error
    (the first one returned, wrapped) and the fragment store is not called.
    If every call succeeds, [Process] upserts the enriched input fragment,
    once, and returns no error exactly when the store accepts it; when
    the store returns an error, [Process] returns that error, wrapped. *)
Theorem C1_process_persists_only_after_success
    e sched y (input : Fragment) actor session :
  state.Input (cur y) = Some input →
  stores.actor_GetByID (actorStore e) (db.Fragment.ActorID input) (world y)
  = (actor, None) →
  stores.session_GetByID (sessionStore e) (db.Fragment.SessionID input)
    (world y) = (session, None) →
  sched ≡ₚ managers e →
  ∃ y' r results,
    Process e sched y = Some (y', r)
    ∧ length results = length sched
    ∧ ids sched ≡ₚ ids (managers e)
    ∧ ((∃ cause, Some cause ∈ results) →
       ∃ cause, first_error results = Some cause
         ∧ r = Some (Errorf_w "failed to execute manager analysis: " cause)
         ∧ trace y' = trace y ++ process_events sched results
         ∧ upsert_calls (trace y') = upsert_calls (trace y))
    ∧ (Forall (λ res, res = None) results →
       ∃ ru,
         trace y'
         = trace y ++ process_events sched results
           ++ [UpsertCall (createFragmentCopy input actor session) ru]
         ∧ upsert_calls (trace y')
           = upsert_calls (trace y)
             ++ [(createFragmentCopy input actor session, ru)]
         ∧ r = Errorf_w "failed to store input: " <$> ru).
Proof.
  intros Hinput Hactor Hsession Hsched.
  unfold Process. rewrite Hinput. simpl. rewrite Hactor, Hsession.
  set (inputCopy := createFragmentCopy input actor session).
  set (y1 := {| cur := _; world := world y; trace := trace y |}).
  destruct (errgroup_Wait_spec sched y1 None)
    as (y2 & results & -> & Hlen & Hy2).
  destruct (first_error results) as [cause|] eqn:Hfirst.
  - eexists _, _, results. split; [done|].
    split_and!; [done|by unfold ids; rewrite Hsched|..].
    + intros _. exists cause. split_and!; [done..|].
      rewrite Hy2. simpl.
      rewrite upsert_calls_app, upsert_calls_process_events.
      by rewrite app_nil_r.
    + intros Hnone%first_error_None. congruence.
  - pose proof (call_Upsert_trace e inputCopy y2) as Htr.
    destruct (call_Upsert e inputCopy y2) as [y3 ru]. simpl in Htr.
    exists y3, (Errorf_w "failed to store input: " <$> ru), results.
    split; [by destruct ru|].
    split_and!; [done|by unfold ids; rewrite Hsched|..].
    + intros [cause Hin]. apply first_error_None in Hfirst.
      by apply (proj1 (Forall_forall _ _) Hfirst) in Hin.
    + intros _. exists ru. rewrite Htr, Hy2. simpl.
      split_and!; [by rewrite <-app_assoc| |done].
      rewrite !upsert_calls_app, upsert_calls_process_events. simpl.
      by rewrite app_nil_r.
Qed.

End engine_facts.

(** ** Concrete engines *)

(** C1, as stated, fails when the store rejects the fragment: the only
    manager succeeds, the fragment store is called once and returns an
    error, and [Process] returns that error, wrapped, with nothing
    persisted. *)
Lemma C1_counterexample_store_failure :
  let e := sample_engine (Some (Errorf "connection refused"))
             [steady "insight" []] [] in
  let f := sample_fragment "hello" in
  ∃ y',
    Process e (managers e) (sample_request (Some f))
    = Some (y', Some (Errorf_w "failed to store input: "
                        (Errorf "connection refused")))
    ∧ trace y'
      = [ProcessCall "insight" None;
         UpsertCall (createFragmentCopy f None None)
           (Some (Errorf "connection refused"))]
    ∧ persisted (trace y') = [].
Proof. eexists. split_and!; reflexivity. Qed.

(** The concurrent phase on two managers, of which the second fails and
    is scheduled first. *)
Lemma C1_witness :
  let a := steady "insight" [] in
  let b := broken "persona" [] "no model" in
  let e := sample_engine None [a; b] [] in
  let f := sample_fragment "hello" in
  let y := sample_request (Some f) in
  ∃ y' r results,
    Process e [b; a] y = Some (y', r)
    ∧ length results = 2%nat
    ∧ ids [b; a] ≡ₚ ids (managers e)
    ∧ ((∃ cause, Some cause ∈ results) →
       ∃ cause, first_error results = Some cause
         ∧ r = Some (Errorf_w "failed to execute manager analysis: " cause)
         ∧ trace y' = trace y ++ process_events [b; a] results
         ∧ upsert_calls (trace y') = upsert_calls (trace y))
    ∧ (Forall (λ res, res = None) results →
       ∃ ru,
         trace y'
         = trace y ++ process_events [b; a] results
           ++ [UpsertCall (createFragmentCopy f None None) ru]
         ∧ upsert_calls (trace y')
           = upsert_calls (trace y) ++ [(createFragmentCopy f None None, ru)]
         ∧ r = Errorf_w "failed to store input: " <$> ru).
Proof.
  intros a b e f y.
  apply (C1_process_persists_only_after_success e [b; a] y f None None).
  - reflexivity.
  - reflexivity.
  - reflexivity.
  - apply perm_swap.
Defined.

(** The ordered phase on three managers under the order [c; b; a], of
    which [b] fails: [c] and [b] are called, [a] is not. *)
Lemma C2_witness :
  let a := steady "a" [] in
  let b := broken "b" [] "no model" in
  let c := steady "c" [] in
  let e := sample_engine None [a; b; c] ["c"; "b"; "a"]%string in
  let f := sample_fragment "reply" in
  let y := sample_request None in
  callable e = [c; b; a]
  ∧ PostProcess e f y
    = ({| cur := state.set_Output state.NewState
                   (Some (createFragmentCopy f None None));
          world := 2%nat;
          trace := [PostProcessCall "c" None;
                    PostProcessCall "b" (Some (Errorf "no model"))] |},
       Some (Errorf_w "failed to execute manager actions: "
               (Errorf_w "manager b failed: " (Errorf "no model"))))
  ∧ (executionOrder e
     = if decide (managerOrder e = []) then ids (managers e)
       else managerOrder e)
  ∧ ids (callable e) = filter (λ id, id ∈ ids (managers e)) (executionOrder e)
  ∧ (NoDup (ids (managers e)) → managerOrder e = [] →
     callable e = managers e)
  ∧ ∃ y' r,
      PostProcess e f y = (y', r)
      ∧ ((trace y' = trace y
          ∧ ∃ cause, r = Some (Errorf_w "failed to get actor: " cause)
                     ∨ r = Some (Errorf_w "failed to get session: " cause))
         ∨ (∃ ru,
              trace y' = trace y ++ oks (callable e) ++ [UpsertCall f ru]
              ∧ r = Errorf_w "failed to store response: " <$> ru)
         ∨ (∃ pre m post cause,
              callable e = pre ++ m :: post
              ∧ trace y'
                = trace y ++ oks pre
                  ++ [PostProcessCall (manager.GetID m) (Some cause)]
              ∧ upsert_calls (trace y') = upsert_calls (trace y)
              ∧ r = Some (Errorf_w "failed to execute manager actions: "
                            (Errorf_w
                               ("manager " +:+ manager.GetID m
                                  +:+ " failed: ") cause)))).
Proof.
  intros a b c e f y. split; [reflexivity|]. split; [reflexivity|].
  apply (C2_postprocess_ordered_stops_at_first_failure e f y).
Defined.

(** C4, as stated, fails on a sequence that has both defects: the second
    manager repeats the identifier of the first and declares a dependency
    that nobody provides, and the error is the duplicate-manager error,
    not the unsatisfied-dependency error. *)
Lemma C4_counterexample_duplicate_reported_first :
  let ms := [steady "a" []; steady "a" ["zz"%string]] in
  let e0 := sample_engine None [] [] in
  (∃ m dep, m ∈ ms ∧ dep ∈ manager.GetDependencies m ∧ (dep ∉ ids ms))
  ∧ WithManagers ms e0 = (e0, Some (duplicate_error "a"))
  ∧ duplicate_error "a" = Errorf "duplicate manager with ID a"
  ∧ ∀ id dep, duplicate_error "a" ≠ unsatisfied_error id dep.
Proof.
  split_and!.
  - exists (steady "a" ["zz"%string]), "zz"%string. split_and!.
    + apply elem_of_cons; right. apply list_elem_of_here.
    + apply list_elem_of_here.
    + apply (bool_decide_unpack _). vm_compute. exact I.
  - reflexivity.
  - reflexivity.
  - intros id dep. unfold duplicate_error, unsatisfied_error. simpl.
    discriminate.
Qed.

(** Registration on sequences with a repeated identifier, with a missing
    and with a present dependency, and the three outcomes of
    [AddManager]. *)
Lemma C4_witness :
  let a := steady "a" [] in
  let b := steady "b" ["a"%string] in
  let a2 := steady "a" ["b"%string] in
  let d := steady "d" ["zz"%string] in
  let e0 := sample_engine None [] [] in
  let e1 := sample_engine None [a; b] [] in
  (∃ pre m post,
     [b; a; a2] = pre ++ m :: post ∧ manager.GetID m ∈ ids pre
     ∧ WithManagers [b; a; a2] e0
       = (e0, Some (duplicate_error (manager.GetID m))))
  ∧ ((WithManagers [a; d] e0).1 = e0
     ∧ is_Some (WithManagers [a; d] e0).2
     ∧ (NoDup (ids [a; d]) →
        ∃ m' dep',
          m' ∈ [a; d] ∧ dep' ∈ manager.GetDependencies m'
          ∧ (dep' ∉ ids [a; d])
          ∧ WithManagers [a; d] e0
            = (e0, Some (unsatisfied_error (manager.GetID m') dep'))))
  ∧ WithManagers [b; a] e0 = (set_managers e0 [b; a], None)
  ∧ AddManager a2 e1 = (e1, Some (duplicate_error "a"))
  ∧ (∃ dep', dep' ∈ manager.GetDependencies d ∧ (dep' ∉ ids (managers e1))
             ∧ AddManager d e1
               = (e1, Some (unsatisfied_error "d" dep')))
  ∧ AddManager (steady "c" ["a"; "b"]%string) e1
    = (set_managers e1 [a; b; steady "c" ["a"; "b"]%string], None).
Proof.
  intros a b a2 d e0 e1.
  destruct (C4_registration_validates_managers
              (V:=Z) (Vec:=unit) (Tool:=string) (W:=nat))
    as (H1 & H2 & H3 & H4 & H5 & H6).
  split; [|split; [|split; [|split; [|split]]]].
  - apply (H1 [b; a; a2] e0).
    apply (bool_decide_unpack _). vm_compute. exact I.
  - apply (H2 [a; d] e0 d "zz"%string).
    + apply elem_of_cons; right. apply list_elem_of_here.
    + apply list_elem_of_here.
    + apply (bool_decide_unpack _). vm_compute. exact I.
  - apply (H3 [b; a] e0).
    + apply (bool_decide_unpack _). vm_compute. exact I.
    + intros m dep Hm Hdep.
      apply elem_of_cons in Hm as [->|Hm].
      * apply list_elem_of_singleton in Hdep as ->.
        apply (bool_decide_unpack _). vm_compute. exact I.
      * apply list_elem_of_singleton in Hm as ->. by apply elem_of_nil in Hdep.
  - apply (H4 a2 e1). apply (bool_decide_unpack _). vm_compute. exact I.
  - apply (H5 d e1 "zz"%string).
    + apply (bool_decide_unpack _). vm_compute. exact I.
    + apply list_elem_of_here.
    + apply (bool_decide_unpack _). vm_compute. exact I.
  - apply (H6 (steady "c" ["a"; "b"]%string) e1).
    + apply (bool_decide_unpack _). vm_compute. exact I.
    + intros dep Hdep. simpl in Hdep.
      apply elem_of_cons in Hdep as [->|Hdep];
        [|apply list_elem_of_singleton in Hdep as ->];
        apply (bool_decide_unpack _); vm_compute; exact I.
Defined.

(** An order that lists only [a]: the manager [b], whose callback would
    fail, is registered and never called, and [PostProcess] returns no
    error. *)
Lemma C9_witness :
  let a := steady "a" [] in
  let b := broken "b" [] "no model" in
  let e0 := sample_engine None [a; b] [] in
  let e := sample_engine None [a; b] ["a"%string] in
  let f := sample_fragment "reply" in
  let y := sample_request None in
  WithManagerOrder ["a"%string] e0 = (e, None)
  ∧ PostProcess e f y
    = ({| cur := state.set_Output state.NewState
                   (Some (createFragmentCopy f None None));
          world := 1%nat;
          trace := [PostProcessCall "a" None; UpsertCall f None] |}, None)
  ∧ (∀ r, PostProcessCall (manager.GetID b) r ∈ trace (PostProcess e f y).1 →
          PostProcessCall (manager.GetID b) r ∈ trace y)
  ∧ PostProcess e f y
    = PostProcess (set_managers e (without (manager.GetID b) (managers e))) f y
  ∧ (PostProcess e f y).2 = None
  ∧ (∃ id', id' ∈ ["a"; "zz"]%string ∧ (id' ∉ ids (managers e0))
            ∧ WithManagerOrder ["a"; "zz"]%string e0
              = (e0, Some (Errorf ("manager " +:+ id'
                                     +:+ " specified in order but not provided")))).
Proof.
  intros a b e0 e f y.
  destruct (C9_manager_omitted_from_order_is_skipped
              (V:=Z) (Vec:=unit) (Tool:=string) (W:=nat))
    as (H1 & H2 & H3 & H3' & H4).
  split_and!.
  - apply (H1 ["a"%string] e0). intros id Hid.
    apply list_elem_of_singleton in Hid as ->.
    apply (bool_decide_unpack _). vm_compute. exact I.
  - reflexivity.
  - intros r. apply (H3 e f y b r).
    + discriminate.
    + apply (bool_decide_unpack _). vm_compute. exact I.
  - apply (H3' e f y b).
    + discriminate.
    + apply (bool_decide_unpack _). vm_compute. exact I.
  - apply (H4 e f y None None); try reflexivity.
    + discriminate.
    + intros m Hm Hlisted s w.
      apply elem_of_cons in Hm as [->|Hm]; [reflexivity|].
      apply list_elem_of_singleton in Hm as ->. exfalso.
      simpl in Hlisted. apply list_elem_of_singleton in Hlisted.
      discriminate.
  - apply (H2 ["a"; "zz"]%string e0 "zz"%string).
    + apply elem_of_cons; right. apply list_elem_of_here.
    + apply (bool_decide_unpack _). vm_compute. exact I.
Defined.

End engine_facts.

(* ===================================================================== *)
(** * More on the cache: lookups, removal and the sweep                   *)
(* ===================================================================== *)

Module cache_more.
Import cache cache_terms.

Section cache_more.
Context {V : Type}.
Implicit Types (c : Cache V) (g : Globals) (R : RangeOrder V).
Implicit Types (m : gmap string (CacheEntry V)) (w : World V).

Lemma evictOldest_fields R c g :
  maxSize (evictOldest R c g).1 = maxSize c
  ∧ ttl (evictOldest R c g).1 = ttl c
  ∧ cancelled (evictOldest R c g).1 = cancelled c.
Proof.
  unfold evictOldest. destruct (oldest_scan _) as [k t].
  by destruct (negb (IsZero t)).
Qed.

Lemma Set_items R key value now c g :
  ∃ m, items (Set_ R key value now c g).1
       = <[key := {| Value := value; Expiration := Add now (ttl c) |}]> m
       ∧ m ⊆ items c.
Proof.
  unfold Set_. case_bool_decide.
  - pose proof (evictOldest_fields R c g) as (_ & Httl & _).
    assert (items (evictOldest R c g).1 ⊆ items c) as Hsub.
    { unfold evictOldest. destruct (oldest_scan _) as [k t].
      destruct (negb (IsZero t)); [apply delete_subseteq|done]. }
    destruct (evictOldest R c g) as [c1 g1]. simpl in *. rewrite Httl.
    by exists (items c1).
  - by exists (items c).
Qed.

(** X1.  A [Get] of a key after it is [Set] finds the value up to and
    including the expiration instant, and misses after it; in both cases
    the entry stays in the table. *)
Theorem Set_then_Get R key value now now' c g :
  Get key now' (Set_ R key value now c g).1 (Set_ R key value now c g).2
  = (if decide (now' ≤ Add now (ttl c))
     then (Some value, add_hits (Set_ R key value now c g).2)
     else (None, add_misses (Set_ R key value now c g).2))
  ∧ items (Set_ R key value now c g).1 !! key
    = Some {| Value := value; Expiration := Add now (ttl c) |}.
Proof.
  destruct (Set_items R key value now c g) as (m & Hm & _).
  unfold Get. rewrite Hm, lookup_insert_eq. simpl. split; [|done].
  unfold After. case_decide; case_bool_decide; (done || lia).
Qed.

(** X2.  Setting a key that the cache already holds: below capacity the
    entry is replaced and nothing else changes; at capacity an entry is
    evicted all the same, so the count drops by one unless the evicted
    entry is the one being replaced. *)
Theorem Set_of_present_key R key value now c g e0 :
  items c !! key = Some e0 → stamped (items c) →
  (len (items c) < maxSize c →
   Set_ R key value now c g
   = (with_items c
        (<[key := {| Value := value; Expiration := Add now (ttl c) |}]>
           (items c)), g)
   ∧ len (items (Set_ R key value now c g).1) = len (items c))
  ∧ (maxSize c ≤ len (items c) →
     ∃ k, is_Some (items c !! k)
          ∧ (Set_ R key value now c g).2 = add_evicted g
          ∧ items (Set_ R key value now c g).1
            = <[key := {| Value := value; Expiration := Add now (ttl c) |}]>
                (delete k (items c))
          ∧ len (items (Set_ R key value now c g).1)
            = if decide (k = key) then len (items c) else len (items c) - 1).
Proof.
  intros Hkey Hst. split.
  - intros Hlt. rewrite cache_facts.Set_below by done. split; [done|].
    simpl. unfold len. by rewrite map_size_insert_Some.
  - intros Hcap.
    assert (items c ≠ ∅) as Hne.
    { intros Hc. by rewrite Hc, lookup_empty in Hkey. }
    destruct (cache_facts.Set_at_capacity R key value now c g Hcap Hne Hst)
      as (k & e & Hk & _ & ->).
    exists k. split_and!; [by eexists|done|done|]. simpl.
    pose proof (cache_facts.len_delete_Some k e (items c) Hk) as Hlen.
    unfold len in *. rewrite map_size_insert.
    case_decide as Hkk.
    + subst k. rewrite lookup_delete_eq. simpl. lia.
    + rewrite lookup_delete_ne, Hkey by done. simpl. lia.
Qed.

(** X3.  [Delete] and [Clear] against later lookups: a deleted key
    misses and every other key is looked up as before; deleting a key
    that is not stored changes nothing; after [Clear] every key misses
    and the size is zero.  Capacity and TTL are kept. *)
Theorem Delete_Clear_then_Get key k now c g :
  Get k now (Delete key c) g
  = (if decide (k = key) then (None, add_misses g) else Get k now c g)
  ∧ (items c !! key = None → Delete key c = c)
  ∧ len (items (Delete key c))
    = (if items c !! key is Some _ then len (items c) - 1
       else len (items c))
  ∧ Get k now (Clear c) g = (None, add_misses g)
  ∧ Size (GetStats (Clear c) g) = 0
  ∧ (maxSize (Delete key c), ttl (Delete key c)) = (maxSize c, ttl c)
  ∧ (maxSize (Clear c), ttl (Clear c)) = (maxSize c, ttl c).
Proof.
  split_and!.
  - unfold Get, Delete. simpl. case_decide as Hk.
    + subst k. by rewrite lookup_delete_eq.
    + by rewrite lookup_delete_ne.
  - intros Hnone. unfold Delete. rewrite delete_id by done.
    by destruct c.
  - simpl. destruct (items c !! key) as [e|] eqn:Hkey.
    + by eapply cache_facts.len_delete_Some.
    + by rewrite delete_id.
  - unfold Get, Clear. simpl. by rewrite lookup_empty.
  - done.
  - done.
  - done.
Qed.

(** ** The sweep *)

Lemma wrap64_idemp a b : wrap64 (wrap64 a + b) = wrap64 (a + b).
Proof.
  unfold wrap64. f_equal.
  replace ((a + 2 ^ 63) `mod` 2 ^ 64 - 2 ^ 63 + b + 2 ^ 63)
    with ((a + 2 ^ 63) `mod` 2 ^ 64 + b) by lia.
  rewrite Zplus_mod_idemp_l. f_equal. lia.
Qed.

Lemma bumped_AddInt64 x n : AddInt64 (bumped x n) 1 = bumped x (n + 1).
Proof.
  unfold AddInt64, bumped. rewrite wrap64_idemp. f_equal. lia.
Qed.

(** Entries that are not expired, or not visited, keep their lookup. *)
Lemma sweep_lookup_kept now (l : list (string * CacheEntry V)) m g k :
  (∀ e, (k, e) ∈ l → ¬ Expiration e < now) →
  (foldl (sweep_step now) (m, g) l).1 !! k = m !! k.
Proof.
  revert m g. induction l as [|[k0 e0] l IH]; intros m g Hk; [done|].
  simpl. unfold sweep_step at 2. simpl. unfold After.
  assert (∀ e, (k, e) ∈ l → ¬ Expiration e < now) as Hk'.
  { intros e Hin. apply Hk. by right. }
  case_bool_decide as Hexp; rewrite IH by done; [|done].
  apply lookup_delete_ne. intros ->. apply (Hk e0); [by left|done].
Qed.

Lemma sweep_lookup_expired now (l : list (string * CacheEntry V)) m g k e :
  (k, e) ∈ l → Expiration e < now →
  (foldl (sweep_step now) (m, g) l).1 !! k = None.
Proof.
  revert m g. induction l as [|[k0 e0] l IH]; intros m g Hin Hexp.
  { by apply elem_of_nil in Hin. }
  simpl. apply elem_of_cons in Hin as [[= <- <-]|Hin].
  2:{ destruct (sweep_step now (m, g) (k0, e0)). by apply IH. }
  unfold sweep_step at 2. simpl. unfold After.
  rewrite bool_decide_eq_true_2 by done.
  eapply lookup_weaken_None; [|apply cache_facts.sweep_subseteq].
  apply lookup_delete_eq.
Qed.

(** The package variables after the loop: [evicted] has advanced once
    for every entry that left the table. *)
Lemma sweep_counts now (l : list (string * CacheEntry V)) m g :
  int64_range (evicted g) →
  NoDup l.*1 → (∀ k e, (k, e) ∈ l → m !! k = Some e) →
  (foldl (sweep_step now) (m, g) l).2
  = {| hits := hits g; misses := misses g;
       evicted := bumped (evicted g)
                    (len m - len (foldl (sweep_step now) (m, g) l).1) |}.
Proof.
  intros Hrange.
  induction l as [|[k e] l IH] using rev_ind; intros Hnd Hin.
  { simpl. unfold bumped. replace (evicted g + (len m - len m))
      with (evicted g) by lia.
    destruct g as [h mi ev]. simpl in *. f_equal.
    unfold wrap64, int64_range in *.
    rewrite Z.mod_small by lia. lia. }
  rewrite fmap_app in Hnd. apply NoDup_app in Hnd as (Hnd & Hfresh & _).
  rewrite foldl_app. simpl.
  assert ((foldl (sweep_step now) (m, g) l).1 !! k = Some e) as Hk.
  { rewrite sweep_lookup_kept.
    - apply Hin, elem_of_app. right. by apply list_elem_of_singleton.
    - intros e' He'. exfalso. apply (Hfresh k).
      + apply list_elem_of_fmap. by exists (k, e').
      + by apply list_elem_of_singleton. }
  assert (∀ k' e', (k', e') ∈ l → m !! k' = Some e') as Hin'.
  { intros k' e' He'. apply Hin, elem_of_app. by left. }
  specialize (IH Hnd Hin').
  unfold sweep_step at 1 3. simpl. unfold After.
  case_bool_decide as Hexp; simpl; [|done].
  rewrite (cache_facts.len_delete_Some k e _ Hk), IH.
  unfold add_evicted. simpl. rewrite bumped_AddInt64. do 2 f_equal. lia.
Qed.


(** X4.  One tick of the [cleanup] goroutine removes exactly the entries
    whose expiration lies before the clock reading, whatever the order
    in which the loop visits the table; it adds their number to
    [evicted] and leaves [hits] and [misses] alone. *)
Theorem cleanup_tick_removes_exactly_the_expired R now c g :
  int64_range (evicted g) →
  cleanup_tick R now c g
  = (with_items c (live now (items c)),
     {| hits := hits g; misses := misses g;
        evicted := bumped (evicted g)
                     (len (items c) - len (live now (items c))) |}).
Proof.
  intros Hrange. unfold cleanup_tick.
  assert ((foldl (sweep_step now) (items c, g) (R (items c))).1
          = live now (items c)) as Hm.
  { apply map_eq. intros k. unfold live.
    destruct (items c !! k) as [e|] eqn:Hk.
    - destruct (decide (Expiration e < now)) as [Hexp|Hexp].
      + rewrite (sweep_lookup_expired now _ _ _ k e);
          [|by apply cache_facts.range_elem|done].
        symmetry. apply map_lookup_filter_None. right.
        intros e' He'. simpl. rewrite Hk in He'. injection He' as <-. tauto.
      + rewrite sweep_lookup_kept.
        * rewrite Hk. symmetry. by apply map_lookup_filter_Some.
        * intros e' He'. apply cache_facts.range_elem in He'.
          rewrite Hk in He'. by injection He' as <-.
    - rewrite sweep_lookup_kept.
      + rewrite Hk. symmetry. apply map_lookup_filter_None. by left.
      + intros e' He'. apply cache_facts.range_elem in He'.
        by rewrite Hk in He'. }
  pose proof (sweep_counts now (R (items c)) (items c) g Hrange) as Hg.
  destruct (foldl (sweep_step now) (items c, g) (R (items c)))
    as [m g1] eqn:Hfold.
  simpl in *. subst m. rewrite Hg; [done| |].
  - rewrite (range_of_perm R (items c)). apply NoDup_fst_map_to_list.
  - intros k e. apply cache_facts.range_elem.
Qed.

(** ** The counters over a run *)

Lemma evictOldest_lookups R c g :
  hits (evictOldest R c g).2 = hits g
  ∧ misses (evictOldest R c g).2 = misses g.
Proof.
  unfold evictOldest. destruct (oldest_scan (R (items c))) as [k t].
  by destruct (negb (IsZero t)).
Qed.

Lemma sweep_lookups now (l : list (string * CacheEntry V)) m g :
  hits (foldl (sweep_step now) (m, g) l).2 = hits g
  ∧ misses (foldl (sweep_step now) (m, g) l).2 = misses g.
Proof.
  induction l as [|kv l IH] using rev_ind; [done|].
  rewrite foldl_app. simpl. unfold sweep_step at 1 3.
  by destruct (After now (Expiration kv.2)).
Qed.

Lemma method_lookups R o c g :
  wrap64 (hits (method R o c g).2 + misses (method R o c g).2)
  = wrap64 (hits g + misses g + (if is_get o then 1 else 0)).
Proof.
  destruct o as [p k v now|p k now|p k|p|p now|p]; simpl;
    rewrite ?Z.add_0_r; try done.
  - unfold Set_. case_bool_decide; [|done].
    destruct (evictOldest_lookups R c g) as [Hh Hm].
    destruct (evictOldest R c g) as [c1 g1]. simpl in *. by rewrite Hh, Hm.
  - unfold Get. destruct (items c !! k) as [e|];
      [destruct (After now (Expiration e))|]; simpl; unfold AddInt64.
    + rewrite Z.add_comm, wrap64_idemp. f_equal. lia.
    + rewrite wrap64_idemp. f_equal. lia.
    + rewrite Z.add_comm, wrap64_idemp. f_equal. lia.
  - unfold cleanup_tick.
    destruct (sweep_lookups now (R (items c)) (items c) g) as [Hh Hm].
    destruct (foldl (sweep_step now) (items c, g) (R (items c)))
      as [m g1]. simpl in *. by rewrite Hh, Hm.
Qed.

(** X5.  Over any run of calls on any instances, the sum of the [hits]
    and [misses] counters advances by the number of [Get] calls in the
    run (on 64 bits): every [Get] counts as exactly one hit or one miss,
    and nothing else counts as either. *)
Theorem every_Get_is_counted_once R ops w w' :
  run R ops w = Some w' →
  wrap64 (hits (globals w') + misses (globals w'))
  = wrap64 (hits (globals w) + misses (globals w) + gets ops).
Proof.
  revert w. induction ops as [|o ops IH]; intros w Hrun.
  { injection Hrun as <-. unfold gets. simpl. by rewrite Z.add_0_r. }
  simpl in Hrun. destruct (exec R o w) as [w1|] eqn:Hex; [|done].
  simpl in Hrun. rewrite (IH w1 Hrun).
  unfold exec in Hex. destruct (heap w !! receiver o) as [c|]; [|done].
  injection Hex as <-. simpl.
  pose proof (method_lookups R o c (globals w)) as Hstep.
  rewrite <-(wrap64_idemp (_ + _) (gets ops)), Hstep, wrap64_idemp.
  f_equal. unfold gets. rewrite filter_cons.
  destruct (is_get o); case_decide; simpl length; (done || lia).
Qed.



(** ** The sweep and later lookups *)

Lemma cleanup_tick_items R now c g :
  items (cleanup_tick R now c g).1 = live now (items c).
Proof.
  unfold cleanup_tick.
  destruct (foldl (sweep_step now) (items c, g) (R (items c)))
    as [m g1] eqn:Hfold. simpl.
  replace m with (foldl (sweep_step now) (items c, g) (R (items c))).1
    by (by rewrite Hfold).
  apply map_eq. intros k. unfold live.
  destruct (items c !! k) as [e|] eqn:Hk.
  - destruct (decide (Expiration e < now)) as [Hexp|Hexp].
    + rewrite (sweep_lookup_expired now _ _ _ k e);
        [|by apply cache_facts.range_elem|done].
      symmetry. apply map_lookup_filter_None. right.
      intros e' He'. simpl. rewrite Hk in He'. injection He' as <-. tauto.
    + rewrite sweep_lookup_kept.
      * rewrite Hk. symmetry. by apply map_lookup_filter_Some.
      * intros e' He'. apply cache_facts.range_elem in He'.
        rewrite Hk in He'. by injection He' as <-.
  - rewrite sweep_lookup_kept.
    + rewrite Hk. symmetry. apply map_lookup_filter_None. by left.
    + intros e' He'. apply cache_facts.range_elem in He'.
      by rewrite Hk in He'.
Qed.

(** X22.  The sweep cannot be seen through [Get]: a lookup made at the
    time of a tick or later gives the same value or miss, and counts the
    same hit or miss, whether or not the tick took place.  What a tick
    changes is the size that [GetStats] reports, which counts expired
    entries until they are swept, and the [evicted] counter. *)
Theorem cleanup_tick_is_invisible_to_Get R now now' key c g g' :
  now ≤ now' →
  Get key now' (cleanup_tick R now c g).1 g' = Get key now' c g'
  ∧ Size (GetStats (cleanup_tick R now c g).1 g') ≤ Size (GetStats c g')
  ∧ (Size (GetStats (cleanup_tick R now c g).1 g') = Size (GetStats c g')
     ↔ ∀ k e, items c !! k = Some e → ¬ Expiration e < now).
Proof.
  intros Hle. split_and!.
  - unfold Get. rewrite cleanup_tick_items. unfold live.
    destruct (items c !! key) as [e|] eqn:Hk.
    + destruct (decide (Expiration e < now)) as [Hexp|Hexp].
      * rewrite (proj2 (map_lookup_filter_None _ (items c) key)).
        -- unfold After. by rewrite bool_decide_eq_true_2 by lia.
        -- right. intros e' He'. simpl. rewrite Hk in He'.
           injection He' as <-. tauto.
      * by rewrite (proj2 (map_lookup_filter_Some _ (items c) key e)).
    + rewrite (proj2 (map_lookup_filter_None _ (items c) key));
        [done|by left].
  - simpl. rewrite cleanup_tick_items. unfold len, live.
    pose proof (map_subseteq_size
                  (filter (λ kv, ¬ Expiration kv.2 < now) (items c))
                  (items c) (map_filter_subseteq _ _)). lia.
  - simpl. rewrite cleanup_tick_items. unfold len, live. split.
    + intros Hsize k e Hk.
      assert (filter (λ kv, ¬ Expiration kv.2 < now) (items c) = items c)
        as Heq.
      { apply map_subseteq_size_eq; [apply map_filter_subseteq|lia]. }
      rewrite <-Heq in Hk. by apply map_lookup_filter_Some in Hk as [_ ?].
    + intros Hall. f_equal. f_equal. apply map_eq. intros k.
      destruct (items c !! k) as [e|] eqn:Hk.
      * apply map_lookup_filter_Some. split; [done|]. by apply (Hall k e).
      * apply map_lookup_filter_None. by left.
Qed.

End cache_more.

(** Replacing the only entry of a cache of capacity one. *)
Lemma Set_of_present_key_witness :
  let c1 : Cache Z :=
    {| items := {[ "a"%string := {| Value := 1; Expiration := 5 |} ]};
       maxSize := 1; ttl := 1000; cancelled := false |} in
  let g0 := {| hits := 0; misses := 0; evicted := 0 |} in
  ∃ k, is_Some (items c1 !! k)
       ∧ (Set_ default_order "a" 2 7 c1 g0).2 = add_evicted g0
       ∧ items (Set_ default_order "a" 2 7 c1 g0).1
         = <["a"%string := {| Value := 2; Expiration := Add 7 (ttl c1) |}]>
             (delete k (items c1))
       ∧ len (items (Set_ default_order "a" 2 7 c1 g0).1)
         = if decide (k = "a"%string) then len (items c1)
           else len (items c1) - 1.
Proof.
  intros c1 g0.
  apply (Set_of_present_key default_order "a" 2 7 c1 g0
           {| Value := 1; Expiration := 5 |}).
  - vm_compute. reflexivity.
  - intros k e Hk. simpl in Hk.
    apply lookup_singleton_Some in Hk as [_ <-]. simpl. lia.
  - vm_compute. discriminate.
Defined.

(** A sweep at time 10 over one expired and one live entry. *)
Lemma cleanup_tick_removes_exactly_the_expired_witness :
  let c1 : Cache Z :=
    {| items := {[ "a"%string := {| Value := 1; Expiration := 5 |};
                   "b"%string := {| Value := 2; Expiration := 10 |} ]};
       maxSize := 4; ttl := 1000; cancelled := false |} in
  let g0 := {| hits := 3; misses := 2; evicted := 1 |} in
  cleanup_tick default_order 10 c1 g0
  = (with_items c1 (live 10 (items c1)),
     {| hits := 3; misses := 2;
        evicted := bumped 1 (len (items c1) - len (live 10 (items c1))) |}).
Proof.
  intros c1 g0.
  apply (cleanup_tick_removes_exactly_the_expired default_order 10 c1 g0).
  unfold int64_range. simpl. lia.
Defined.

(** Two lookups among other calls on one cache. *)
Lemma every_Get_is_counted_once_witness :
  let w : World Z :=
    {| globals := {| hits := 0; misses := 0; evicted := 0 |};
       heap := {[ 0%nat := {| items := ∅; maxSize := 2; ttl := 1000;
                              cancelled := false |} ]} |} in
  let ops := [OpSet 0 "a" 1 5; OpGet 0 "a" 6; OpGet 0 "b" 7; OpClear 0] in
  ∃ w', run default_order ops w = Some w'
    ∧ wrap64 (hits (globals w') + misses (globals w'))
      = wrap64 (hits (globals w) + misses (globals w) + gets ops).
Proof.
  intros w ops.
  destruct (run default_order ops w) as [w'|] eqn:Hrun.
  - exists w'. split; [reflexivity|].
    apply (every_Get_is_counted_once default_order ops w w' Hrun).
  - vm_compute in Hrun. discriminate Hrun.
Defined.


(** A lookup at time 12 around a sweep at time 10. *)
Lemma cleanup_tick_is_invisible_to_Get_witness :
  let c1 : Cache Z :=
    {| items := {[ "a"%string := {| Value := 1; Expiration := 5 |};
                   "b"%string := {| Value := 2; Expiration := 20 |} ]};
       maxSize := 4; ttl := 1000; cancelled := false |} in
  let g0 := {| hits := 3; misses := 2; evicted := 1 |} in
  Get "b" 12 (cleanup_tick default_order 10 c1 g0).1 g0 = Get "b" 12 c1 g0
  ∧ Size (GetStats (cleanup_tick default_order 10 c1 g0).1 g0)
    ≤ Size (GetStats c1 g0)
  ∧ (Size (GetStats (cleanup_tick default_order 10 c1 g0).1 g0)
     = Size (GetStats c1 g0)
     ↔ ∀ k e, items c1 !! k = Some e → ¬ Expiration e < 10).
Proof.
  intros c1 g0.
  apply (cleanup_tick_is_invisible_to_Get default_order 10 12 "b" c1 g0 g0).
  lia.
Defined.

End cache_more.

(* ===================================================================== *)
(** * Further facts: the state and the prompt builder                     *)
(* ===================================================================== *)

Module state_more.
Import state state_terms samples.

Section state_more.
Context {V Vec Tool : Type}.
Implicit Types (s : State V Vec Tool) (tb : PromptBuilder V).
Implicit Types (L : TemplateLib V Vec Tool) (data : list (StateData V)).

Lemma foldl_insert_latest data (m : gmap string V) key :
  foldl (λ m d, <[Key d := sd_Value d]> m) m data !! key
  = match latest key data with Some v => Some v | None => m !! key end.
Proof.
  induction data as [|d data IH] using rev_ind; [done|].
  rewrite foldl_app. simpl. unfold latest. rewrite filter_app, filter_cons.
  case_decide as Hd.
  - rewrite filter_nil, last_snoc. simpl. rewrite <-Hd.
    apply lookup_insert_eq.
  - rewrite filter_nil, app_nil_r. rewrite lookup_insert_ne by done.
    apply IH.
Qed.

(** X8.  [AddManagerData] against later reads: a key is read with the
    value of the last pair of the slice that carries it, and as before
    when no pair does; a nil map is made first; the custom data is not
    touched; two calls in a row are one call with the slices appended. *)
Theorem AddManagerData_last_pair_wins data s key :
  GetManagerData key (AddManagerData data s)
  = match latest key data with
    | Some v => Some v
    | None => GetManagerData key s
    end
  ∧ is_Some (managerData (AddManagerData data s))
  ∧ GetCustomData key (AddManagerData data s) = GetCustomData key s
  ∧ ∀ data', AddManagerData data' (AddManagerData data s)
             = AddManagerData (data ++ data') s.
Proof.
  split_and!.
  - unfold GetManagerData, AddManagerData. simpl.
    rewrite foldl_insert_latest.
    destruct (latest key data); [done|]. by destruct (managerData s).
  - by eexists.
  - done.
  - intros data'. unfold AddManagerData. simpl. by rewrite foldl_app.
Qed.

(** X9.  [AddCustomData] against later reads: the key reads as the value
    just stored, also on a state whose map was nil and also when the key
    was stored before; every other key reads as before; the manager data
    is not touched, and [AddManagerData] and [AddCustomData] commute. *)
Theorem AddCustomData_then_GetCustomData key value s k :
  GetCustomData k (AddCustomData key value s)
  = (if decide (k = key) then Some value else GetCustomData k s)
  ∧ GetManagerData k (AddCustomData key value s) = GetManagerData k s
  ∧ ∀ data, AddManagerData data (AddCustomData key value s)
            = AddCustomData key value (AddManagerData data s).
Proof.
  split_and!.
  - unfold GetCustomData, AddCustomData. simpl. case_decide as Hk.
    + subst k. apply lookup_insert_eq.
    + rewrite lookup_insert_ne by done. by destruct (customData s).
  - done.
  - done.
Qed.

(** ** The template data *)

Lemma assign_all_lookup (m : gmap string V)
    (data : gmap string (DataValue V Vec Tool)) k :
  assign_all m data !! k
  = match m !! k with Some v => Some (AnyValue v) | None => data !! k end.
Proof.
  unfold assign_all.
  apply (map_fold_weak_ind
           (λ r m, r !! k = match m !! k with
                            | Some v => Some (AnyValue v)
                            | None => data !! k
                            end)); [done|].
  intros i x m' r Hi IH. destruct (decide (k = i)) as [->|Hk].
  - by rewrite !lookup_insert_eq.
  - by rewrite !lookup_insert_ne.
Qed.

(** X10.  What a template sees under a name: the custom data of the
    state first, then the manager data bound on the builder, then the
    exported fields of the state.  So a value stored with
    [AddCustomData] is seen under its key whatever else carries that
    name, and a key bound with [WithManagerData] is seen with the value
    of the manager data unless the custom data holds the key. *)
Theorem section_data_precedence tb s k :
  section_data tb s !! k
  = match GetCustomData k s with
    | Some v => Some (AnyValue v)
    | None =>
        match stateData tb !! k with
        | Some v => Some (AnyValue v)
        | None => state_fields s !! k
        end
    end
  ∧ (∀ value, section_data tb (AddCustomData k value s) !! k
              = Some (AnyValue value))
  ∧ (∀ value, err tb = None → GetManagerData k s = Some value →
              GetCustomData k s = None →
              section_data (WithManagerData k tb s) s !! k
              = Some (AnyValue value)).
Proof.
  assert (∀ tb s, section_data tb s !! k
          = match GetCustomData k s with
            | Some v => Some (AnyValue v)
            | None =>
                match stateData tb !! k with
                | Some v => Some (AnyValue v)
                | None => state_fields s !! k
                end
            end) as Hdata.
  { intros tb' s'. unfold section_data. rewrite !assign_all_lookup.
    unfold GetCustomData, made. by destruct (customData s'). }
  split_and!.
  - apply Hdata.
  - intros value. rewrite Hdata. unfold GetCustomData, AddCustomData. simpl.
    by rewrite lookup_insert_eq.
  - intros value He Hk Hc. rewrite Hdata, Hc. unfold WithManagerData.
    rewrite He, Hk. simpl. by rewrite lookup_insert_eq.
Qed.

(** ** The batch form *)

Lemma WithManagerDataBatch_unfold keys tb s :
  WithManagerDataBatch keys tb s
  = foldl (λ tb key, WithManagerData key tb s) tb keys.
Proof.
  revert tb. induction keys as [|key keys IH]; intros tb; [done|].
  simpl. destruct (err (WithManagerData key tb s)) as [e|] eqn:He.
  - generalize dependent (WithManagerData key tb s). clear.
    intros tb' He. induction keys as [|key' keys IH]; [done|].
    simpl. unfold WithManagerData at 2. by rewrite He.
  - apply IH.
Qed.

(** X11.  [WithManagerDataBatch] is the chain of [WithManagerData] calls
    on its keys.  On a builder without error it ends with the error that
    names the first key the manager data does not hold, or without error
    when there is none; the keys before that one are bound all the same,
    the keys after it are not looked at, and sections and helpers stay as
    they were. *)
Theorem WithManagerDataBatch_stops_at_first_missing keys tb s :
  err tb = None →
  WithManagerDataBatch keys tb s
  = foldl (λ tb key, WithManagerData key tb s) tb keys
  ∧ err (WithManagerDataBatch keys tb s)
    = (λ key, Errorf ("manager data for key " +:+ key +:+ " not found"))
        <$> first_missing keys s
  ∧ (∀ k, stateData (WithManagerDataBatch keys tb s) !! k
          = if decide (k ∈ found_prefix keys s) then GetManagerData k s
            else stateData tb !! k)
  ∧ sections (WithManagerDataBatch keys tb s) = sections tb
  ∧ helpers (WithManagerDataBatch keys tb s) = helpers tb.
Proof.
  intros He. split; [apply WithManagerDataBatch_unfold|].
  revert tb He. induction keys as [|key keys IH]; intros tb He.
  { simpl. by split_and!. }
  cbn [WithManagerDataBatch found_prefix]. unfold first_missing.
  rewrite filter_cons.
  destruct (GetManagerData key s) as [v|] eqn:Hkey.
  - assert (WithManagerData key tb s
            = {| sections := sections tb;
                 stateData := <[key := v]> (stateData tb);
                 helpers := helpers tb; err := None |}) as ->.
    { unfold WithManagerData. by rewrite He, Hkey. }
    cbn [err]. rewrite decide_False by done.
    match goal with |- context [WithManagerDataBatch keys ?t s] =>
      destruct (IH t) as (IH1 & IH2 & IH3 & IH4); [done|] end.
    cbn [stateData sections helpers] in *. split_and!; try done.
    intros k. rewrite IH2.
    destruct (decide (k = key)) as [->|Hne].
    + rewrite (decide_True (P := key ∈ key :: _)) by apply list_elem_of_here.
      case_decide; [done|]. by rewrite lookup_insert_eq.
    + rewrite lookup_insert_ne by done.
      case_decide as Hin; case_decide as Hin'; try done.
      * exfalso. apply Hin'. by right.
      * apply elem_of_cons in Hin' as [?|?]; done.
  - assert (WithManagerData key tb s
            = {| sections := sections tb; stateData := stateData tb;
                 helpers := helpers tb;
                 err := Some (Errorf ("manager data for key " +:+ key
                                        +:+ " not found")) |}) as ->.
    { unfold WithManagerData. by rewrite He, Hkey. }
    cbn [err stateData sections helpers]. rewrite decide_True by done.
    by split_and!.
Qed.

(** ** [Compose], all or nothing *)

Lemma compose_loop_all_or_nothing L tb s secs messages :
  (∃ msgs, compose_loop L tb s secs messages = (messages ++ msgs, None)
           ∧ Forall2 (rendered L tb s) secs msgs)
  ∨ (∃ e, compose_loop L tb s secs messages = ([], Some e)
          ∧ ∃ sec, sec ∈ secs ∧ ¬ ∃ msg, rendered L tb s sec msg).
Proof.
  revert messages. induction secs as [|sec secs IH]; intros messages.
  { left. exists []. by rewrite app_nil_r. }
  simpl. destruct (Parse L (helpers tb) (Template sec)) as [tmpl|e] eqn:HP.
  - destruct (Execute L tmpl (section_data tb s)) as [buf|e] eqn:HE.
    + destruct (IH (messages ++
                      [{| llm.Role := Role sec; llm.Content := buf;
                          llm.Name := Name sec; llm.ToolCall := None |}]))
        as [(msgs & Hl & Hr)|(e & Hl & sec' & Hin & Hno)].
      * left. eexists (_ :: msgs). rewrite Hl, <-app_assoc. split; [done|].
        apply Forall2_cons. split; [|done]. by exists tmpl, buf.
      * right. exists e. split; [done|]. exists sec'. split; [by right|done].
    + right. eexists. split; [done|]. exists sec. split; [by left|].
      intros (msg & tmpl' & buf & HP' & HE' & _).
      rewrite HP in HP'. injection HP' as <-. by rewrite HE in HE'.
  - right. eexists. split; [done|]. exists sec. split; [by left|].
    intros (msg & tmpl' & buf & HP' & _). by rewrite HP in HP'.
Qed.

(** X12.  [Compose] returns all the messages or none: either no error
    and one message per section, in order, each rendered from its
    section, or an error and no message at all, the messages rendered
    before the failure being dropped.  It fails exactly when the builder
    carries an error or some section does not render. *)
Theorem Compose_all_or_nothing L tb s :
  ((∃ msgs, Compose L tb s = (msgs, None)
            ∧ Forall2 (rendered L tb s) (sections tb) msgs)
   ∨ (∃ e, Compose L tb s = ([], Some e)))
  ∧ ((Compose L tb s).2 = None
     ↔ err tb = None
       ∧ Forall (λ sec, ∃ msg, rendered L tb s sec msg) (sections tb)).
Proof.
  unfold Compose. destruct (err tb) as [e|] eqn:He.
  { split; [right; by exists e|]. simpl. split; [done|by intros [? _]]. }
  destruct (compose_loop_all_or_nothing L tb s (sections tb) [])
    as [(msgs & Hl & Hr)|(e & Hl & sec & Hin & Hno)].
  - split; [left; by exists msgs|]. rewrite Hl. simpl. split; [|done].
    intros _. split; [done|]. apply Forall_forall. intros sec Hin.
    apply list_elem_of_lookup in Hin as [i Hi].
    destruct (Forall2_lookup_l _ _ _ _ _ Hr Hi) as (msg & _ & Hmsg).
    by exists msg.
  - split; [right; by exists e|]. rewrite Hl. simpl. split; [done|].
    intros [_ Hall]. rewrite Forall_forall in Hall. exfalso.
    by apply Hno, Hall.
Qed.

(** ** Chains of calls *)

Lemma WithManagerDataBatch_sections keys tb s :
  sections (WithManagerDataBatch keys tb s) = sections tb.
Proof.
  revert tb. induction keys as [|key keys IH]; intros tb; [done|].
  simpl.
  assert (sections (WithManagerData key tb s) = sections tb) as Hone.
  { unfold WithManagerData. destruct (err tb); [done|].
    by destruct (GetManagerData key s). }
  destruct (err (WithManagerData key tb s)); [done|]. by rewrite IH.
Qed.

Lemma WithManagerDataBatch_err keys tb s :
  err (WithManagerDataBatch keys tb s) = None → err tb = None.
Proof.
  destruct (err tb) as [e|] eqn:He; [|done].
  by rewrite (state_facts.WithManagerDataBatch_poisoned tb s keys e He), He.
Qed.

Lemma call_sections (c : Call V Tool) tb s :
  (sections (call c tb s).1 = sections tb
   ∨ sections (call c tb s).1 = sections tb ++ option_list (section_of c))
  ∧ (err (call c tb s).1 = None →
     err tb = None
     ∧ sections (call c tb s).1 = sections tb ++ option_list (section_of c))
  ∧ state.Tools (call c tb s).2 = state.Tools s ++ tools_of c
  ∧ managerData (call c tb s).2 = managerData s
  ∧ customData (call c tb s).2 = customData s.
Proof.
  destruct c as [name fn|role text|role text name|text|text name|text
                |key|keys|tools|tools]; simpl;
    unfold AddSystemSection, AddUserSection, AddAssistantSection, AddSection,
      AddSectionWithName, WithHelper, WithManagerData;
    rewrite ?app_nil_r, ?WithManagerDataBatch_sections.
  all: try (destruct (err tb) eqn:He; simpl; rewrite ?app_nil_r).
  all: try (destruct (GetManagerData key s); simpl).
  all: split_and!; try done; try (by left); try (by right).
  all: try (intros Hn; congruence).
  all: try (intros Hb; apply WithManagerDataBatch_err in Hb; congruence).
  all: try (intros Hb; split; [|done];
            by apply (WithManagerDataBatch_err keys tb s)).
Qed.

(** X23.  A chain of builder calls only ever appends sections, in the
    order of the calls: the sections of the builder afterwards are those
    it had followed by some of the sections asked for, and by all of
    them when the chain ends without error.  The tools of every
    [WithTools] and [WithToolkit] call of the chain are appended to the
    tools of the state, error or not, and no call writes to the manager
    data or the custom data. *)
Theorem builder_calls_accumulate (cs : list (Call V Tool)) tb s :
  (∃ added, sections (call_all cs (tb, s)).1 = sections tb ++ added
            ∧ added `sublist_of` omap section_of cs)
  ∧ (err (call_all cs (tb, s)).1 = None →
     err tb = None
     ∧ sections (call_all cs (tb, s)).1 = sections tb ++ omap section_of cs)
  ∧ state.Tools (call_all cs (tb, s)).2
    = state.Tools s ++ mjoin (tools_of <$> cs)
  ∧ managerData (call_all cs (tb, s)).2 = managerData s
  ∧ customData (call_all cs (tb, s)).2 = customData s.
Proof.
  revert tb s. induction cs as [|c cs IH]; intros tb s.
  { simpl. rewrite !app_nil_r. split_and!; try done.
    exists []. by rewrite app_nil_r. }
  unfold call_all in *. cbn [foldl fst snd].
  destruct (call c tb s) as [tb1 s1] eqn:Hcall.
  destruct (call_sections c tb s) as (Hsec & Herr & Htools & Hm & Hc).
  rewrite Hcall in Hsec, Herr, Htools, Hm, Hc. simpl in *.
  destruct (IH tb1 s1) as ((added & Hadd & Hsub) & IHerr & IHtools & IHm & IHc).
  split_and!.
  - destruct Hsec as [Hsec|Hsec]; rewrite Hadd, Hsec.
    + exists added. split; [done|].
      destruct (section_of c); [by constructor|done].
    + rewrite <-app_assoc. eexists. split; [done|].
      destruct (section_of c); simpl; [by constructor|done].
  - intros Hnone. destruct (IHerr Hnone) as [He1 Hs1].
    destruct (Herr He1) as [He Hs]. split; [done|].
    rewrite Hs1, Hs, <-app_assoc. by destruct (section_of c).
  - by rewrite IHtools, Htools, <-app_assoc.
  - by rewrite IHm.
  - by rewrite IHc.
Qed.

End state_more.

(** A batch of three keys of which the second is missing. *)
Lemma WithManagerDataBatch_stops_at_first_missing_witness :
  let s0 : State Z unit string :=
    AddManagerData [{| Key := "mood"; sd_Value := 1 |};
                    {| Key := "tone"; sd_Value := 2 |}] NewState in
  let keys := ["mood"; "topic"; "tone"]%string in
  WithManagerDataBatch keys NewPromptBuilder s0
  = foldl (λ tb key, WithManagerData key tb s0) NewPromptBuilder keys
  ∧ err (WithManagerDataBatch keys NewPromptBuilder s0)
    = (λ key, Errorf ("manager data for key " +:+ key +:+ " not found"))
        <$> first_missing keys s0
  ∧ (∀ k, stateData (WithManagerDataBatch keys NewPromptBuilder s0) !! k
          = if decide (k ∈ found_prefix keys s0) then GetManagerData k s0
            else stateData (NewPromptBuilder (V := Z)) !! k)
  ∧ sections (WithManagerDataBatch keys NewPromptBuilder s0)
    = sections (NewPromptBuilder (V := Z))
  ∧ helpers (WithManagerDataBatch keys NewPromptBuilder s0)
    = helpers (NewPromptBuilder (V := Z)).
Proof.
  intros s0 keys.
  apply (WithManagerDataBatch_stops_at_first_missing keys NewPromptBuilder s0).
  reflexivity.
Defined.

End state_more.

(* ===================================================================== *)
(** * Further facts: the engine                                           *)
(* ===================================================================== *)

Module engine_more.
Import engine engine_terms samples.

Section engine_more.
Context {V Vec Tool W : Type}.

#[local] Abbreviation Manager := (manager.Manager V Vec Tool W).
#[local] Abbreviation Engine := (engine.Engine V Vec Tool W).
#[local] Abbreviation Sys := (engine.Sys V Vec Tool W).

Implicit Types (e : Engine) (m : Manager) (ms : list Manager) (y : Sys).
Implicit Types (id dep : string) (order : list string).

Lemma check_order_first (mm : gmap string bool) order :
  check_order mm order
  = (λ id, Errorf ("manager " +:+ id
                     +:+ " specified in order but not provided"))
      <$> head (filter (λ id, holds mm id ≠ true) order).
Proof.
  induction order as [|id order IH]; [done|].
  simpl. rewrite filter_cons. destruct (holds mm id) eqn:Hid.
  - by rewrite decide_False by (by intros ?).
  - by rewrite decide_True by done.
Qed.

Lemma WithManagerOrder_first_unregistered order e :
  WithManagerOrder order e
  = match first_unregistered order e with
    | None => (set_managerOrder e order, None)
    | Some id =>
        (e, Some (Errorf ("manager " +:+ id
                            +:+ " specified in order but not provided")))
    end.
Proof.
  unfold WithManagerOrder, first_unregistered.
  rewrite check_order_first.
  replace (filter (λ id, holds (registered (managers e)) id ≠ true) order)
    with (filter (λ id, id ∉ ids (managers e)) order).
  - by destruct (head _).
  - apply list_filter_iff. intros id.
    by rewrite engine_facts.registered_holds.
Qed.

Lemma WithManagerOrder_cases order e :
  (WithManagerOrder order e = (set_managerOrder e order, None)
   ∧ ∀ id, id ∈ order → id ∈ ids (managers e))
  ∨ (∃ id, WithManagerOrder order e
           = (e, Some (Errorf ("manager " +:+ id
                                 +:+ " specified in order but not provided")))
           ∧ id ∈ order ∧ (id ∉ ids (managers e))).
Proof.
  rewrite WithManagerOrder_first_unregistered. unfold first_unregistered.
  destruct (filter (λ id, id ∉ ids (managers e)) order) as [|id l] eqn:Hf.
  - left. split; [done|]. intros id Hid.
    destruct (decide (id ∈ ids (managers e))) as [|Hn]; [done|].
    assert (id ∈ filter (λ id, id ∉ ids (managers e)) order) as Hin
      by (by apply list_elem_of_filter).
    rewrite Hf in Hin. by apply elem_of_nil in Hin.
  - right. exists id. split; [done|].
    assert (id ∈ filter (λ id, id ∉ ids (managers e)) order) as Hin
      by (rewrite Hf; apply list_elem_of_here).
    by apply list_elem_of_filter in Hin as [Hn Hin].
Qed.

(** X13.  [WithManagerOrder] accepts an order exactly when each of its
    identifiers is registered, and otherwise reports the first one that
    is not, leaving the engine as it was.  Identifiers may repeat and
    registered managers may be left out; the empty order is accepted on
    any engine.  The managers are never changed, and [Process], which
    does not read the order, runs as without it. *)
Theorem WithManagerOrder_checks_registration order e :
  WithManagerOrder order e
  = match first_unregistered order e with
    | None => (set_managerOrder e order, None)
    | Some id =>
        (e, Some (Errorf ("manager " +:+ id
                            +:+ " specified in order but not provided")))
    end
  ∧ ((WithManagerOrder order e).2 = None
     ↔ ∀ id, id ∈ order → id ∈ ids (managers e))
  ∧ WithManagerOrder [] e = (set_managerOrder e [], None)
  ∧ managers (WithManagerOrder order e).1 = managers e
  ∧ ∀ sched y,
      Process (WithManagerOrder order e).1 sched y = Process e sched y.
Proof.
  split_and!.
  - apply WithManagerOrder_first_unregistered.
  - destruct (WithManagerOrder_cases order e)
      as [(-> & Hall)|(id & -> & Hin & Hno)]; simpl.
    + done.
    + split; [done|]. intros Hall. exfalso. by apply Hno, Hall.
  - done.
  - by destruct (WithManagerOrder_cases order e)
      as [(-> & _)|(id & -> & _)].
  - intros sched y.
    by destruct (WithManagerOrder_cases order e)
      as [(-> & _)|(id & -> & _)].
Qed.

(** ** The registration invariant *)

Lemma AddManager_cases m e :
  (AddManager m e = (set_managers e (managers e ++ [m]), None)
   ∧ (manager.GetID m ∉ ids (managers e))
   ∧ ∀ dep, dep ∈ manager.GetDependencies m → dep ∈ ids (managers e))
  ∨ (∃ err, AddManager m e = (e, Some err)
            ∧ (manager.GetID m ∈ ids (managers e)
               ∨ ∃ dep, dep ∈ manager.GetDependencies m
                        ∧ (dep ∉ ids (managers e)))).
Proof.
  unfold AddManager. rewrite engine_facts.find_duplicate_spec.
  case_bool_decide as Hdup.
  { right. eexists. split; [done|]. by left. }
  pose proof (engine_facts.missing_dep_spec
                (holds (registered (managers e))) (manager.GetID m)
                (manager.GetDependencies m)) as Hdep.
  destruct (missing_dep _ _ _) as [err|].
  - right. exists err. split; [done|]. right.
    destruct Hdep as (dep & Hin & Hno & _). exists dep. split; [done|].
    intros Hreg%engine_facts.registered_holds. congruence.
  - left. split_and!; [done..|]. intros dep Hin.
    by apply engine_facts.registered_holds, Hdep.
Qed.

Lemma WithManagers_cases ms e :
  (WithManagers ms e = (set_managers e ms, None)
   ∧ NoDup (ids ms)
   ∧ ∀ m dep, m ∈ ms → dep ∈ manager.GetDependencies m → dep ∈ ids ms)
  ∨ (∃ err, WithManagers ms e = (e, Some err)
            ∧ (¬ NoDup (ids ms)
               ∨ ∃ m dep, m ∈ ms ∧ dep ∈ manager.GetDependencies m
                          ∧ (dep ∉ ids ms))).
Proof.
  unfold WithManagers. pose proof (engine_facts.collect_spec ms ∅) as Hc.
  destruct (collect ms ∅) as [available|err].
  2:{ right. eexists. split; [done|]. left.
      destruct Hc as (pre & m & post & -> & Hseen & _). intros Hnd.
      unfold ids in Hnd. rewrite fmap_app in Hnd. simpl in Hnd.
      apply NoDup_app in Hnd as (_ & Hnd & _).
      destruct Hseen as [Hseen|Hseen].
      - rewrite lookup_empty in Hseen. by destruct Hseen.
      - apply (Hnd _ Hseen). apply list_elem_of_here. }
  destruct Hc as (Hnd & _ & Hdom).
  pose proof (engine_facts.check_deps_spec ms available) as Hd.
  destruct (check_deps ms available) as [err|].
  - right. eexists. split; [done|]. right.
    destruct Hd as (m & dep & Hm & Hdep & Hno & _).
    exists m, dep. split_and!; [done..|]. intros Hin.
    assert (is_Some (available !! dep)) as Hs by (apply Hdom; by right).
    rewrite Hno in Hs. by destruct Hs.
  - left. split_and!; [done..|]. intros m dep Hm Hdep.
    destruct (proj1 (Hdom dep) (Hd m dep Hm Hdep)) as [Hin|Hin]; [|done].
    rewrite lookup_empty in Hin. by destruct Hin.
Qed.

(** X14.  The engine's registration functions keep its managers well
    formed: identifiers pairwise distinct and every dependency
    registered.  [AddManager] and [WithManagerOrder] also keep the
    configured order within the registered managers; [WithManagers] does
    not look at the order, which stays within the registered managers
    exactly when the new managers provide each of its identifiers. *)
Theorem registration_keeps_engine_well_formed e :
  well_formed e →
  (∀ m, well_formed (AddManager m e).1)
  ∧ (∀ order, well_formed (WithManagerOrder order e).1)
  ∧ (∀ ms, well_formed (WithManagers ms e).1)
  ∧ (order_registered e →
     (∀ m, order_registered (AddManager m e).1)
     ∧ (∀ order, order_registered (WithManagerOrder order e).1))
  ∧ (∀ ms, (WithManagers ms e).2 = None →
           managerOrder (WithManagers ms e).1 = managerOrder e
           ∧ (order_registered (WithManagers ms e).1
              ↔ ∀ id, id ∈ managerOrder e → id ∈ ids ms)).
Proof.
  intros [Hnd Hdeps]. split_and!.
  - intros m. destruct (AddManager_cases m e)
      as [(-> & Hfresh & Hm)|(err & -> & _)]; [|done].
    split; simpl.
    + unfold ids. rewrite fmap_app. apply NoDup_app. split_and!; [done| |].
      * intros id Hid Hid'. apply list_elem_of_singleton in Hid'.
        by subst id.
      * apply NoDup_singleton.
    + intros m' dep Hm' Hdep. unfold ids. rewrite fmap_app.
      apply elem_of_app. left.
      apply elem_of_app in Hm' as [Hm'|Hm'%list_elem_of_singleton].
      * by apply (Hdeps m' dep).
      * subst m'. by apply Hm.
  - intros order.
    by destruct (WithManagerOrder_cases order e)
      as [(-> & _)|(id & -> & _)].
  - intros ms. destruct (WithManagers_cases ms e)
      as [(-> & Hnd' & Hdeps')|(err & -> & _)]; done.
  - intros Hord. split.
    + intros m. destruct (AddManager_cases m e)
        as [(-> & _)|(err & -> & _)]; [|done].
      intros id Hid. simpl in *. unfold ids. rewrite fmap_app.
      apply elem_of_app. left. by apply Hord.
    + intros order.
      by destruct (WithManagerOrder_cases order e)
        as [(-> & Hall)|(id & -> & _)].
  - intros ms Hok. destruct (WithManagers_cases ms e)
      as [(Heq & _)|(err & Heq & _)]; rewrite Heq in Hok |- *; done.
Qed.

(** ** Adding the managers one at a time *)

Lemma buildable_closed (base : list string) ms :
  buildable base ms → NoDup base →
  NoDup (base ++ ids ms)
  ∧ ∀ m dep, m ∈ ms → dep ∈ manager.GetDependencies m →
             dep ∈ base ++ ids ms.
Proof.
  revert base. induction ms as [|m ms IH]; intros base Hb Hnd.
  { simpl. rewrite app_nil_r. split; [done|]. intros m dep Hm.
    by apply elem_of_nil in Hm. }
  destruct Hb as (Hfresh & Hdeps & Hb).
  destruct (IH _ Hb) as [Hnd' Hcl].
  { apply NoDup_app. split_and!; [done| |apply NoDup_singleton].
    intros id Hid Hid'%list_elem_of_singleton. by subst id. }
  simpl. rewrite <-app_assoc in Hnd', Hcl. simpl in *. split; [done|].
  intros m' dep Hm' Hdep. apply elem_of_cons in Hm' as [->|Hm'].
  - apply elem_of_app. left. by apply Hdeps.
  - by apply (Hcl m' dep).
Qed.

Lemma add_each_cases ms e :
  (add_each ms e = (set_managers e (managers e ++ ms), None)
   ∧ buildable (ids (managers e)) ms)
  ∨ (∃ pre m post err,
       ms = pre ++ m :: post
       ∧ add_each ms e = (set_managers e (managers e ++ pre), Some err)
       ∧ ¬ buildable (ids (managers e)) ms).
Proof.
  revert e. induction ms as [|m ms IH]; intros e.
  { left. simpl. rewrite app_nil_r. split; [by destruct e|done]. }
  simpl. destruct (AddManager_cases m e)
    as [(-> & Hfresh & Hdeps)|(err & -> & Hwhy)].
  - destruct (IH (set_managers e (managers e ++ [m])))
      as [(-> & Hb)|(pre & m' & post & err & -> & -> & Hnb)]; simpl in *;
      unfold ids in *; rewrite fmap_app in *; simpl in *.
    + left. rewrite <-app_assoc. by split.
    + right. exists (m :: pre), m', post, err. rewrite <-app_assoc.
      split_and!; [done..|]. intros (_ & _ & Hb). by apply Hnb.
  - right. exists [], m, ms, err. rewrite app_nil_r.
    split_and!; [done|by destruct e|].
    intros (Hfresh & Hdeps & _).
    destruct Hwhy as [Hdup|(dep & Hdep & Hno)]; [done|].
    by apply Hno, Hdeps.
Qed.

(** X15.  Registering managers one at a time with [AddManager] succeeds
    exactly when each manager is new and finds all its dependencies
    among the managers before it; at the first failure the managers
    added so far stay registered.  When it succeeds on an engine without
    managers, [WithManagers] with the same managers gives the same
    engine.  [WithManagers] itself takes the managers in any order: its
    success does not change under a permutation, and it accepts a
    manager that depends on itself, which [AddManager] never does. *)
Theorem AddManager_one_at_a_time ms e :
  ((add_each ms e).2 = None ↔ buildable (ids (managers e)) ms)
  ∧ (∃ pre, pre `prefix_of` ms
            ∧ (add_each ms e).1 = set_managers e (managers e ++ pre)
            ∧ ((add_each ms e).2 = None → pre = ms))
  ∧ (managers e = [] → (add_each ms e).2 = None →
     WithManagers ms e = add_each ms e)
  ∧ (∀ ms', ms ≡ₚ ms' →
            ((WithManagers ms e).2 = None ↔ (WithManagers ms' e).2 = None))
  ∧ (∀ m, manager.GetID m ∈ manager.GetDependencies m →
          is_Some (AddManager m e).2
          ∧ (manager.GetDependencies m = [manager.GetID m] →
             WithManagers [m] e = (set_managers e [m], None))).
Proof.
  split_and!.
  - destruct (add_each_cases ms e)
      as [(-> & Hb)|(pre & m & post & err & _ & -> & Hnb)]; simpl.
    + done.
    + split; [done|]. intros Hb. by destruct Hnb.
  - destruct (add_each_cases ms e)
      as [(-> & Hb)|(pre & m & post & err & -> & -> & Hnb)]; simpl.
    + by exists ms.
    + exists pre. split_and!; [by eexists|done..].
  - intros Hempty.
    destruct (add_each_cases ms e)
      as [(-> & Hb)|(pre & m & post & err & _ & -> & Hnb)]; [|done].
    intros _. rewrite Hempty in *. simpl in *.
    destruct (buildable_closed [] ms Hb) as [Hnd Hcl]; [constructor|].
    simpl in *.
    destruct (WithManagers_cases ms e)
      as [(-> & _)|(err & _ & [Hno|(m & dep & Hm & Hdep & Hno)])].
    + done.
    + done.
    + exfalso. by apply Hno, (Hcl m dep).
  - assert (∀ ms1 ms2, ms1 ≡ₚ ms2 → (WithManagers ms1 e).2 = None →
                       (WithManagers ms2 e).2 = None) as Hperm.
    { intros ms1 ms2 Hp Hok.
      destruct (WithManagers_cases ms1 e)
        as [(_ & Hnd & Hcl)|(err & Heq & _)]; [|by rewrite Heq in Hok].
      assert (ids ms1 ≡ₚ ids ms2) as Hids by (unfold ids; by rewrite Hp).
      destruct (WithManagers_cases ms2 e)
        as [(-> & _)|(err & _ & [Hno|(m & dep & Hm & Hdep & Hno)])].
      - done.
      - exfalso. apply Hno. by rewrite <-Hids.
      - exfalso. apply Hno. rewrite <-Hids. apply (Hcl m dep); [|done].
        by rewrite Hp. }
    intros ms' Hp. split; apply Hperm; done.
  - intros m Hself. split.
    + destruct (AddManager_cases m e)
        as [(_ & Hfresh & Hdeps)|(err & -> & _)]; [|by eexists].
      exfalso. by apply Hfresh, Hdeps.
    + intros Honly.
      destruct (WithManagers_cases [m] e)
        as [(-> & _)|(err & _ & [Hno|(m' & dep & Hm & Hdep & Hno)])].
      * done.
      * exfalso. apply Hno. simpl. apply NoDup_singleton.
      * exfalso. apply list_elem_of_singleton in Hm. subst m'.
        rewrite Honly in Hdep. apply list_elem_of_singleton in Hdep.
        subst dep. apply Hno. simpl. apply list_elem_of_here.
Qed.

(** ** A configured order and the managers added after it *)

Lemma callable_of_order order e :
  order ≠ [] →
  callable (set_managerOrder e order)
  = omap (λ id, managerMap (managers e) !! id) order.
Proof.
  intros Hne. unfold callable, executionOrder. simpl.
  rewrite bool_decide_eq_false_2; [done|]. by destruct order.
Qed.

(** X16.  Once [WithManagerOrder] has accepted an order that is not
    empty, [PostProcess] goes through exactly the managers it names, in
    that order.  A manager registered afterwards with [AddManager] that
    the order does not name is not post-processed: [PostProcess] runs as
    before it was added. *)
Theorem configured_order_is_what_PostProcess_runs order e :
  order ≠ [] →
  (WithManagerOrder order e).2 = None →
  ids (callable (WithManagerOrder order e).1) = order
  ∧ ∀ m, (manager.GetID m ∉ order) →
         (AddManager m (WithManagerOrder order e).1).2 = None →
         callable (AddManager m (WithManagerOrder order e).1).1
         = callable (WithManagerOrder order e).1
         ∧ ∀ (response : db.Fragment.t V Vec) y,
             PostProcess (AddManager m (WithManagerOrder order e).1).1
               response y
             = PostProcess (WithManagerOrder order e).1 response y.
Proof.
  intros Hne Hok.
  destruct (WithManagerOrder_cases order e)
    as [(Heq & Hall)|(id & Heq & _)]; rewrite Heq in Hok |- *; [|done].
  simpl. split.
  - rewrite callable_of_order by done.
    rewrite engine_facts.omap_managerMap_ids.
    clear -Hall. induction order as [|id order IH]; [done|].
    rewrite filter_cons_True by apply Hall, list_elem_of_here.
    rewrite IH; [done|]. intros id' Hid'. apply Hall. by right.
  - intros m Hm Hadd.
    destruct (AddManager_cases m (set_managerOrder e order))
      as [(Ha & _)|(err & Ha & _)]; rewrite Ha in Hadd |- *; [|done].
    simpl.
    assert (∀ id, id ∈ order →
              managerMap (managers e ++ [m]) !! id
              = managerMap (managers e) !! id) as Hsame.
    { intros id Hid. rewrite engine_facts.managerMap_snoc.
      apply lookup_insert_ne. intros Heq'. apply Hm. by rewrite Heq'. }
    assert (executionOrder
              (set_managers (set_managerOrder e order) (managers e ++ [m]))
            = order) as Hexec.
    { unfold executionOrder. simpl.
      rewrite bool_decide_eq_false_2; [done|]. by destruct order. }
    assert (executionOrder (set_managerOrder e order) = order) as Hexec'.
    { unfold executionOrder. simpl.
      rewrite bool_decide_eq_false_2; [done|]. by destruct order. }
    split.
    + unfold callable. rewrite Hexec, Hexec'. simpl.
      clear -Hsame. induction order as [|id order IH]; [done|].
      csimpl. rewrite Hsame by apply list_elem_of_here.
      rewrite IH; [done|]. intros id' Hid'. apply Hsame. by right.
    + intros response y. unfold PostProcess, executeManagersInOrder.
      rewrite Hexec, Hexec'. simpl.
      destruct (stores.actor_GetByID _ _ _) as [actor [err|]]; [done|].
      destruct (stores.session_GetByID _ _ _) as [session [err|]]; [done|].
      by rewrite (engine_facts.execute_loop_ext _ _ _ _ _ Hsame).
Qed.

End engine_more.

(** An engine with two managers, the second depending on the first. *)
Lemma registration_keeps_engine_well_formed_witness :
  let a := steady "a" [] in
  let b := steady "b" ["a"%string] in
  let e1 := sample_engine None [a; b] ["b"%string] in
  (∀ m, well_formed (AddManager m e1).1)
  ∧ (∀ order, well_formed (WithManagerOrder order e1).1)
  ∧ (∀ ms, well_formed (WithManagers ms e1).1)
  ∧ (order_registered e1 →
     (∀ m, order_registered (AddManager m e1).1)
     ∧ (∀ order, order_registered (WithManagerOrder order e1).1))
  ∧ (∀ ms, (WithManagers ms e1).2 = None →
           managerOrder (WithManagers ms e1).1 = managerOrder e1
           ∧ (order_registered (WithManagers ms e1).1
              ↔ ∀ id, id ∈ managerOrder e1 → id ∈ ids ms)).
Proof.
  intros a b e1.
  apply (registration_keeps_engine_well_formed e1).
  split.
  - apply (bool_decide_unpack _). vm_compute. exact I.
  - intros m dep Hm Hdep. simpl in Hm.
    apply elem_of_cons in Hm as [->|Hm].
    { simpl in Hdep. by apply elem_of_nil in Hdep. }
    apply list_elem_of_singleton in Hm. subst m. simpl in Hdep.
    apply list_elem_of_singleton in Hdep. subst dep.
    simpl. apply list_elem_of_here.
Defined.


(** Two managers post-processed in the reverse of their registration
    order. *)
Lemma configured_order_is_what_PostProcess_runs_witness :
  let a := steady "a" [] in
  let b := steady "b" ["a"%string] in
  let e0 := sample_engine None [a; b] [] in
  let order := ["b"; "a"]%string in
  ids (callable (WithManagerOrder order e0).1) = order
  ∧ ∀ m, (manager.GetID m ∉ order) →
         (AddManager m (WithManagerOrder order e0).1).2 = None →
         callable (AddManager m (WithManagerOrder order e0).1).1
         = callable (WithManagerOrder order e0).1
         ∧ ∀ (response : db.Fragment.t Z unit) y,
             PostProcess (AddManager m (WithManagerOrder order e0).1).1
               response y
             = PostProcess (WithManagerOrder order e0).1 response y.
Proof.
  intros a b e0 order.
  apply (configured_order_is_what_PostProcess_runs order e0).
  - discriminate.
  - vm_compute. reflexivity.
Defined.

End engine_more.

(* ===================================================================== *)
(** * Further facts: functional options                                   *)
(* ===================================================================== *)

Module options_more.
Import options.

Section options_more.
Context {T : Type}.
Implicit Types (opt : Option T) (opts pre post : list (Option T)).
Implicit Types (value v : T) (validate : option (T → option error)).

Lemma apply_each_app opts opts' value :
  apply_each (opts ++ opts') value
  = match apply_each opts value with
    | (v1, None) => apply_each opts' v1
    | (v1, Some err) => (v1, Some err)
    end.
Proof.
  revert value. induction opts as [|opt opts IH]; intros value; [done|].
  simpl. destruct (opt value) as [v1 [err|]]; [done|]. apply IH.
Qed.

Lemma apply_each_cases opts value :
  (∃ v1, apply_each opts value = (v1, None))
  ∨ (∃ pre opt post v1 v2 err,
       opts = pre ++ opt :: post
       ∧ apply_each pre value = (v1, None)
       ∧ opt v1 = (v2, Some err)
       ∧ apply_each opts value
         = (v2, Some (Errorf_w "failed to apply option: " err))).
Proof.
  revert value. induction opts as [|opt opts IH]; intros value.
  { left. by exists value. }
  simpl. destruct (opt value) as [v1 [err|]] eqn:Hopt.
  - right. by exists [], opt, opts, value, v1, err.
  - destruct (IH v1) as [(v2 & Hv2)|(pre & opt' & post & v2 & v3 & err
                                       & -> & Hpre & Hopt' & Hall)].
    + left. by exists v2.
    + right. exists (opt :: pre), opt', post, v2, v3, err.
      split_and!; [done| |done..]. simpl. by rewrite Hopt.
Qed.

(** X17.  [ApplyOptions] applies the options from left to right.  If all
    of them succeed, the value is validated as they left it (when its
    type has a validation), and a validation error is wrapped as
    missing required fields.  Otherwise it stops at the first option
    that fails: the options after it are not applied, the value is not
    validated, what the options so far (the failing one included) wrote
    stays written, and the error wraps the error of that option. *)
Theorem ApplyOptions_stops_at_first_failure validate opts value :
  (∃ v1, all_applied opts value v1
         ∧ ApplyOptions validate opts value
           = (v1, validation_error validate v1))
  ∨ (∃ pre opt post v1 v2 err,
       opts = pre ++ opt :: post
       ∧ all_applied pre value v1
       ∧ opt v1 = (v2, Some err)
       ∧ ApplyOptions validate opts value
         = (v2, Some (Errorf_w "failed to apply option: " err))
       ∧ ∀ post', ApplyOptions validate (pre ++ opt :: post') value
                  = ApplyOptions validate opts value).
Proof.
  unfold ApplyOptions, all_applied.
  destruct (apply_each_cases opts value)
    as [(v1 & Hv1)|(pre & opt & post & v1 & v2 & err & -> & Hpre & Hopt & Hall)].
  - left. exists v1. split; [done|]. rewrite Hv1.
    destruct validate as [f|]; [|done]. simpl. by destruct (f v1).
  - right. exists pre, opt, post, v1, v2, err.
    split_and!; [done..|by rewrite Hall|].
    intros post'. rewrite !apply_each_app, Hpre. simpl. by rewrite Hopt.
Qed.

Lemma apply_each_defaults opts value :
  Forall (λ o, ∃ opt assign, o = WithDefault opt assign) opts →
  ∃ v1, apply_each opts value = (v1, None).
Proof.
  revert value. induction opts as [|o opts IH]; intros value Hall.
  { by exists value. }
  apply Forall_cons in Hall as [(opt & assign & ->) Hall]. simpl.
  unfold WithDefault at 1. destruct (opt value) as [v1 [err|]]; by apply IH.
Qed.

(** X18.  The two combinators.  An option under [WithDefault] never
    fails: where the option fails, the default is assigned on top of
    what the option wrote; so a list of such options can only fail in
    validation.  An option under [WithValidation] succeeds exactly when
    the option and then the validation do; the validation is not run
    when the option fails, and what the option wrote is not taken back
    when the validation fails. *)
Theorem WithDefault_WithValidation opt value :
  (∀ assign,
     WithDefault opt assign value
     = (if (opt value).2 is Some _ then assign (opt value).1
        else (opt value).1, None))
  ∧ (∀ validationFn,
       ((WithValidation opt validationFn value).2 = None
        ↔ (opt value).2 = None ∧ (validationFn (opt value).1).2 = None)
       ∧ (is_Some (opt value).2 →
          WithValidation opt validationFn value = opt value)
       ∧ ((opt value).2 = None →
          WithValidation opt validationFn value
          = validationFn (opt value).1))
  ∧ (∀ validate opts,
       Forall (λ o, ∃ opt' assign, o = WithDefault opt' assign) opts →
       ∃ v1, all_applied opts value v1
             ∧ ApplyOptions validate opts value
               = (v1, validation_error validate v1)).
Proof.
  split_and!.
  - intros assign. unfold WithDefault. by destruct (opt value) as [v1 [err|]].
  - intros validationFn. unfold WithValidation.
    destruct (opt value) as [v1 [err|]]; simpl.
    + split_and!; [|done..]. split; [done|by intros [? _]].
    + split_and!; [|by intros [? ?]|done]. split; [done|by intros [_ ?]].
  - intros validate opts Hall.
    destruct (apply_each_defaults opts value Hall) as [v1 Hv1].
    exists v1. split; [done|]. unfold ApplyOptions. rewrite Hv1.
    destruct validate as [f|]; [|done]. simpl. by destruct (f v1).
Qed.

End options_more.
End options_more.

(* ===================================================================== *)
(** * Further facts: building an engine and a base manager                *)
(* ===================================================================== *)

Module construction_more.
Import options engine engine_terms cache base_manager.

Section construction_more.
Context {V Vec Tool W Handler EventData : Type}.

#[local] Abbreviation Manager := (manager.Manager V Vec Tool W).
#[local] Abbreviation Engine := (engine.Engine V Vec Tool W).
#[local] Abbreviation BaseManager := (base_manager.BaseManager Handler).

Implicit Types (e : Engine) (ms : list Manager) (order : list string).
Implicit Types (bm : BaseManager) (w : World V).

(** X19.  Among the options of an engine, [WithManagerOrder] has to come
    after [WithManagers]: on an engine that has no managers yet, an
    order that is not empty is refused, with its first identifier
    reported, whatever option follows; with the managers given first,
    the two options succeed exactly when the managers are accepted and
    provide every identifier of the order. *)
Theorem order_option_must_follow_managers_option ms order e validate :
  managers e = [] → order ≠ [] →
  (∃ id, head order = Some id
         ∧ ApplyOptions validate [WithManagerOrder order; WithManagers ms] e
           = (e, Some (Errorf_w "failed to apply option: "
                         (Errorf ("manager " +:+ id
                            +:+ " specified in order but not provided")))))
  ∧ ((apply_each [WithManagers ms; WithManagerOrder order] e).2 = None
     ↔ (WithManagers ms e).2 = None ∧ ∀ id, id ∈ order → id ∈ ids ms)
  ∧ ((apply_each [WithManagers ms; WithManagerOrder order] e).2 = None →
     (apply_each [WithManagers ms; WithManagerOrder order] e).1
     = set_managerOrder (set_managers e ms) order).
Proof.
  intros Hempty Hne. split_and!.
  - destruct order as [|id order]; [done|]. exists id. split; [done|].
    unfold ApplyOptions. cbn [apply_each].
    rewrite engine_more.WithManagerOrder_first_unregistered.
    unfold first_unregistered. rewrite Hempty.
    rewrite filter_cons_True by (simpl; apply not_elem_of_nil). done.
  - cbn [apply_each].
    destruct (engine_more.WithManagers_cases ms e)
      as [(-> & _)|(err & -> & _)]; simpl.
    + destruct (engine_more.WithManagerOrder_cases order (set_managers e ms))
        as [(-> & Hall)|(id & -> & Hid & Hno)]; simpl.
      * done.
      * split; [done|]. intros [_ Hall]. exfalso. by apply Hno, Hall.
    + split; [done|by intros [? _]].
  - cbn [apply_each].
    destruct (engine_more.WithManagers_cases ms e)
      as [(-> & _)|(err & -> & _)]; simpl; [|done].
    by destruct (engine_more.WithManagerOrder_cases order (set_managers e ms))
      as [(-> & Hall)|(id & -> & Hid & Hno)].
Qed.

(** ** The base manager *)

Lemma ValidateRequiredFields_complete bm :
  ValidateRequiredFields bm = None ↔ complete bm.
Proof.
  unfold ValidateRequiredFields, complete.
  destruct (Ctx bm), (FragmentStore bm), (ActorStore bm), (SessionStore bm),
    (LLM bm), (Logger bm), (InteractionFragmentStore bm);
    try (split; [done|]; intros (H1 & H2 & H3 & H4 & H5 & H6 & H7 & _);
         by first [destruct H1|destruct H2|destruct H3|destruct H4
                  |destruct H5|destruct H6|destruct H7]).
  repeat case_decide.
  - split; [done|]. by intros (_ & _ & _ & _ & _ & _ & _ & ? & _).
  - split; [done|]. by intros (_ & _ & _ & _ & _ & _ & _ & _ & ?).
  - split; [|done]. intros _. by split_and!.
Qed.

Lemma setters_applied (setters : list (Setter)) bm :
  ∃ bm', apply_each (option_of <$> setters) bm = (bm', None)
         ∧ Cache bm' = Cache bm ∧ eventHandler bm' = eventHandler bm.
Proof.
  revert bm. induction setters as [|s setters IH]; intros bm.
  { by exists bm. }
  csimpl. destruct s; simpl;
    match goal with |- context [apply_each _ ?b] =>
      destruct (IH b) as (bm' & -> & Hc & Hh) end;
    by exists bm'.
Qed.

(** X20.  [NewBaseManager] always allocates a cache (capacity 1000, TTL
    of 15 minutes) at an address not in use, before it applies any
    option, and the cache stays allocated when the manager is refused.
    It returns either a manager on which all the required fields are
    set, as the options left it, or no manager and an error.  With the
    options of this package alone no option fails: the manager keeps the
    new cache and has no event handler, so that [triggerEvent] panics on
    it, and it is returned exactly when the required fields are all set;
    otherwise the error names the first field that is missing. *)
Theorem NewBaseManager_allocates_then_validates
    (opts : list (Option BaseManager)) w :
  ∃ p r,
    NewBaseManager opts w
    = Some (r, {| globals := globals w;
                  heap := <[p := {| items := ∅; maxSize := 1000;
                                    ttl := 15 * Minute;
                                    cancelled := false |}]> (heap w) |})
    ∧ heap w !! p = None
    ∧ ((∃ bm, r = (Some bm, None) ∧ complete bm
              ∧ all_applied opts (blank p) bm)
       ∨ (∃ err, r = (None, Some (Errorf_w "failed to create base manager: "
                                    err))))
    ∧ ∀ setters, opts = option_of <$> setters →
        ∃ bm, all_applied opts (blank p) bm
              ∧ Cache bm = Some p
              ∧ (∀ ev : EventData, triggerEvent ev bm = None)
              ∧ (ValidateRequiredFields bm = None ↔ complete bm)
              ∧ r = match ValidateRequiredFields bm with
                    | None => (Some bm, None)
                    | Some err =>
                        (None,
                         Some (Errorf_w "failed to create base manager: "
                                 (Errorf_w "missing required fields: " err)))
                    end.
Proof.
  unfold NewBaseManager, New. simpl.
  set (p := fresh (dom (heap w))).
  destruct (ApplyOptions (Some ValidateRequiredFields) opts (blank p))
    as [bm0 o] eqn:Happly.
  exists p,
    (match o with
     | Some err => (None, Some (Errorf_w "failed to create base manager: " err))
     | None => (Some bm0, None)
     end).
  split; [by destruct o|].
  split; [apply not_elem_of_dom, is_fresh|].
  unfold ApplyOptions in Happly. split.
  - destruct (apply_each opts (blank p)) as [bm [err|]] eqn:Happ.
    { injection Happly as <- <-. right. by eexists. }
    destruct (ValidateRequiredFields bm) as [err|] eqn:Hval.
    { injection Happly as <- <-. right. by eexists. }
    injection Happly as <- <-.
    left. exists bm. split_and!; [done| |done].
    by apply ValidateRequiredFields_complete.
  - intros setters ->.
    destruct (setters_applied setters (blank p)) as (bm & Happ & Hc & Hh).
    exists bm. split_and!; [done|done| | |].
    + intros ev. unfold triggerEvent. by rewrite Hh.
    + apply ValidateRequiredFields_complete.
    + rewrite Happ in Happly.
      destruct (ValidateRequiredFields bm); by injection Happly as <- <-.
Qed.

End construction_more.

(** The two options, in either order, on an engine without managers. *)
Lemma order_option_must_follow_managers_option_witness :
  let a := samples.steady "a" [] in
  let b := samples.steady "b" ["a"%string] in
  let e0 := samples.sample_engine None [] [] in
  let order := ["b"; "a"]%string in
  (∃ id, head order = Some id
         ∧ ApplyOptions None [WithManagerOrder order; WithManagers [a; b]] e0
           = (e0, Some (Errorf_w "failed to apply option: "
                          (Errorf ("manager " +:+ id
                             +:+ " specified in order but not provided")))))
  ∧ ((apply_each [WithManagers [a; b]; WithManagerOrder order] e0).2 = None
     ↔ (WithManagers [a; b] e0).2 = None
       ∧ ∀ id, id ∈ order → id ∈ ids [a; b])
  ∧ ((apply_each [WithManagers [a; b]; WithManagerOrder order] e0).2 = None →
     (apply_each [WithManagers [a; b]; WithManagerOrder order] e0).1
     = set_managerOrder (set_managers e0 [a; b]) order).
Proof.
  intros a b e0 order.
  apply (order_option_must_follow_managers_option [a; b] order e0 None).
  - reflexivity.
  - discriminate.
Defined.

End construction_more.

(* ===================================================================== *)
(** * Further facts: generating a response                                *)
(* ===================================================================== *)

Module generation_more.
Import engine generation.

Section generation_more.
Context {V Vec Tool W Emb : Type}.

#[local] Abbreviation Fragment := (db.Fragment.t V Vec).
#[local] Abbreviation Engine := (engine.Engine V Vec Tool W).
#[local] Abbreviation Sys := (engine.Sys V Vec Tool W).

Implicit Types (e : Engine) (y : Sys) (client : LLMClient Tool W Emb).
Implicit Types (w : W) (f : Fragment).

(** X21.  [GenerateResponse] asks for the embedding only after the
    completion has succeeded, of the content of the completion.  Its
    errors carry the text of the cause and do not wrap it.  The fragment
    it returns belongs to the engine's own actor and to the session
    given, and has neither metadata nor actor nor session attached; when
    [PostProcess] then succeeds on it, actor and session were looked up
    under these two identifiers and the store was given this fragment,
    as it was returned. *)
Theorem GenerateResponse_then_PostProcess
    client (NewVector : Emb → Vec) e messages sessionID tools newID
    now1 now2 w :
  (∀ w' f,
     GenerateResponse client NewVector e messages sessionID tools newID
       now1 now2 w = (w', inl f) →
     (∃ w1 response embedding,
        GenerateCompletion client
          {| Messages := messages; ModelType := ModelTypeDefault;
             Temperature := QArith_base.Qmake 7 10; Tools := tools |} w
        = (w1, inl response)
        ∧ EmbedText client (llm.Content response) w1 = (w', inl embedding)
        ∧ db.Fragment.Content f = llm.Content response
        ∧ db.Fragment.Embedding f = NewVector embedding)
     ∧ db.Fragment.ActorID f = ID e
     ∧ db.Fragment.SessionID f = sessionID
     ∧ db.Fragment.Metadata f = None
     ∧ db.Fragment.Actor f = None
     ∧ db.Fragment.Session f = None
     ∧ ∀ y y',
         PostProcess e f y = (y', None) →
         (∃ actor session,
            stores.actor_GetByID (actorStore e) (ID e) (world y)
            = (actor, None)
            ∧ stores.session_GetByID (sessionStore e) sessionID (world y)
              = (session, None))
         ∧ upsert_calls (trace y') = upsert_calls (trace y) ++ [(f, None)])
  ∧ (∀ w' err,
       GenerateResponse client NewVector e messages sessionID tools newID
         now1 now2 w = (w', inr err) →
       Unwrap err = None
       ∧ ((∃ cause,
             GenerateCompletion client
               {| Messages := messages; ModelType := ModelTypeDefault;
                  Temperature := QArith_base.Qmake 7 10; Tools := tools |} w
             = (w', inr cause)
             ∧ Error err
               = ("failed to generate completion: " +:+ Error cause)%string)
          ∨ (∃ w1 response cause,
               GenerateCompletion client
                 {| Messages := messages; ModelType := ModelTypeDefault;
                    Temperature := QArith_base.Qmake 7 10; Tools := tools |} w
               = (w1, inl response)
               ∧ EmbedText client (llm.Content response) w1
                 = (w', inr cause)
               ∧ Error err
                 = ("failed to create embedding for response: "
                      +:+ Error cause)%string))).
Proof.
  unfold GenerateResponse.
  destruct (GenerateCompletion client _ w) as [w1 [response|cause]] eqn:Hgen.
  2:{ split; [done|]. intros w' err [= <- <-]. split; [done|].
      left. by exists cause. }
  destruct (EmbedText client (llm.Content response) w1)
    as [w2 [embedding|cause]] eqn:Hemb.
  2:{ split; [done|]. intros w' err [= <- <-]. split; [done|].
      right. by exists w1, response, cause. }
  split; [|done]. intros w' f [= <- <-]. simpl.
  split_and!; [by exists w1, response, embedding|done..|].
  intros y y'. unfold PostProcess. simpl.
  destruct (stores.actor_GetByID _ _ _) as [actor [err|]]; [done|].
  destruct (stores.session_GetByID _ _ _) as [session [err|]]; [done|].
  set (f := {| db.Fragment.ID := newID |}).
  set (y1 := {| cur := _; world := world y; trace := trace y |}).
  unfold executeManagersInOrder.
  destruct (engine_facts.execute_loop_spec
              (managerMap (managers e)) (executionOrder e) y1)
    as (y2 & r2 & -> & Hcases).
  { intros id m Hm. by destruct (engine_facts.managerMap_keyed _ _ _ Hm). }
  destruct Hcases as [[-> Hy2]|(pre & m & post & cause & Hc & Hy2 & ->)];
    [|done].
  pose proof (engine_facts.call_Upsert_trace e f y2) as Htr.
  destruct (call_Upsert e f y2) as [y3 [err|]]; [done|].
  intros [= <-]. split; [by exists actor, session|].
  simpl in Htr. rewrite Htr, Hy2.
  rewrite !engine_facts.upsert_calls_app, engine_facts.upsert_calls_oks.
  simpl. by rewrite app_nil_r.
Qed.

End generation_more.
End generation_more.

(* ===================================================================== *)
(** * Further facts: the OpenAI provider                                  *)
(* ===================================================================== *)

Module provider_more.
Import generation provider.

Section provider_more.
Context {Tool P W Emb : Type}.

Implicit Types (T : ToolOps Tool P W) (p : OpenAIProvider P W Emb).
Implicit Types (req : CompletionRequest Tool) (w : W) (fuel n : nat).



(** ** The tool loop *)

Lemma tool_round_step T p req w req1 w1 :
  tool_round T p req w = Some (req1, w1) →
  (∀ fuel, GenerateCompletion (S fuel) T p req w
           = GenerateCompletion fuel T p req1 w1)
  ∧ (∃ call tool result,
       Messages req1
       = Messages req ++
         [{| llm.Role := llm.RoleAssistant; llm.Content := "";
             llm.Name := "";
             llm.ToolCall :=
               Some {| llm.tc_Name := openai.fc_Name call;
                       llm.tc_Arguments := openai.fc_Arguments call |} |};
          {| llm.Role := llm.RoleTool; llm.Content := result;
             llm.Name := GetName T tool; llm.ToolCall := None |}]
       ∧ tool ∈ Tools req)
  ∧ Tools req1 = Tools req
  ∧ ModelType req1 = ModelType req
  ∧ Temperature req1 = Temperature req.
Proof.
  unfold tool_round. intros Hround. simpl.
  destruct (openai.CreateChatCompletion _ _ _) as [w' [[|choice ?]|err]];
    try done.
  destruct (openai.cm_FunctionCall choice) as [call|]; [|done].
  destruct (find_tool _ _ _) as [tool|] eqn:Hfind; [|done].
  destruct (Execute _ _ _ _) as [w2 [result|err]]; [|done].
  injection Hround as <- <-. split_and!; try done.
  exists call, tool, result. split; [done|].
  clear -Hfind. induction (Tools req) as [|t ts IH]; [done|].
  simpl in Hfind. case_decide.
  - injection Hfind as <-. apply list_elem_of_here.
  - right. by apply IH.
Qed.

(** X25.  After [n] rounds in which the API asks for a tool and the tool
    runs, [GenerateCompletion] goes on as if it had been called with the
    follow-up request: the conversation it started with, followed by two
    messages per round, the assistant's tool call and the tool's result,
    with the same tools, model type and temperature.  Such a run calls
    itself at least [n] times: a bound of [n] on the depth is not
    enough. *)
Theorem GenerateCompletion_tool_rounds n T p req w req' w' :
  tool_rounds n T p req w = Some (req', w') →
  GenerateCompletion n T p req w = None
  ∧ (∀ fuel, GenerateCompletion (n + fuel) T p req w
             = GenerateCompletion fuel T p req' w')
  ∧ (∃ added,
       Messages req' = Messages req ++ added
       ∧ llm.Role <$> added
         = mjoin (replicate n [llm.RoleAssistant; llm.RoleTool]))
  ∧ Tools req' = Tools req
  ∧ ModelType req' = ModelType req
  ∧ Temperature req' = Temperature req.
Proof.
  revert req w. induction n as [|n IH]; intros req w Hn.
  { injection Hn as <- <-. split_and!; try done.
    exists []. by rewrite app_nil_r. }
  simpl in Hn.
  destruct (tool_round T p req w) as [[req1 w1]|] eqn:Hround; [|done].
  destruct (tool_round_step T p req w req1 w1 Hround)
    as (Hstep & (call & tool & result & Hmsgs & _) & Ht & Hm & Htemp).
  destruct (IH req1 w1 Hn)
    as (Hnone & Hrun & (added & Hadd & Hroles) & Ht' & Hm' & Htemp').
  split_and!.
  - by rewrite Hstep.
  - intros fuel. cbn [Nat.add]. by rewrite Hstep.
  - eexists. rewrite Hadd, Hmsgs, <-app_assoc. split; [done|].
    rewrite fmap_app, Hroles. done.
  - by rewrite Ht'.
  - by rewrite Hm'.
  - by rewrite Htemp'.
Qed.

(** X26.  The tool loop has no bound of its own: when the API goes on
    asking for tools that run, no bound on the depth of the calls is
    enough for [GenerateCompletion] to return. *)
Theorem GenerateCompletion_unbounded T p req w :
  (∀ n, is_Some (tool_rounds n T p req w)) →
  ∀ fuel, GenerateCompletion fuel T p req w = None.
Proof.
  intros Hall fuel. specialize (Hall fuel). revert req w Hall.
  induction fuel as [|fuel IH]; intros req w Hall; [done|].
  simpl in Hall.
  destruct (tool_round T p req w) as [[req1 w1]|] eqn:Hround;
    [|by destruct Hall].
  destruct (tool_round_step T p req w req1 w1 Hround) as (-> & _).
  by apply IH.
Qed.

(** ** The request sent to the API *)

Lemma mapRole_New (K : openai.Constants)
    (NewClient : string → openai.Client P W Emb) config role :
  mapRole (NewOpenAIProvider K NewClient config) role = role_name K role.
Proof.
  unfold mapRole, NewOpenAIProvider, role_name. simpl.
  rewrite !lookup_insert, lookup_empty.
  repeat case_decide; subst; done.
Qed.

(** X27.  The request a provider made by [NewOpenAIProvider] sends: one
    message per message of the conversation, in order, with content,
    name and tool call carried over and the role translated, a role
    that is not one of the four known ones being passed on as it is; one
    function per tool, in order; the temperature of the request; and the
    model configured for the model type, or the one configured for the
    default type when there is none, or the empty name when the
    configuration has neither.  Without a configuration every model type
    but [advanced] is served by the small model. *)
Theorem chat_request_conversion (K : openai.Constants)
    (NewClient : string → openai.Client P W Emb) config T req :
  Forall2
    (λ msg cm,
       openai.cm_Role cm = role_name K (llm.Role msg)
       ∧ openai.cm_Content cm = llm.Content msg
       ∧ openai.cm_Name cm = llm.Name msg
       ∧ openai.cm_FunctionCall cm
         = (λ tc, {| openai.fc_Name := llm.tc_Name tc;
                     openai.fc_Arguments := llm.tc_Arguments tc |})
             <$> llm.ToolCall msg)
    (Messages req)
    (openai.Messages
       (chat_request T (NewOpenAIProvider K NewClient config) req))
  ∧ openai.fd_Name
      <$> openai.Functions
            (chat_request T (NewOpenAIProvider K NewClient config) req)
    = GetName T <$> Tools req
  ∧ openai.Temperature
      (chat_request T (NewOpenAIProvider K NewClient config) req)
    = Temperature req
  ∧ openai.Model (chat_request T (NewOpenAIProvider K NewClient config) req)
    = model_name K config (ModelType req).
Proof.
  split_and!.
  - simpl. unfold convertMessages.
    induction (Messages req) as [|msg msgs IH]; [constructor|].
    csimpl. constructor; [|done]. simpl.
    rewrite mapRole_New. by split_and!.
  - simpl. rewrite <-list_fmap_compose. done.
  - done.
  - simpl. unfold getModel, model_name, NewOpenAIProvider. simpl.
    destruct (ModelConfig config) as [m|].
    + by destruct (m !! ModelType req).
    + rewrite !lookup_insert, lookup_empty.
      repeat case_decide; subst; done.
Qed.

End provider_more.
(** Two tool rounds before the API answers. *)
Lemma GenerateCompletion_tool_rounds_witness :
  let T := provider_samples.sample_tools in
  let p := provider_samples.sample_provider provider_samples.scripted_client in
  let req := provider_samples.sample_completion_request in
  ∃ req' w',
    tool_rounds 2 T p req 0%nat = Some (req', w')
    ∧ GenerateCompletion 2 T p req 0%nat = None
    ∧ (∀ fuel, GenerateCompletion (2 + fuel) T p req 0%nat
               = GenerateCompletion fuel T p req' w')
    ∧ (∃ added,
         Messages req' = Messages req ++ added
         ∧ llm.Role <$> added
           = mjoin (replicate 2 [llm.RoleAssistant; llm.RoleTool]))
    ∧ Tools req' = Tools req
    ∧ ModelType req' = ModelType req
    ∧ Temperature req' = Temperature req.
Proof.
  intros T p req.
  destruct (tool_rounds 2 T p req 0%nat) as [[req' w']|] eqn:Hrounds.
  - exists req', w'. split; [reflexivity|].
    apply (GenerateCompletion_tool_rounds 2 T p req 0%nat req' w' Hrounds).
  - vm_compute in Hrounds. discriminate Hrounds.
Defined.

(** An API that never stops asking for a tool. *)
Lemma GenerateCompletion_unbounded_witness :
  let T := provider_samples.sample_tools in
  let p := provider_samples.sample_provider provider_samples.looping_client in
  let req := provider_samples.sample_completion_request in
  GenerateCompletion 25 T p req 0%nat = None.
Proof.
  intros T p req.
  apply (GenerateCompletion_unbounded T p req 0%nat).
  assert (∀ n r w, Tools r = Tools req → is_Some (tool_rounds n T p r w))
    as Hall.
  { induction n as [|n IH]; intros r w Hr; [by eexists|].
    cbn [tool_rounds]. unfold tool_round. cbn -[tool_rounds].
    rewrite Hr. cbn -[tool_rounds]. by apply IH. }
  intros n. by apply Hall.
Defined.

End provider_more.
